(** * Airtable formula formatter: layout lexer, pretty-printer, display lexer

    A shallow embedding of [src/lib/formatter.ts] ([tokenize],
    [formatAirtableFormula]), of the syntax highlighter
    ([highlightAirtableFormula]) and of what the page computes with them,
    followed by the properties of the specification that were settled
    against them and by further properties of the code.

    A JavaScript string is a sequence of UTF-16 code units; it is modelled
    as a [list N].  Cursor positions [i], [j] of the source are modelled,
    where only the remaining input matters, by the suffix of the input that
    starts at the cursor. *)

From Stdlib Require Import String Ascii.
From Stdlib Require Import List NArith ZArith Bool Lia.
Import ListNotations.

Set Implicit Arguments.

(** ** JavaScript strings and the character classes of the regular expressions *)

Definition char := N.
Definition jsstring := list char.

(** Literal text of the examples, written as a Rocq string. *)
Definition str (s : string) : jsstring :=
  map N_of_ascii (list_ascii_of_string s).

Definition ch_tab : char := 9%N.
Definition ch_nl : char := 10%N.
Definition ch_space : char := 32%N.
Definition ch_dquote : char := 34%N.
Definition ch_squote : char := 39%N.
Definition ch_lparen : char := 40%N.
Definition ch_rparen : char := 41%N.
Definition ch_comma : char := 44%N.
Definition ch_dot : char := 46%N.
Definition ch_eq : char := 61%N.
Definition ch_backslash : char := 92%N.
Definition ch_lbrace : char := 123%N.
Definition ch_rbrace : char := 125%N.

Definition in_range (lo hi c : N) : bool := ((lo <=? c) && (c <=? hi))%N.

(** [\s]: the WhiteSpace and LineTerminator code points of ECMAScript.
    [String.prototype.trim] strips exactly the same set. *)
Definition is_space (c : char) : bool :=
  in_range 9 13 c || (c =? 32)%N || (c =? 160)%N || (c =? 5760)%N
  || in_range 8192 8202 c || (c =? 8232)%N || (c =? 8233)%N
  || (c =? 8239)%N || (c =? 8287)%N || (c =? 12288)%N || (c =? 65279)%N.

(** [\d] *)
Definition is_digit (c : char) : bool := in_range 48 57 c.

(** [[a-zA-Z_]] *)
Definition is_ident_start (c : char) : bool :=
  in_range 97 122 c || in_range 65 90 c || (c =? 95)%N.

(** [[a-zA-Z0-9_]] *)
Definition is_ident_char (c : char) : bool :=
  in_range 97 122 c || in_range 65 90 c || in_range 48 57 c || (c =? 95)%N.

(** [[+\-*/&]] *)
Definition is_arith_op (c : char) : bool :=
  (c =? 43)%N || (c =? 45)%N || (c =? 42)%N || (c =? 47)%N || (c =? 38)%N.

(** [char === '=' || char === '!' || char === '>' || char === '<'] *)
Definition is_cmp_op (c : char) : bool :=
  (c =? 61)%N || (c =? 33)%N || (c =? 62)%N || (c =? 60)%N.

Definition is_quote (c : char) : bool :=
  (c =? ch_dquote)%N || (c =? ch_squote)%N.

(** [\d] or a literal dot: the continuation of a number. *)
Definition is_number_char (c : char) : bool :=
  is_digit c || (c =? ch_dot)%N.

(** [[ \t]] and its complement [[^ \t]] *)
Definition is_space_or_tab (c : char) : bool :=
  (c =? ch_space)%N || (c =? ch_tab)%N.

(** [String.prototype.toUpperCase].  The source applies it to identifier
    text only (code units in [[a-zA-Z0-9_]]), where it maps [a-z] to [A-Z]
    and leaves the rest unchanged. *)
Definition upper_char (c : char) : char :=
  if in_range 97 122 c then (c - 32)%N else c.

Definition toUpperCase (s : jsstring) : jsstring := map upper_char s.

(** The code units of [s] that are not white space, in order. *)
Definition visible (s : jsstring) : jsstring :=
  filter (fun c => negb (is_space c)) s.

Definition jsstring_eqb (a b : jsstring) : bool :=
  if list_eq_dec N.eq_dec a b then true else false.

(** [upper === 'TRUE' || upper === 'FALSE'] *)
Definition is_boolean (upper : jsstring) : bool :=
  jsstring_eqb upper (str "TRUE") || jsstring_eqb upper (str "FALSE").

(** Longest prefix whose code units satisfy [p], and what follows it: the
    loops [while (i < len && p(formula[i])) { value += formula[i]; i++ }]. *)
Fixpoint span (p : char -> bool) (l : jsstring) : jsstring * jsstring :=
  match l with
  | [] => ([], [])
  | c :: l' =>
      if p c then let (a, b) := span p l' in (c :: a, b) else ([], l)
  end.

Fixpoint dropWhile (p : char -> bool) (l : jsstring) : jsstring :=
  match l with
  | [] => []
  | c :: l' => if p c then dropWhile p l' else l
  end.

(** The body of a string literal after its opening quote: the loop with the
    [escaped] flag.  Returns the code units appended to the token and the
    input left after the literal. *)
Fixpoint scan_string (quote : char) (escaped : bool) (l : jsstring)
  : jsstring * jsstring :=
  match l with
  | [] => ([], [])
  | c :: l' =>
      if escaped then
        let (v, r) := scan_string quote false l' in (c :: v, r)
      else if (c =? ch_backslash)%N then
        let (v, r) := scan_string quote true l' in (c :: v, r)
      else if (c =? quote)%N then ([c], l')
      else
        let (v, r) := scan_string quote false l' in (c :: v, r)
  end.

(** The body of a field reference after its opening brace: everything up to
    and including the first closing brace, or up to the end of the input. *)
Definition scan_field (l : jsstring) : jsstring * jsstring :=
  let (body, r) := span (fun c => negb (c =? ch_rbrace)%N) l in
  match r with
  | [] => (body, [])
  | c :: r' => (body ++ [c], r')
  end.

(** A comparison operator after its first code unit: a following [=] is
    taken too. *)
Definition scan_cmp (l : jsstring) : jsstring * jsstring :=
  match l with
  | c :: l' => if (c =? ch_eq)%N then ([c], l') else ([], l)
  | [] => ([], [])
  end.

(** [i < len && formula[i] === c] at the cursor whose remaining input is [l]. *)
Definition starts_with (c : char) (l : jsstring) : bool :=
  match l with
  | c' :: _ => (c' =? c)%N
  | [] => false
  end.

(** The input left at the cursor does not start with a code unit of [p]. *)
Definition starts_with_not (p : char -> bool) (l : jsstring) : Prop :=
  match l with
  | c :: _ => p c = false
  | [] => True
  end.

(** ** Errors a JavaScript run could end in, and running out of fuel *)

Inductive error : Type :=
| OutOfFuel    (* a loop of the model did not finish within its fuel *)
| TypeError    (* property access on [undefined] *)
| RangeError.  (* [String.prototype.repeat] with a negative count *)

Inductive result (A : Type) : Type :=
| Ok (a : A)
| Err (e : error).

Arguments Ok {A} a.
Arguments Err {A} e.

Definition bind {A B : Type} (m : result A) (k : A -> result B) : result B :=
  match m with
  | Ok a => k a
  | Err e => Err e
  end.

Notation "x <- m ;; k" := (bind m (fun x => k))
  (at level 61, m at next level, right associativity).

(** ** The display lexer (syntax highlighter) *)

Module Highlighter.

Inductive HighlightType : Type :=
| hl_function | hl_field | hl_string | hl_number
| hl_operator | hl_punctuation | hl_text.

Record HighlightedToken : Type := mkHl {
  text : jsstring;
  type : HighlightType
}.

(** One iteration of the [while (i < len)] loop, entered with
    [char = formula[i]] and [rest] the input after it.  Returns the token
    pushed and the input from the new value of [i]. *)
Definition highlight_step (c : char) (rest : jsstring)
  : HighlightedToken * jsstring :=
  if (c =? ch_lbrace)%N then
    let (v, r) := scan_field rest in (mkHl (c :: v) hl_field, r)
  else if is_quote c then
    let (v, r) := scan_string c false rest in (mkHl (c :: v) hl_string, r)
  else if is_digit c then
    let (v, r) := span is_number_char rest in (mkHl (c :: v) hl_number, r)
  else if is_arith_op c then (mkHl [c] hl_operator, rest)
  else if is_cmp_op c then
    let (v, r) := scan_cmp rest in (mkHl (c :: v) hl_operator, r)
  else if (c =? ch_lparen)%N || (c =? ch_rparen)%N || (c =? ch_comma)%N then
    (mkHl [c] hl_punctuation, rest)
  else if is_ident_start c then
    let (v, r) := span is_ident_char rest in
    let txt := c :: v in
    (* let j = i; while (j < len && /\s/.test(formula[j])) j++; *)
    let rj := dropWhile is_space r in
    if starts_with ch_lparen rj then (mkHl (toUpperCase txt) hl_function, r)
    else
      let upper := toUpperCase txt in
      if is_boolean upper
      then (mkHl upper hl_number, rj)          (* i = j; // Skip whitespace *)
      else (mkHl txt hl_text, rj)              (* i = j; // Skip whitespace *)
  else if is_space c then
    let (v, r) := span is_space rest in (mkHl (c :: v) hl_text, r)
  else (mkHl [c] hl_text, rest).

(** The loop.  Every iteration moves the cursor, so [length formula]
    iterations are enough; [Err OutOfFuel] would mean they were not. *)
Fixpoint highlight_loop (fuel : nat) (s : jsstring)
  : result (list HighlightedToken) :=
  match s with
  | [] => Ok []
  | c :: rest =>
      match fuel with
      | O => Err OutOfFuel
      | S fuel' =>
          let (tok, s') := highlight_step c rest in
          toks <- highlight_loop fuel' s' ;;
          Ok (tok :: toks)
      end
  end.

Definition highlightAirtableFormula (formula : jsstring)
  : result (list HighlightedToken) :=
  highlight_loop (length formula) formula.

(** The text a renderer shows: the tokens' texts one after the other. *)
Definition concat_text (toks : list HighlightedToken) : jsstring :=
  concat (map text toks).


End Highlighter.

(** ** The layout lexer and the pretty-printer ([src/lib/formatter.ts]) *)

Module Formatter.

Inductive TokenType : Type :=
| ty_function | ty_field | ty_string | ty_number | ty_operator
| ty_comma | ty_paren_open | ty_paren_close | ty_whitespace | ty_unknown.

Definition TokenType_eqb (a b : TokenType) : bool :=
  match a, b with
  | ty_function, ty_function | ty_field, ty_field | ty_string, ty_string
  | ty_number, ty_number | ty_operator, ty_operator | ty_comma, ty_comma
  | ty_paren_open, ty_paren_open | ty_paren_close, ty_paren_close
  | ty_whitespace, ty_whitespace | ty_unknown, ty_unknown => true
  | _, _ => false
  end.

Record Token : Type := mkToken {
  type : TokenType;
  value : jsstring;
  start : nat;
  end_ : nat
}.

(** One iteration of the [while (i < len)] loop of [tokenize], entered with
    the cursor [i], [char = formula[i]] and [rest] the input after it.
    Returns the token pushed ([None] for skipped whitespace), the new value
    of [i] and the input from there. *)
Definition tokenize_step (i : nat) (c : char) (rest : jsstring)
  : option Token * nat * jsstring :=
  let start := i in
  if is_space c then (None, i + 1, rest)
  else if (c =? ch_lbrace)%N then
    let (v, r) := scan_field rest in
    let i' := i + 1 + length v in
    (Some (mkToken ty_field (c :: v) start i'), i', r)
  else if is_quote c then
    let (v, r) := scan_string c false rest in
    let i' := i + 1 + length v in
    (Some (mkToken ty_string (c :: v) start i'), i', r)
  else if is_digit c then
    let (v, r) := span is_number_char rest in
    let i' := i + 1 + length v in
    (Some (mkToken ty_number (c :: v) start i'), i', r)
  else if is_arith_op c then
    (Some (mkToken ty_operator [c] start (i + 1)), i + 1, rest)
  else if is_cmp_op c then
    let (v, r) := scan_cmp rest in
    let i' := i + 1 + length v in
    (Some (mkToken ty_operator (c :: v) start i'), i', r)
  else if (c =? ch_lparen)%N then
    (Some (mkToken ty_paren_open [c] start (i + 1)), i + 1, rest)
  else if (c =? ch_rparen)%N then
    (Some (mkToken ty_paren_close [c] start (i + 1)), i + 1, rest)
  else if (c =? ch_comma)%N then
    (Some (mkToken ty_comma [c] start (i + 1)), i + 1, rest)
  else if is_ident_start c then
    let (v, r) := span is_ident_char rest in
    let i' := i + 1 + length v in
    let value := c :: v in
    if starts_with ch_lparen r then
      (Some (mkToken ty_function (toUpperCase value) start i'), i', r)
    else
      let upper := toUpperCase value in
      if is_boolean upper
      then (Some (mkToken ty_number upper start i'), i', r)
      else (Some (mkToken ty_unknown value start i'), i', r)
  else (Some (mkToken ty_unknown [c] start (i + 1)), i + 1, rest).

Definition push (toks : list Token) (t : option Token) : list Token :=
  match t with
  | Some t => t :: toks
  | None => toks
  end.

(** The loop: [s] is the input from the cursor [i] on.  Every iteration
    moves the cursor, so [length formula] iterations are enough. *)
Fixpoint tokenize_loop (fuel : nat) (i : nat) (s : jsstring)
  : result (list Token) :=
  match s with
  | [] => Ok []
  | c :: rest =>
      match fuel with
      | O => Err OutOfFuel
      | S fuel' =>
          let '(tok, i', s') := tokenize_step i c rest in
          toks <- tokenize_loop fuel' i' s' ;;
          Ok (push toks tok)
      end
  end.

Definition tokenize (formula : jsstring) : result (list Token) :=
  tokenize_loop (length formula) 0 formula.


(** *** The emission pass *)

(** [tokens[i]] followed by a property access: a [TypeError] when the index
    is out of range. *)
Definition get (tokens : list Token) (i : nat) : result Token :=
  match nth_error tokens i with
  | Some t => Ok t
  | None => Err TypeError
  end.

(** [s.repeat(n)] *)
Definition js_repeat (s : jsstring) (n : Z) : result jsstring :=
  if (n <? 0)%Z then Err RangeError
  else Ok (concat (repeat s (Z.to_nat n))).

Definition indentChar : jsstring := [ch_tab].

(** The mutable variables [result], [indentLevel] and [isMultiLine] that
    the closures of [formatAirtableFormula] share. *)
Record State : Type := mkState {
  result_ : jsstring;
  indentLevel : Z;
  isMultiLine : bool
}.

Definition addIndent (indentLevel : Z) : result jsstring :=
  js_repeat indentChar indentLevel.

Definition is_type (ty : TokenType) (t : Token) : bool :=
  TokenType_eqb (type t) ty.

(** The loop of [countParameters], entered with the current [depth], [j]
    and [paramCount]. *)
Fixpoint countParameters_loop (fuel : nat) (tokens : list Token)
    (depth : Z) (j : nat) (paramCount : nat) : result nat :=
  if (j <? length tokens) && (0 <? depth)%Z then
    match fuel with
    | O => Err OutOfFuel
    | S fuel' =>
        t <- get tokens j ;;
        let depth := if is_type ty_paren_open t then (depth + 1)%Z else depth in
        let depth := if is_type ty_paren_close t then (depth - 1)%Z else depth in
        let paramCount :=
          if (depth =? 1)%Z && is_type ty_comma t then S paramCount
          else paramCount in
        countParameters_loop fuel' tokens depth (j + 1) paramCount
    end
  else Ok paramCount.

Definition countParameters (tokens : list Token) (startIndex : nat)
  : result nat :=
  countParameters_loop (length tokens) tokens 1%Z (startIndex + 1) 0.

Definition shouldBreakAfterParenOpen (tokens : list Token) (index : nat)
  : result bool :=
  n <- countParameters tokens index ;;
  Ok (0 <? n).

(** [prevToken?.type !== ty] and [nextToken && nextToken.type !== ty] *)
Definition type_is_not (ty : TokenType) (t : option Token) : bool :=
  match t with
  | Some t => negb (is_type ty t)
  | None => true
  end.

Definition defined_and (p : Token -> bool) (t : option Token) : bool :=
  match t with
  | Some t => p t
  | None => false
  end.

(** [result[result.length - 1]], [undefined] on the empty string. *)
Definition last_char (s : jsstring) : option char :=
  match s with
  | [] => None
  | _ => Some (last s 0%N)
  end.

Definition char_is_not (c : char) (o : option char) : bool :=
  match o with
  | Some d => negb (d =? c)%N
  | None => true
  end.

(** The body of the emission loop: the [switch] on [tokens[i].type]. *)
Definition emit_step (tokens : list Token) (i : nat) (st : State)
  : result State :=
  token <- get tokens i ;;
  let nextToken :=
    if i + 1 <? length tokens then nth_error tokens (i + 1) else None in
  let prevToken := if 0 <? i then nth_error tokens (i - 1) else None in
  match type token with
  | ty_paren_open =>
      let res := result_ st ++ value token in
      brk <- shouldBreakAfterParenOpen tokens i ;;
      if brk then
        let lvl := (indentLevel st + 1)%Z in
        ind <- addIndent lvl ;;
        Ok (mkState (res ++ [ch_nl] ++ ind) lvl true)
      else Ok (mkState res (indentLevel st) (isMultiLine st))
  | ty_paren_close =>
      let lvl :=
        if (0 <? indentLevel st)%Z then Z.max 0 (indentLevel st - 1)
        else indentLevel st in
      res <-
        (if isMultiLine st && type_is_not ty_paren_open prevToken then
           ind <- addIndent lvl ;; Ok (result_ st ++ [ch_nl] ++ ind)
         else Ok (result_ st)) ;;
      let ml := if (lvl =? 0)%Z then false else isMultiLine st in
      Ok (mkState (res ++ value token) lvl ml)
  | ty_comma =>
      let res := result_ st ++ value token in
      if defined_and (fun t => negb (is_type ty_paren_close t)) nextToken then
        ind <- addIndent (indentLevel st) ;;
        Ok (mkState (res ++ [ch_nl] ++ ind) (indentLevel st) (isMultiLine st))
      else Ok (mkState res (indentLevel st) (isMultiLine st))
  | ty_operator =>
      let res :=
        if defined_and (fun t => negb (is_type ty_paren_open t)
                                 && negb (is_type ty_comma t)
                                 && negb (is_type ty_operator t)) prevToken
        then
          let lastChar := last_char (result_ st) in
          if char_is_not ch_space lastChar && char_is_not ch_nl lastChar
             && char_is_not ch_tab lastChar
          then result_ st ++ [ch_space] else result_ st
        else result_ st in
      let res := res ++ value token in
      let res :=
        if defined_and (fun t => negb (is_type ty_paren_close t)
                                 && negb (is_type ty_comma t)
                                 && negb (is_type ty_operator t)) nextToken
        then res ++ [ch_space] else res in
      Ok (mkState res (indentLevel st) (isMultiLine st))
  | ty_function =>
      Ok (mkState (result_ st ++ value token) (indentLevel st) (isMultiLine st))
  | ty_field | ty_string | ty_number | ty_unknown =>
      Ok (mkState (result_ st ++ value token) (indentLevel st) (isMultiLine st))
  | ty_whitespace => Ok st      (* no case of the switch *)
  end.

(** [while (i < tokens.length) { ...; i++ }] *)
Fixpoint emit_loop (fuel : nat) (tokens : list Token) (i : nat) (st : State)
  : result State :=
  if i <? length tokens then
    match fuel with
    | O => Err OutOfFuel
    | S fuel' =>
        st' <- emit_step tokens i st ;;
        emit_loop fuel' tokens (i + 1) st'
    end
  else Ok st.

Definition initial_state : State := mkState [] 0%Z false.

(** The text assembled from the tokens, before the cleanup. *)
Definition assemble (tokens : list Token) : result jsstring :=
  st <- emit_loop (length tokens) tokens 0 initial_state ;;
  Ok (result_ st).

(** *** The cleanup pass: the regular expressions, as they match *)

(** [result.split('\n')] *)
Fixpoint split_lines (l : jsstring) : list jsstring :=
  match l with
  | [] => [[]]
  | c :: l' =>
      if (c =? ch_nl)%N then [] :: split_lines l'
      else match split_lines l' with
           | line :: lines => (c :: line) :: lines
           | [] => [[c]]
           end
  end.

(** [lines.join('\n')] *)
Fixpoint join_lines (lines : list jsstring) : jsstring :=
  match lines with
  | [] => []
  | [line] => line
  | line :: lines' => line ++ ch_nl :: join_lines lines'
  end.

(** [line.replace(/[ ]+$/, '')]: the leftmost position from which only
    spaces follow, up to the end, is where the one match starts. *)
Fixpoint strip_trailing_spaces (l : jsstring) : jsstring :=
  match l with
  | [] => []
  | c :: l' =>
      if (c =? ch_space)%N && forallb (fun d => (d =? ch_space)%N) l' then []
      else c :: strip_trailing_spaces l'
  end.

(** Backtracking of the greedy [\s{2,}] in [/([^ \t])\s{2,}([^ \t])/]: with
    [k] code units of white space taken from [l], the next one must be
    outside [[ \t]]; otherwise one code unit is given back, down to two. *)
Fixpoint collapse_backtrack (k : nat) (l : jsstring) : option (nat * char) :=
  match k with
  | O => None
  | S k' =>
      if k <? 2 then None
      else match nth_error l k with
           | Some c2 =>
               if is_space_or_tab c2 then collapse_backtrack k' l
               else Some (k, c2)
           | None => collapse_backtrack k' l
           end
  end.

(** [/([^ \t])\s{2,}([^ \t])/] tried at the head of [l]: the two captured
    code units and the length of the match. *)
Definition collapse_match (l : jsstring) : option (char * char * nat) :=
  match l with
  | [] => None
  | c1 :: l' =>
      if is_space_or_tab c1 then None
      else
        match collapse_backtrack (length (fst (span is_space l'))) l' with
        | Some (k, c2) => Some (c1, c2, k + 2)
        | None => None
        end
  end.

(** [cleaned.replace(/([^ \t])\s{2,}([^ \t])/g, '$1 $2')]: matches are
    looked for from left to right, the search resuming after each match;
    [skip] counts the code units of the last match still to pass. *)
Fixpoint collapse_spaces_from (skip : nat) (l : jsstring) : jsstring :=
  match l with
  | [] => []
  | c :: l' =>
      match skip with
      | S n => collapse_spaces_from n l'
      | O =>
          match collapse_match l with
          | Some (c1, c2, len) =>
              c1 :: ch_space :: c2 :: collapse_spaces_from (len - 1) l'
          | None => c :: collapse_spaces_from 0 l'
          end
      end
  end.

Definition collapse_spaces (l : jsstring) : jsstring :=
  collapse_spaces_from 0 l.

(** The callback of [lines.map]. *)
Definition clean_line (line : jsstring) : jsstring :=
  collapse_spaces (strip_trailing_spaces line).

(** Backtracking of the greedy [\s*] in [/\n\s*\n+/]: with [k] code units
    of white space taken from [l], the next one must be a newline. *)
Fixpoint blank_backtrack (k : nat) (l : jsstring) : option nat :=
  if starts_with ch_nl (skipn k l) then Some k
  else match k with
       | O => None
       | S k' => blank_backtrack k' l
       end.

(** [/\n\s*\n+/] tried at the head of [l]: the length of the match. *)
Definition blank_match (l : jsstring) : option nat :=
  match l with
  | [] => None
  | c :: l' =>
      if (c =? ch_nl)%N then
        match blank_backtrack (length (fst (span is_space l'))) l' with
        | Some k =>
            Some (1 + k
                  + length (fst (span (fun d => (d =? ch_nl)%N) (skipn k l'))))
        | None => None
        end
      else None
  end.

(** [.replace(/\n\s*\n+/g, '\n')] *)
Fixpoint collapse_blank_lines_from (skip : nat) (l : jsstring) : jsstring :=
  match l with
  | [] => []
  | c :: l' =>
      match skip with
      | S n => collapse_blank_lines_from n l'
      | O =>
          match blank_match l with
          | Some len => ch_nl :: collapse_blank_lines_from (len - 1) l'
          | None => c :: collapse_blank_lines_from 0 l'
          end
      end
  end.

Definition collapse_blank_lines (l : jsstring) : jsstring :=
  collapse_blank_lines_from 0 l.

(** The match of [\s+$]: the leftmost position from which only white space
    follows, up to the end. *)
Fixpoint strip_trailing_ws (l : jsstring) : jsstring :=
  match l with
  | [] => []
  | c :: l' =>
      if is_space c && forallb is_space l' then []
      else c :: strip_trailing_ws l'
  end.

(** [.replace(/^\s+|\s+$/g, '')]: [^\s+] matches the leading white space,
    [\s+$] the trailing white space of what is left. *)
Definition trim_ends (l : jsstring) : jsstring :=
  strip_trailing_ws (dropWhile is_space l).

(** [String.prototype.trim] *)
Definition trim (l : jsstring) : jsstring :=
  rev (dropWhile is_space (rev (dropWhile is_space l))).

Definition cleanup (res : jsstring) : jsstring :=
  let lines := split_lines res in
  let cleanedLines := map clean_line lines in
  trim_ends (collapse_blank_lines (join_lines cleanedLines)).

(** *** [formatAirtableFormula] *)

Definition is_empty (s : jsstring) : bool :=
  match s with
  | [] => true
  | _ => false
  end.

Definition formatAirtableFormula (formula : jsstring) : result jsstring :=
  if is_empty (trim formula) then Ok []
  else
    tokens <- tokenize formula ;;
    if length tokens =? 0 then Ok formula
    else
      res <- assemble tokens ;;
      Ok (cleanup res).

(** *** The look-ahead of the open-paren rule, in the specification's words

    Look ahead over the token stream from just after the paren, tracking the
    nesting depth (one at the start), and count the commas that occur at
    depth one, until the depth returns to zero.  [l] is the token stream
    after the paren. *)
Fixpoint top_level_commas (depth : nat) (l : list Token) : nat :=
  match depth, l with
  | O, _ => 0
  | _, [] => 0
  | S d, t :: l' =>
      match type t with
      | ty_paren_open => top_level_commas (S (S d)) l'
      | ty_paren_close => top_level_commas d l'
      | ty_comma => (if d =? 0 then 1 else 0) + top_level_commas (S d) l'
      | _ => top_level_commas (S d) l'
      end
  end.

(** The kind and the text of a token, without its span. *)
Definition kind_text (t : Token) : TokenType * jsstring := (type t, value t).

(** What the emission pass sees of a formula: the kinds and texts of its
    tokens, in order. *)
Definition token_kinds (formula : jsstring)
  : result (list (TokenType * jsstring)) :=
  tokens <- tokenize formula ;;
  Ok (map kind_text tokens).

(** The printed formula is lexed into the tokens of the formula itself. *)
Definition relexes_alike (formula : jsstring) : Prop :=
  exists r, formatAirtableFormula formula = Ok r
            /\ token_kinds r = token_kinds formula.

(** *** Formulas that are printed to a fixed point

    The conditions under which printing is shown to be idempotent: the
    literals are closed and the cleanup finds nothing to rewrite in them,
    and no token would be lexed differently with the text of the next token
    directly behind it. *)

Definition opt_test (p : char -> bool) (o : option char) : bool :=
  match o with
  | Some c => p c
  | None => false
  end.

Definition is_lparen (c : char) : bool := (c =? ch_lparen)%N.

(** The text of [t] is lexed as [t] again when the code unit [next] (or the
    end of the input) comes behind it. *)
Definition follows_ok (t : Token) (next : option char) : bool :=
  match type t, value t with
  | ty_function, _ => opt_test is_lparen next
  | ty_number, d :: _ =>
      if is_digit d then negb (opt_test is_number_char next)
      else negb (opt_test is_ident_char next) && negb (opt_test is_lparen next)
  | ty_unknown, c :: _ =>
      if is_ident_start c
      then negb (opt_test is_ident_char next) && negb (opt_test is_lparen next)
      else true
  | ty_operator, [c] =>
      if is_cmp_op c then negb (opt_test (fun d => (d =? ch_eq)%N) next)
      else true
  | _, _ => true
  end.

(** The first code unit of the token behind, if any. *)
Definition next_head (rest : list Token) : option char :=
  match rest with
  | t2 :: _ => hd_error (value t2)
  | [] => None
  end.

(** Every token of the sequence is lexed again as it is with the text of
    the next token directly behind it. *)
Fixpoint no_fusion (toks : list Token) : bool :=
  match toks with
  | [] => true
  | t1 :: rest => follows_ok t1 (next_head rest) && no_fusion rest
  end.

(** As [follows_ok], with nothing asked behind a function name: [tokenize]
    makes a function token in front of an opening parenthesis only. *)
Definition stays_apart (t : Token) (next : option char) : bool :=
  match type t with
  | ty_function => true
  | _ => follows_ok t next
  end.

(** No token of the sequence fuses with the one behind it. *)
Fixpoint apart (toks : list Token) : bool :=
  match toks with
  | [] => true
  | t1 :: rest => stays_apart t1 (next_head rest) && apart rest
  end.

(** Every function token of the sequence is followed by a token that
    starts with an opening parenthesis. *)
Fixpoint functions_called (toks : list Token) : bool :=
  match toks with
  | [] => true
  | t1 :: rest =>
      (if is_type ty_function t1 then opt_test is_lparen (next_head rest)
       else true)
      && functions_called rest
  end.

(** No line feed and no two white-space code units in a row. *)
Fixpoint clean_text (v : jsstring) : bool :=
  match v with
  | [] => true
  | a :: v' =>
      negb (a =? ch_nl)%N
      && negb (is_space a && opt_test is_space (hd_error v'))
      && clean_text v'
  end.

(** The body of a string literal ends with its closing quote. *)
Fixpoint string_closed (quote : char) (escaped : bool) (l : jsstring) : bool :=
  match l with
  | [] => false
  | c :: l' =>
      if escaped then string_closed quote false l'
      else if (c =? ch_backslash)%N then string_closed quote true l'
      else if (c =? quote)%N then is_empty l'
      else string_closed quote false l'
  end.

(** The body of a field reference ends with its closing brace. *)
Fixpoint field_closed (l : jsstring) : bool :=
  match l with
  | [] => false
  | c :: l' => if (c =? ch_rbrace)%N then is_empty l' else field_closed l'
  end.

Definition literal_ok (t : Token) : bool :=
  match type t, value t with
  | ty_field, c :: v => (c =? ch_lbrace)%N && field_closed v && clean_text v
  | ty_string, c :: v => is_quote c && string_closed c false v && clean_text v
  | ty_field, [] | ty_string, [] => false
  | _, _ => true
  end.

Definition stable_tokens (toks : list Token) : bool :=
  forallb literal_ok toks && apart toks.

Definition stable_formula (formula : jsstring) : bool :=
  match tokenize formula with
  | Ok toks => stable_tokens toks
  | Err _ => false
  end.

(** A code unit that starts none of the token kinds and is not white space. *)
Definition is_other (c : char) : bool :=
  negb (is_space c) && negb (c =? ch_lbrace)%N && negb (is_quote c)
  && negb (is_digit c) && negb (is_arith_op c) && negb (is_cmp_op c)
  && negb (c =? ch_lparen)%N && negb (c =? ch_rparen)%N
  && negb (c =? ch_comma)%N && negb (is_ident_start c).

(** The texts that [tokenize] gives to the tokens of each kind. *)
Definition lexed (t : Token) : bool :=
  match value t with
  | [] => false
  | c :: v =>
      match type t with
      | ty_field => (c =? ch_lbrace)%N
      | ty_string => is_quote c
      | ty_number =>
          (is_digit c && forallb is_number_char v) || is_boolean (c :: v)
      | ty_operator =>
          (is_arith_op c && is_empty v)
          || (is_cmp_op c && (is_empty v || jsstring_eqb v [ch_eq]))
      | ty_comma => (c =? ch_comma)%N && is_empty v
      | ty_paren_open => (c =? ch_lparen)%N && is_empty v
      | ty_paren_close => (c =? ch_rparen)%N && is_empty v
      | ty_function =>
          is_ident_start c && forallb is_ident_char v
          && jsstring_eqb (toUpperCase (c :: v)) (c :: v)
      | ty_unknown =>
          (is_ident_start c && forallb is_ident_char v
           && negb (is_boolean (toUpperCase (c :: v))))
          || (is_other c && is_empty v)
      | ty_whitespace => false
      end
  end.

(** Where the printed text stands, as far as the cleanup is concerned: at
    its start, behind a code unit that is not white space, behind one
    white-space code unit, or behind a line feed and the tabs of an indent. *)
Inductive layout_state : Type :=
| at_start | after_text | after_space | after_newline.

Definition layout_step (q : layout_state) (c : char) : option layout_state :=
  if is_space c then
    match q with
    | after_text =>
        if (c =? ch_nl)%N then Some after_newline else Some after_space
    | after_newline => if (c =? ch_tab)%N then Some after_newline else None
    | at_start | after_space => None
    end
  else Some after_text.

Fixpoint layout_run (q : layout_state) (x : jsstring) : option layout_state :=
  match x with
  | [] => Some q
  | c :: x' =>
      match layout_step q c with
      | Some q' => layout_run q' x'
      | None => None
      end
  end.

Definition no_newline (l : jsstring) : bool :=
  forallb (fun c => negb (c =? ch_nl)%N) l.


(** A line of accepted text, entered in the state [q]. *)
Definition line_ok (q : layout_state) (l : jsstring) : Prop :=
  layout_run q l = Some after_text /\ no_newline l = true.

(** The printed text ends with a space, a line feed or a tab: the test of
    the operator case on [lastChar], negated. *)
Definition blank_end (r : jsstring) : bool :=
  negb (char_is_not ch_space (last_char r)
        && char_is_not ch_nl (last_char r)
        && char_is_not ch_tab (last_char r)).

(** What the text printed so far asks of the text that comes behind it:
    nothing behind white space, and behind the text of token [i - 1] that
    the token does not fuse with it. *)
Definition pending (toks : list Token) (i : nat) (q : layout_state)
    (next : option char) : bool :=
  match q with
  | after_text =>
      match nth_error toks (i - 1) with
      | Some t => follows_ok t next
      | None => true
      end
  | _ => true
  end.

(** The state of the emission loop before token [i]: the text printed so
    far is accepted and is lexed into the tokens before [i]. *)
Definition emit_inv (toks : list Token) (i : nat) (st : State) : Prop :=
  (0 <= indentLevel st)%Z
  /\ exists q,
      layout_run at_start (result_ st) = Some q
      /\ (q = at_start -> i = 0 /\ result_ st = [] /\ isMultiLine st = false)
      /\ (q = after_text -> 0 < i)
      /\ (q = after_space \/ q = after_newline ->
          blank_end (result_ st) = true
          /\ exists t, nth_error toks i = Some t /\ type t <> ty_paren_close)
      /\ (forall tail,
            pending toks i q (hd_error tail) = true ->
            token_kinds (result_ st ++ tail)
            = (ks <- token_kinds tail ;;
               Ok (map kind_text (firstn i toks) ++ ks))).

End Formatter.

(** ** Notions used to state further properties of the lexers and of the
    printed text *)

(** The code units of [s] from the index [a] up to the index [b]. *)
Definition slice (s : jsstring) (a b : nat) : jsstring :=
  firstn (b - a) (skipn a s).

(** What [tokenize] records of a token: its span is not empty and lies in
    the formula, and its text is the text of the span, upper-cased for a
    function name and for a Boolean literal. *)
Definition span_ok (formula : jsstring) (t : Formatter.Token) : Prop :=
  Formatter.start t < Formatter.end_ t /\ Formatter.end_ t <= length formula
  /\ length (Formatter.value t) = Formatter.end_ t - Formatter.start t
  /\ toUpperCase (Formatter.value t)
     = toUpperCase (slice formula (Formatter.start t) (Formatter.end_ t))
  /\ (Formatter.type t <> Formatter.ty_function -> is_boolean (Formatter.value t) = false ->
      Formatter.value t = slice formula (Formatter.start t) (Formatter.end_ t)).

(** From the cursor [pos] on, the spans of the tokens come in the order of
    the source without overlap, and only white space lies before, between
    and behind them. *)
Fixpoint gaps_blank (s : jsstring) (pos : nat) (toks : list Formatter.Token)
  : Prop :=
  match toks with
  | [] => forallb is_space (skipn pos s) = true
  | t :: toks' =>
      pos <= Formatter.start t
      /\ forallb is_space (slice s pos (Formatter.start t)) = true
      /\ gaps_blank s (Formatter.end_ t) toks'
  end.

(** The kind under which the display lexer shows what the layout lexer
    calls [ty]: parentheses and commas are punctuation, and what is unknown
    is plain text. *)
Definition display_kind (ty : Formatter.TokenType)
  : Highlighter.HighlightType :=
  match ty with
  | Formatter.ty_function => Highlighter.hl_function
  | Formatter.ty_field => Highlighter.hl_field
  | Formatter.ty_string => Highlighter.hl_string
  | Formatter.ty_number => Highlighter.hl_number
  | Formatter.ty_operator => Highlighter.hl_operator
  | Formatter.ty_comma | Formatter.ty_paren_open | Formatter.ty_paren_close =>
      Highlighter.hl_punctuation
  | Formatter.ty_whitespace | Formatter.ty_unknown => Highlighter.hl_text
  end.

Definition to_display (t : Formatter.Token) : Highlighter.HighlightedToken :=
  Highlighter.mkHl (Formatter.value t) (display_kind (Formatter.type t)).

Definition is_newline (c : char) : bool := (c =? ch_nl)%N.

(** No line feed of [x] is followed, after white space only, by another
    line feed: [x] has no empty line and no line of white space only. *)
Fixpoint no_blank_line (x : jsstring) : bool :=
  match x with
  | [] => true
  | c :: x' =>
      negb (is_newline c && existsb is_newline (fst (span is_space x')))
      && no_blank_line x'
  end.

(** The texts that [highlightAirtableFormula] gives to the tokens of each
    kind. *)
Definition shown (t : Highlighter.HighlightedToken) : bool :=
  match Highlighter.text t with
  | [] => false
  | c :: v =>
      match Highlighter.type t with
      | Highlighter.hl_field => (c =? ch_lbrace)%N
      | Highlighter.hl_string => is_quote c
      | Highlighter.hl_number =>
          (is_digit c && forallb is_number_char v) || is_boolean (c :: v)
      | Highlighter.hl_operator =>
          (is_arith_op c && Formatter.is_empty v)
          || (is_cmp_op c
              && (Formatter.is_empty v || jsstring_eqb v [ch_eq]))
      | Highlighter.hl_punctuation =>
          ((c =? ch_lparen)%N || (c =? ch_rparen)%N || (c =? ch_comma)%N)
          && Formatter.is_empty v
      | Highlighter.hl_function =>
          is_ident_start c && forallb is_ident_char v
          && jsstring_eqb (toUpperCase (c :: v)) (c :: v)
      | Highlighter.hl_text =>
          (is_ident_start c && forallb is_ident_char v
           && negb (is_boolean (toUpperCase (c :: v))))
          || (is_space c && forallb is_space v)
          || (Formatter.is_other c && Formatter.is_empty v)
      end
  end.

(** The multi-line flag is set exactly when the indent level is positive,
    and the indent level is not negative. *)
Definition flag_tracks_indent (st : Formatter.State) : Prop :=
  (0 <= Formatter.indentLevel st)%Z
  /\ Formatter.isMultiLine st = (0 <? Formatter.indentLevel st)%Z.

(** No line of [x] ends with a space: no space stands in front of a line
    feed or at the end of [x]. *)
Fixpoint no_trailing_space (x : jsstring) : bool :=
  match x with
  | [] => true
  | c :: x' =>
      negb ((c =? ch_space)%N
            && (Formatter.is_empty x' || starts_with ch_nl x'))
      && no_trailing_space x'
  end.

(** ** The page ([Page]), as far as it computes text from text *)

Module Page.

(** The value the debounced effect passes to [setFormatted] for the text
    [input] of the input box. *)
Definition debounced_formatted (input : jsstring) : result jsstring :=
  if negb (Formatter.is_empty (Formatter.trim input))
  then Formatter.formatAirtableFormula input
  else Ok [].

(** [formattedLines]: one entry for each row of the line-number column. *)
Definition formattedLines (formatted : jsstring) : list jsstring :=
  if Formatter.is_empty formatted then []
  else Formatter.split_lines formatted.

(** [highlightedTokens]: one entry for each [span] of the code column. *)
Definition highlightedTokens (formatted : jsstring)
  : result (list Highlighter.HighlightedToken) :=
  if Formatter.is_empty formatted then Ok []
  else Highlighter.highlightAirtableFormula formatted.

End Page.

(** The number of line feeds of [x]. *)
Definition count_newlines (x : jsstring) : nat :=
  length (filter is_newline x).

(** What the emission pass puts between two tokens: nothing, one space, or
    a line feed followed by tabs. *)
Definition is_separator (g : jsstring) : bool :=
  match g with
  | [] => true
  | c :: g' =>
      ((c =? ch_space)%N && Formatter.is_empty g')
      || ((c =? ch_nl)%N && forallb (fun d => (d =? ch_tab)%N) g')
  end.

(** The texts [vals] one after the other, with the gap [gaps[k]] between
    the texts [k] and [k + 1]. *)
Fixpoint weave (vals gaps : list jsstring) : jsstring :=
  match vals with
  | [] => []
  | v :: vals' =>
      match vals', gaps with
      | [], _ => v
      | _ :: _, g :: gaps' => v ++ g ++ weave vals' gaps'
      | _ :: _, [] => v ++ weave vals' []
      end
  end.

(** * Properties *)

(** ** Tactics for the character classes *)

Ltac class_prop H :=
  unfold is_number_char, is_space, is_digit, is_ident_start, is_ident_char,
    is_arith_op, is_cmp_op, is_quote, is_space_or_tab, in_range,
    ch_tab, ch_nl, ch_space, ch_dquote, ch_squote, ch_lparen, ch_rparen,
    ch_comma, ch_dot, ch_eq, ch_backslash, ch_lbrace, ch_rbrace in H;
  repeat rewrite ?orb_true_iff, ?andb_true_iff, ?N.leb_le, ?N.eqb_eq in H.

Ltac class_false :=
  let H := fresh "H" in
  apply not_true_iff_false; intros H; class_prop H.

(** ** Scanning helpers: what is consumed and what is left *)

Lemma span_app (p : char -> bool) (l : jsstring) :
  fst (span p l) ++ snd (span p l) = l.
Proof.
  induction l as [|c l IH]; simpl; [reflexivity|].
  destruct (p c); simpl; [|reflexivity].
  destruct (span p l) as [a b]; simpl in *. now rewrite IH.
Qed.

Lemma span_fst_forallb (p : char -> bool) (l : jsstring) :
  forallb p (fst (span p l)) = true.
Proof.
  induction l as [|c l IH]; simpl; [reflexivity|].
  destruct (p c) eqn:E; simpl; [|reflexivity].
  destruct (span p l) as [a b]; simpl in *. now rewrite E, IH.
Qed.

Lemma span_snd_dropWhile (p : char -> bool) (l : jsstring) :
  snd (span p l) = dropWhile p l.
Proof.
  induction l as [|c l IH]; simpl; [reflexivity|].
  destruct (p c); simpl; [|reflexivity].
  destruct (span p l) as [a b]; simpl in *. exact IH.
Qed.

Lemma span_snd_head (p : char -> bool) (l : jsstring) (c : char) (r : jsstring) :
  snd (span p l) = c :: r -> p c = false.
Proof.
  induction l as [|d l IH]; simpl; [discriminate|].
  destruct (p d) eqn:E; simpl.
  - destruct (span p l) as [a b]; simpl in *. exact IH.
  - intros H. injection H as -> _. exact E.
Qed.

Lemma span_all (p : char -> bool) (a b : jsstring) :
  forallb p a = true -> starts_with_not p b ->
  span p (a ++ b) = (a, b).
Proof.
  intros Ha Hb. induction a as [|c a IH]; simpl in *.
  - destruct b as [|d b]; simpl in *; [reflexivity|]. now rewrite Hb.
  - apply andb_true_iff in Ha as [Hc Ha]. rewrite Hc, (IH Ha). reflexivity.
Qed.

Lemma dropWhile_app (p : char -> bool) (l : jsstring) :
  exists ws, l = ws ++ dropWhile p l /\ forallb p ws = true.
Proof.
  exists (fst (span p l)). split.
  - rewrite <- span_snd_dropWhile. symmetry. apply span_app.
  - apply span_fst_forallb.
Qed.

Lemma scan_string_app (q : char) (e : bool) (l : jsstring) :
  fst (scan_string q e l) ++ snd (scan_string q e l) = l.
Proof.
  revert e. induction l as [|c l IH]; intros e; simpl; [reflexivity|].
  destruct e.
  - specialize (IH false). destruct (scan_string q false l); simpl in *.
    now rewrite IH.
  - destruct (c =? ch_backslash)%N.
    + specialize (IH true). destruct (scan_string q true l); simpl in *.
      now rewrite IH.
    + destruct (c =? q)%N; simpl; [reflexivity|].
      specialize (IH false). destruct (scan_string q false l); simpl in *.
      now rewrite IH.
Qed.

Lemma scan_field_app (l : jsstring) :
  fst (scan_field l) ++ snd (scan_field l) = l.
Proof.
  unfold scan_field.
  pose proof (span_app (fun c => negb (c =? ch_rbrace)%N) l) as H.
  destruct (span _ l) as [body r]; simpl in *.
  destruct r as [|c r]; simpl.
  - now rewrite app_nil_r in *.
  - now rewrite <- app_assoc.
Qed.

Lemma scan_cmp_app (l : jsstring) :
  fst (scan_cmp l) ++ snd (scan_cmp l) = l.
Proof.
  destruct l as [|c l]; simpl; [reflexivity|].
  destruct (c =? ch_eq)%N; reflexivity.
Qed.

(** ** Upper-casing *)

Lemma upper_char_idem (c : char) : upper_char (upper_char c) = upper_char c.
Proof.
  unfold upper_char, in_range.
  destruct ((97 <=? c)%N && (c <=? 122)%N) eqn:E; [|now rewrite E].
  apply andb_true_iff in E as [E1 E2].
  apply N.leb_le in E1. apply N.leb_le in E2.
  replace ((97 <=? c - 32)%N) with false; [reflexivity|].
  symmetry. apply N.leb_gt. lia.
Qed.

Lemma toUpperCase_idem (s : jsstring) : toUpperCase (toUpperCase s) = toUpperCase s.
Proof.
  unfold toUpperCase. rewrite map_map. apply map_ext. intros. apply upper_char_idem.
Qed.

Lemma toUpperCase_app (a b : jsstring) :
  toUpperCase (a ++ b) = toUpperCase a ++ toUpperCase b.
Proof. apply map_app. Qed.

Lemma toUpperCase_length (s : jsstring) : length (toUpperCase s) = length s.
Proof. apply length_map. Qed.

(** ** The display lexer: one iteration *)

Import Highlighter.

(** An iteration that starts at [c :: rest] pushes a token whose text is,
    up to the case of letters, the stretch [c :: v] it scanned, and leaves
    the cursor after that stretch and after the white space [skipped]. *)
Lemma highlight_step_consumes (c : char) (rest : jsstring) :
  exists v skipped,
    rest = v ++ skipped ++ snd (highlight_step c rest)
    /\ toUpperCase (text (fst (highlight_step c rest))) = toUpperCase (c :: v)
    /\ forallb is_space skipped = true.
Proof.
  unfold highlight_step.
  destruct (c =? ch_lbrace)%N.
  { pose proof (scan_field_app rest). destruct (scan_field rest) as [v r].
    exists v, []. simpl in *. auto. }
  destruct (is_quote c).
  { pose proof (scan_string_app c false rest).
    destruct (scan_string c false rest) as [v r].
    exists v, []. simpl in *. auto. }
  destruct (is_digit c).
  { pose proof (span_app is_number_char rest).
    destruct (span is_number_char rest) as [v r].
    exists v, []. simpl in *. auto. }
  destruct (is_arith_op c).
  { exists [], []. simpl. auto. }
  destruct (is_cmp_op c).
  { pose proof (scan_cmp_app rest). destruct (scan_cmp rest) as [v r].
    exists v, []. simpl in *. auto. }
  destruct ((c =? ch_lparen)%N || (c =? ch_rparen)%N || (c =? ch_comma)%N).
  { exists [], []. simpl. auto. }
  destruct (is_ident_start c).
  { pose proof (span_app is_ident_char rest) as Hv.
    destruct (span is_ident_char rest) as [v r]. simpl in Hv.
    destruct (dropWhile_app is_space r) as (ws & Hws & Hsp).
    destruct (starts_with ch_lparen (dropWhile is_space r)).
    - exists v, []. simpl. rewrite Hv. repeat split; auto.
      exact (toUpperCase_idem (c :: v)).
    - destruct (is_boolean _); exists v, ws; simpl;
        rewrite <- Hws, Hv; repeat split; auto.
      exact (toUpperCase_idem (c :: v)). }
  destruct (is_space c).
  { pose proof (span_app is_space rest).
    destruct (span is_space rest) as [v r].
    exists v, []. simpl in *. auto. }
  exists [], []. simpl. auto.
Qed.

Lemma highlight_step_shrinks (c : char) (rest : jsstring) :
  length (snd (highlight_step c rest)) <= length rest.
Proof.
  destruct (highlight_step_consumes c rest) as (v & sk & H & _).
  rewrite H at 2. rewrite !length_app. lia.
Qed.

(** ** The display lexer: the loop *)

(** With fuel for every code unit the loop finishes, and the equation of
    the loop holds: one token, then the tokens of the rest. *)
Lemma highlight_loop_total (fuel : nat) (s : jsstring) :
  length s <= fuel -> exists toks, highlight_loop fuel s = Ok toks.
Proof.
  revert s. induction fuel as [|fuel IH]; intros s Hlen.
  - destruct s; simpl in *; [eauto | lia].
  - destruct s as [|c rest]; simpl in *; [eauto|].
    pose proof (highlight_step_shrinks c rest) as Hs.
    destruct (highlight_step c rest) as [t r]. simpl in Hs.
    destruct (IH r) as [toks Ht]; [lia|]. rewrite Ht. simpl. eauto.
Qed.

Lemma highlight_loop_fuel (fuel fuel' : nat) (s : jsstring) :
  length s <= fuel -> length s <= fuel' ->
  highlight_loop fuel s = highlight_loop fuel' s.
Proof.
  revert fuel' s. induction fuel as [|fuel IH]; intros fuel' s H1 H2.
  - destruct s; simpl in *; [now destruct fuel' | lia].
  - destruct s as [|c rest]; simpl in *; [now destruct fuel'|].
    destruct fuel' as [|fuel']; [lia|]. simpl.
    pose proof (highlight_step_shrinks c rest) as Hs.
    destruct (highlight_step c rest) as [t r]. simpl in Hs.
    rewrite (IH fuel' r); [reflexivity | lia | lia].
Qed.

Lemma highlight_unfold (c : char) (rest : jsstring) :
  highlightAirtableFormula (c :: rest) =
  (toks <- highlightAirtableFormula (snd (highlight_step c rest)) ;;
   Ok (fst (highlight_step c rest) :: toks)).
Proof.
  unfold highlightAirtableFormula. simpl.
  pose proof (highlight_step_shrinks c rest) as Hs.
  destruct (highlight_step c rest) as [t r]. simpl in *.
  rewrite (highlight_loop_fuel (fuel:=length rest) (fuel':=length r)); auto.
Qed.

Lemma highlight_total (s : jsstring) :
  exists toks, highlightAirtableFormula s = Ok toks.
Proof. apply highlight_loop_total. lia. Qed.

(** Induction along the iterations of the display lexer. *)
Lemma highlight_ind (P : jsstring -> list HighlightedToken -> Prop) :
  P [] [] ->
  (forall c rest toks,
      highlightAirtableFormula (snd (highlight_step c rest)) = Ok toks ->
      P (snd (highlight_step c rest)) toks ->
      P (c :: rest) (fst (highlight_step c rest) :: toks)) ->
  forall s toks, highlightAirtableFormula s = Ok toks -> P s toks.
Proof.
  intros Hnil Hcons s.
  remember (length s) as n eqn:Hn.
  assert (Hle : length s <= n) by lia. clear Hn.
  revert s Hle. induction n as [|n IH]; intros s Hle toks Hrun.
  - destruct s; simpl in *; [|lia].
    injection Hrun as <-. exact Hnil.
  - destruct s as [|c rest].
    + injection Hrun as <-. exact Hnil.
    + rewrite highlight_unfold in Hrun.
      pose proof (highlight_step_shrinks c rest) as Hs.
      destruct (highlightAirtableFormula (snd (highlight_step c rest)))
        as [toks'|e] eqn:E; simpl in Hrun; [|discriminate].
      injection Hrun as <-.
      apply Hcons; [exact E|]. apply IH; [simpl in Hle; lia | exact E].
Qed.

Lemma upper_char_space (c : char) : is_space (upper_char c) = is_space c.
Proof.
  unfold upper_char. destruct (in_range 97 122 c) eqn:E; [|reflexivity].
  unfold in_range in E. apply andb_true_iff in E as [E1 E2].
  apply N.leb_le in E1, E2.
  assert (H1 : is_space c = false) by (class_false; lia).
  assert (H2 : is_space (c - 32)%N = false) by (class_false; lia).
  now rewrite H1, H2.
Qed.

Lemma visible_app (a b : jsstring) : visible (a ++ b) = visible a ++ visible b.
Proof. apply filter_app. Qed.

Lemma visible_blank (ws : jsstring) :
  forallb is_space ws = true -> visible (toUpperCase ws) = [].
Proof.
  induction ws as [|c ws IH]; simpl; [reflexivity|].
  intros H. apply andb_true_iff in H as [Hc Hws].
  now rewrite upper_char_space, Hc, IH.
Qed.

Lemma highlight_concat_bound (s : jsstring) (toks : list HighlightedToken) :
  highlightAirtableFormula s = Ok toks ->
  length (concat_text toks) <= length s
  /\ visible (toUpperCase (concat_text toks)) = visible (toUpperCase s)
  /\ (length (concat_text toks) = length s ->
      toUpperCase (concat_text toks) = toUpperCase s).
Proof.
  revert s toks. apply highlight_ind.
  - simpl. auto.
  - intros c rest toks _ (IHle & IHvis & IHeq).
    destruct (highlight_step_consumes c rest) as (v & sk & Hrest & Hup & Hsk).
    destruct (highlight_step c rest) as [t r]. simpl in *.
    unfold concat_text in *. simpl.
    assert (Hlen : length (text t) = S (length v)).
    { rewrite <- (toUpperCase_length (text t)), Hup.
      simpl. now rewrite toUpperCase_length. }
    rewrite length_app, Hlen.
    assert (Hr : length rest = length v + length sk + length r).
    { rewrite Hrest at 1. rewrite !length_app. lia. }
    split; [lia|]. split.
    + rewrite toUpperCase_app, visible_app, Hup, IHvis, Hrest.
      change (upper_char c :: toUpperCase (v ++ sk ++ r))
        with (toUpperCase ((c :: v) ++ sk ++ r)).
      rewrite !toUpperCase_app, !visible_app, (visible_blank sk Hsk).
      simpl. unfold visible at 1. simpl.
      destruct (negb (is_space (upper_char c))); reflexivity.
    + intros Heq.
      assert (sk = []) by (destruct sk; simpl in *; [reflexivity | lia]).
      subst sk. simpl in Hrest.
      rewrite toUpperCase_app, Hup, IHeq by lia.
      rewrite Hrest. simpl. now rewrite toUpperCase_app.
Qed.




(** ** The layout lexer: one iteration, and the loop *)

Import Formatter.

(** Unfolds one iteration of [tokenize] into its branches. *)
Ltac tokenize_step_cases c rest :=
  unfold tokenize_step;
  destruct (is_space c) eqn:Hspace;
  [| destruct (c =? ch_lbrace)%N eqn:Hlbrace;
     [pose proof (scan_field_app rest) as Hscan;
      destruct (scan_field rest) as [v r]
     | destruct (is_quote c) eqn:Hquote;
       [pose proof (scan_string_app c false rest) as Hscan;
        destruct (scan_string c false rest) as [v r]
       | destruct (is_digit c) eqn:Hdigit;
         [pose proof (span_app is_number_char rest) as Hscan;
          destruct (span is_number_char rest) as [v r]
         | destruct (is_arith_op c) eqn:Harith;
           [| destruct (is_cmp_op c) eqn:Hcmp;
              [pose proof (scan_cmp_app rest) as Hscan;
               destruct (scan_cmp rest) as [v r]
              | destruct (c =? ch_lparen)%N eqn:Hlparen;
                [| destruct (c =? ch_rparen)%N eqn:Hrparen;
                   [| destruct (c =? ch_comma)%N eqn:Hcomma;
                      [| destruct (is_ident_start c) eqn:Hident;
                         [pose proof (span_app is_ident_char rest) as Hscan;
                          pose proof (span_snd_head is_ident_char rest) as Hstop;
                          destruct (span is_ident_char rest) as [v r];
                          destruct (starts_with ch_lparen r) eqn:Hcall;
                          [| destruct (is_boolean (toUpperCase (c :: v)))
                               eqn:Hbool]
                         |]]]]]]]]]];
  simpl in *.

(** An iteration moves the cursor over the stretch [c :: v] it scanned. *)
Lemma tokenize_step_consumes (i : nat) (c : char) (rest : jsstring) :
  exists v,
    rest = v ++ snd (tokenize_step i c rest)
    /\ snd (fst (tokenize_step i c rest)) = i + 1 + length v.
Proof.
  tokenize_step_cases c rest;
    try (exists v; split; [now symmetry | reflexivity]);
    exists []; split; simpl; auto; lia.
Qed.

Lemma tokenize_step_shrinks (i : nat) (c : char) (rest : jsstring) :
  length (snd (tokenize_step i c rest)) <= length rest.
Proof.
  destruct (tokenize_step_consumes i c rest) as (v & H & _).
  rewrite H at 2. rewrite length_app. lia.
Qed.

(** Only white space is passed over without a token. *)
Lemma tokenize_step_skips (i : nat) (c : char) (rest : jsstring) :
  fst (fst (tokenize_step i c rest)) = None ->
  is_space c = true /\ snd (tokenize_step i c rest) = rest.
Proof.
  tokenize_step_cases c rest; intros H; try discriminate. auto.
Qed.

(** With fuel for every code unit the loop of [tokenize] finishes. *)
Lemma tokenize_loop_total (fuel i : nat) (s : jsstring) :
  length s <= fuel -> exists toks, tokenize_loop fuel i s = Ok toks.
Proof.
  revert i s. induction fuel as [|fuel IH]; intros i s Hlen.
  - destruct s; simpl in *; [eauto | lia].
  - destruct s as [|c rest]; simpl in *; [eauto|].
    pose proof (tokenize_step_shrinks i c rest) as Hs.
    destruct (tokenize_step i c rest) as [[t i'] r]. simpl in Hs.
    destruct (IH i' r) as [toks Ht]; [lia|]. rewrite Ht. simpl. eauto.
Qed.

Lemma tokenize_total (s : jsstring) : exists toks, tokenize s = Ok toks.
Proof. apply tokenize_loop_total. lia. Qed.

(** Induction along the iterations of a run of [tokenize] that finished. *)
Lemma tokenize_loop_ind (P : nat -> jsstring -> list Token -> Prop) :
  (forall i, P i [] []) ->
  (forall i c rest toks,
      P (snd (fst (tokenize_step i c rest))) (snd (tokenize_step i c rest)) toks ->
      P i (c :: rest) (push toks (fst (fst (tokenize_step i c rest))))) ->
  forall fuel i s toks, tokenize_loop fuel i s = Ok toks -> P i s toks.
Proof.
  intros Hnil Hcons. induction fuel as [|fuel IH]; intros i s toks Hrun.
  - destruct s; simpl in Hrun; [|discriminate].
    injection Hrun as <-. apply Hnil.
  - destruct s as [|c rest]; simpl in Hrun.
    + injection Hrun as <-. apply Hnil.
    + specialize (Hcons i c rest).
      destruct (tokenize_step i c rest) as [[t i'] r]. simpl in *.
      destruct (tokenize_loop fuel i' r) as [toks'|e] eqn:E;
        simpl in Hrun; [|discriminate].
      injection Hrun as <-. apply Hcons. now apply IH with (1 := E).
Qed.

(** A property of every token an iteration can push holds of every token
    of the result. *)
Lemma tokenize_Forall (Q : Token -> Prop) :
  (forall i c rest t, fst (fst (tokenize_step i c rest)) = Some t -> Q t) ->
  forall s toks, tokenize s = Ok toks -> Forall Q toks.
Proof.
  intros Hstep s toks. unfold tokenize.
  apply (tokenize_loop_ind (fun _ _ toks => Forall Q toks)).
  - constructor.
  - intros i c rest toks' IH.
    destruct (fst (fst (tokenize_step i c rest))) as [t|] eqn:E; simpl; auto.
    constructor; eauto.
Qed.

(** ** The emission pass never fails *)

Lemma get_in_range (tokens : list Token) (i : nat) :
  i < length tokens -> exists t, nth_error tokens i = Some t /\ get tokens i = Ok t.
Proof.
  intros H. unfold get.
  destruct (nth_error tokens i) as [t|] eqn:E; [eauto|].
  apply nth_error_None in E. lia.
Qed.

Lemma skipn_nth_error (A : Type) (l : list A) (j : nat) (t : A) :
  nth_error l j = Some t -> skipn j l = t :: skipn (S j) l.
Proof.
  revert j. induction l as [|a l IH]; intros [|j] H; simpl in *; try discriminate.
  - now injection H as ->.
  - now apply IH.
Qed.

Lemma addIndent_nonneg (n : Z) :
  (0 <= n)%Z -> addIndent n = Ok (concat (repeat indentChar (Z.to_nat n))).
Proof.
  intros H. unfold addIndent, js_repeat.
  destruct (n <? 0)%Z eqn:E; [apply Z.ltb_lt in E; lia | reflexivity].
Qed.

Lemma top_level_commas_0 (l : list Token) : top_level_commas 0 l = 0.
Proof. now destruct l. Qed.

(** The look-ahead loop of [countParameters] finishes without an error and
    computes the number of top-level commas of the specification. *)
Lemma countParameters_loop_spec (fuel : nat) (tokens : list Token)
    (d j pc : nat) :
  length tokens <= fuel + j ->
  countParameters_loop fuel tokens (Z.of_nat d) j pc
  = Ok (pc + top_level_commas d (skipn j tokens)).
Proof.
  revert d j pc. induction fuel as [|fuel IH]; intros d j pc Hfuel.
  - cbn [countParameters_loop].
    replace (j <? length tokens) with false
      by (symmetry; apply Nat.ltb_ge; lia).
    cbn [andb]. rewrite skipn_all2 by lia.
    f_equal. destruct d; simpl; lia.
  - cbn [countParameters_loop].
    destruct (j <? length tokens) eqn:Hj; cbn [andb].
    2:{ apply Nat.ltb_ge in Hj. rewrite skipn_all2 by lia.
        f_equal. destruct d; simpl; lia. }
    apply Nat.ltb_lt in Hj.
    destruct d as [|d].
    { cbn. rewrite top_level_commas_0. f_equal. lia. }
    replace (0 <? Z.of_nat (S d))%Z with true
      by (symmetry; apply Z.ltb_lt; lia).
    destruct (get_in_range tokens Hj) as (t & Hnth & Hget).
    rewrite Hget. cbn [bind]. rewrite (skipn_nth_error _ _ Hnth).
    replace (j + 1) with (S j) by lia.
    unfold is_type. cbn [top_level_commas].
    assert (Hone : forall n, (Z.of_nat n =? 1)%Z = (n =? 1)).
    { intros n. destruct (n =? 1) eqn:E.
      - apply Nat.eqb_eq in E. now subst.
      - apply Nat.eqb_neq in E. apply Z.eqb_neq. lia. }
    destruct (type t) eqn:Hty; cbn [TokenType_eqb andb].
    all: try (rewrite ?andb_false_r; rewrite IH by lia; reflexivity).
    + (* comma *)
      rewrite Hone, andb_true_r.
      destruct d as [|d]; cbn [Nat.eqb]; rewrite IH by lia; f_equal; lia.
    + (* paren-open *)
      replace (Z.of_nat (S d) + 1)%Z with (Z.of_nat (S (S d))) by lia.
      rewrite andb_false_r, IH by lia. reflexivity.
    + (* paren-close *)
      replace (Z.of_nat (S d) - 1)%Z with (Z.of_nat d) by lia.
      rewrite andb_false_r, IH by lia. reflexivity.
Qed.

Lemma countParameters_spec (tokens : list Token) (i : nat) :
  countParameters tokens i = Ok (top_level_commas 1 (skipn (i + 1) tokens)).
Proof.
  unfold countParameters.
  change 1%Z with (Z.of_nat 1).
  rewrite countParameters_loop_spec by lia. reflexivity.
Qed.

(** One iteration of the emission loop, at an index in range and with a
    non-negative indent level, returns a state whose indent level is
    non-negative again. *)
Lemma emit_step_ok (tokens : list Token) (i : nat) (st : State) :
  i < length tokens -> (0 <= indentLevel st)%Z ->
  exists st', emit_step tokens i st = Ok st' /\ (0 <= indentLevel st')%Z.
Proof.
  intros Hi Hlvl. unfold emit_step.
  destruct (get_in_range tokens Hi) as (t & _ & ->). cbn [bind].
  destruct (type t).
  - eexists; split; [reflexivity | exact Hlvl].
  - eexists; split; [reflexivity | exact Hlvl].
  - eexists; split; [reflexivity | exact Hlvl].
  - eexists; split; [reflexivity | exact Hlvl].
  - eexists; split; [reflexivity | exact Hlvl].
  - (* comma *)
    destruct (defined_and _ _).
    + rewrite (addIndent_nonneg Hlvl). eexists; split; [reflexivity | exact Hlvl].
    + eexists; split; [reflexivity | exact Hlvl].
  - (* paren-open *)
    unfold shouldBreakAfterParenOpen. rewrite countParameters_spec. cbn [bind].
    destruct (0 <? _).
    + rewrite addIndent_nonneg by lia.
      eexists; split; [reflexivity | simpl; lia].
    + eexists; split; [reflexivity | exact Hlvl].
  - (* paren-close *)
    set (lvl := if (0 <? indentLevel st)%Z then Z.max 0 (indentLevel st - 1)
                else indentLevel st).
    assert (Hl : (0 <= lvl)%Z) by (subst lvl; destruct (0 <? _)%Z; lia).
    destruct (isMultiLine st && _).
    + rewrite (addIndent_nonneg Hl). eexists; split; [reflexivity | exact Hl].
    + eexists; split; [reflexivity | exact Hl].
  - eexists; split; [reflexivity | exact Hlvl].
  - eexists; split; [reflexivity | exact Hlvl].
Qed.

Lemma emit_loop_ok (fuel : nat) (tokens : list Token) (i : nat) (st : State) :
  length tokens <= fuel + i -> (0 <= indentLevel st)%Z ->
  exists st', emit_loop fuel tokens i st = Ok st'.
Proof.
  revert i st. induction fuel as [|fuel IH]; intros i st Hfuel Hlvl.
  - simpl. replace (i <? length tokens) with false
      by (symmetry; apply Nat.ltb_ge; lia). eauto.
  - cbn [emit_loop]. destruct (i <? length tokens) eqn:Hi; [|eauto].
    apply Nat.ltb_lt in Hi.
    destruct (emit_step_ok tokens st Hi Hlvl) as (st' & -> & Hlvl').
    cbn [bind]. apply IH; [lia | exact Hlvl'].
Qed.

Lemma assemble_ok (tokens : list Token) : exists res, assemble tokens = Ok res.
Proof.
  unfold assemble.
  destruct (@emit_loop_ok (length tokens) tokens 0 initial_state) as [st ->];
    [lia | simpl; lia |].
  cbn [bind]. eauto.
Qed.

Lemma format_total (s : jsstring) : exists r, formatAirtableFormula s = Ok r.
Proof.
  unfold formatAirtableFormula.
  destruct (is_empty (trim s)); [eauto|].
  destruct (tokenize_total s) as [toks ->]. cbn [bind].
  destruct (length toks =? 0); [eauto|].
  destruct (assemble_ok toks) as [res ->]. cbn [bind]. eauto.
Qed.

(** ** Character classes *)

Lemma ident_start_classes (c : char) :
  is_ident_start c = true ->
  is_space c = false /\ (c =? ch_lbrace)%N = false /\ is_quote c = false
  /\ is_digit c = false /\ is_arith_op c = false /\ is_cmp_op c = false
  /\ (c =? ch_lparen)%N = false /\ (c =? ch_rparen)%N = false
  /\ (c =? ch_comma)%N = false /\ is_ident_char c = true.
Proof.
  intros Hc. class_prop Hc.
  repeat split; try (class_false; lia).
  unfold is_ident_char, in_range.
  repeat rewrite ?orb_true_iff, ?andb_true_iff, ?N.leb_le, ?N.eqb_eq. lia.
Qed.

Lemma space_not_ident_char (c : char) :
  is_space c = true -> is_ident_char c = false.
Proof. intros Hc. class_prop Hc. class_false. lia. Qed.

Lemma dropWhile_nil_iff (p : char -> bool) (l : jsstring) :
  dropWhile p l = [] <-> forallb p l = true.
Proof.
  induction l as [|c l IH]; simpl; [tauto|].
  destruct (p c); simpl; [exact IH|]. split; discriminate.
Qed.

Lemma dropWhile_skip (p : char -> bool) (ws r : jsstring) :
  forallb p ws = true -> dropWhile p (ws ++ r) = dropWhile p r.
Proof.
  induction ws as [|c ws IH]; simpl; [reflexivity|].
  intros H. apply andb_true_iff in H as [-> H]. auto.
Qed.

(** [!formula.trim()] holds exactly of the inputs made of white space. *)
Lemma trim_empty_iff_blank (s : jsstring) :
  is_empty (trim s) = forallb is_space s.
Proof.
  unfold trim.
  destruct (forallb is_space s) eqn:E.
  - apply dropWhile_nil_iff in E. now rewrite E.
  - destruct (dropWhile is_space s) as [|c l] eqn:D.
    + apply dropWhile_nil_iff in D. congruence.
    + assert (Hc : is_space c = false).
      { rewrite <- span_snd_dropWhile in D. eapply span_snd_head; eauto. }
      destruct (dropWhile is_space (rev (c :: l))) as [|d l'] eqn:D'.
      * apply dropWhile_nil_iff in D'. rewrite forallb_forall in D'.
        specialize (D' c). rewrite <- in_rev in D'.
        rewrite D' in Hc by (left; reflexivity). discriminate.
      * destruct (rev (d :: l')) eqn:R; [|reflexivity].
        apply (f_equal (@length _)) in R. rewrite length_rev in R. discriminate.
Qed.

(** A run of [tokenize] on an input with a code unit that is not white
    space returns at least one token. *)
Lemma tokenize_nonempty (s : jsstring) (toks : list Token) :
  tokenize s = Ok toks ->
  forallb is_space s = false -> toks <> [].
Proof.
  unfold tokenize.
  apply (tokenize_loop_ind
           (fun _ s toks => forallb is_space s = false -> toks <> [])).
  - intros _ H. discriminate.
  - intros i c rest toks' IH Hns.
    destruct (fst (fst (tokenize_step i c rest))) as [t|] eqn:E; simpl.
    + discriminate.
    + apply tokenize_step_skips in E as [Hc Hr].
      rewrite Hr in IH. apply IH. simpl in Hns. now rewrite Hc in Hns.
Qed.

(** ** The pretty-printer on concrete formulas *)

(** C3.  [formatAirtableFormula] returns a string on every input: no loop
    of [tokenize] or of the emission pass runs on, no token is read out of
    range and the indent level never goes negative.  On the formula
    CONCATENATE( followed by a double quote and abc) the last token of the
    lexer is the unterminated string that runs from the quote to the end of
    the input, and the formula is returned as it is. *)
Theorem format_never_fails :
  (forall s : jsstring, exists r, formatAirtableFormula s = Ok r)
  /\ tokenize (str "CONCATENATE(" ++ [ch_dquote] ++ str "abc)")
     = Ok [mkToken ty_function (str "CONCATENATE") 0 11;
           mkToken ty_paren_open (str "(") 11 12;
           mkToken ty_string (ch_dquote :: str "abc)") 12 17]
  /\ formatAirtableFormula (str "CONCATENATE(" ++ [ch_dquote] ++ str "abc)")
     = Ok (str "CONCATENATE(" ++ [ch_dquote] ++ str "abc)").
Proof.
  split; [exact format_total|].
  split; vm_compute; reflexivity.
Qed.

(** C5.  The formula if({Status}=<Active>,1,0), where <Active> is the
    string literal Active in double quotes, is printed with the function
    name in upper case, one argument per line behind one tab, one space on each
    side of [=], and the closing parenthesis on a line of its own. *)
Theorem format_if_example :
  formatAirtableFormula
    (str "if({Status}=" ++ [ch_dquote] ++ str "Active" ++ [ch_dquote]
     ++ str ",1,0)")
  = Ok (str "IF(" ++ [ch_nl; ch_tab]
        ++ str "{Status} = " ++ [ch_dquote] ++ str "Active" ++ [ch_dquote]
        ++ str "," ++ [ch_nl; ch_tab]
        ++ str "1," ++ [ch_nl; ch_tab]
        ++ str "0" ++ [ch_nl]
        ++ str ")").
Proof. vm_compute. reflexivity. Qed.

Lemma format_blank (s : jsstring) :
  forallb is_space s = true -> formatAirtableFormula s = Ok [].
Proof.
  intros Hs. unfold formatAirtableFormula.
  now rewrite trim_empty_iff_blank, Hs.
Qed.

(** C9.  The empty formula and every formula made of white space only are
    printed as the empty string, and the display lexer returns no token on
    the empty formula. *)
Theorem format_blank_highlight_empty :
  formatAirtableFormula [] = Ok []
  /\ formatAirtableFormula (str "   ") = Ok []
  /\ (forall s : jsstring,
        forallb is_space s = true -> formatAirtableFormula s = Ok [])
  /\ highlightAirtableFormula [] = Ok [].
Proof.
  repeat split; try reflexivity. exact format_blank.
Qed.

Lemma format_blank_highlight_empty_witness :
  formatAirtableFormula [ch_space; ch_tab; ch_nl; 160%N] = Ok [].
Proof.
  apply (proj1 (proj2 (proj2 format_blank_highlight_empty))).
  reflexivity.
Defined.

(** C10.  On a formula with a code unit that is not white space [tokenize]
    returns at least one token, so the test [tokens.length === 0] of
    [formatAirtableFormula] is false whenever it is reached, and the result
    is the cleaned-up text assembled from the tokens; on any other formula
    the result is the empty string. *)
Theorem raw_formula_branch_unreachable (s : jsstring) :
  (forallb is_space s = false ->
   exists t toks res,
     tokenize s = Ok (t :: toks)
     /\ (length (t :: toks) =? 0) = false
     /\ assemble (t :: toks) = Ok res
     /\ formatAirtableFormula s = Ok (cleanup res))
  /\ (forallb is_space s = true -> formatAirtableFormula s = Ok []).
Proof.
  split.
  - intros Hs.
    destruct (tokenize_total s) as [toks Htok].
    pose proof (tokenize_nonempty s Htok Hs) as Hne.
    destruct toks as [|t toks]; [congruence|].
    destruct (assemble_ok (t :: toks)) as [res Hres].
    exists t, toks, res. repeat split; auto.
    unfold formatAirtableFormula.
    rewrite trim_empty_iff_blank, Hs, Htok. cbn [bind length Nat.eqb].
    now rewrite Hres.
  - apply format_blank.
Qed.

Lemma raw_formula_branch_unreachable_witness :
  exists t toks res,
    tokenize (str " a+1 ") = Ok (t :: toks)
    /\ (length (t :: toks) =? 0) = false
    /\ assemble (t :: toks) = Ok res
    /\ formatAirtableFormula (str " a+1 ") = Ok (cleanup res).
Proof.
  apply (proj1 (raw_formula_branch_unreachable (str " a+1 "))).
  reflexivity.
Defined.

(** ** The open-paren rule *)

Lemma concat_repeat_indentChar (n : nat) :
  concat (repeat indentChar n) = repeat ch_tab n.
Proof. induction n; simpl; congruence. Qed.


(** ** Formulas without a comma are printed on one line *)



Lemma no_newline_app (a b : jsstring) :
  no_newline (a ++ b) = no_newline a && no_newline b.
Proof. apply forallb_app. Qed.




Lemma strip_trailing_spaces_flat (x : jsstring) :
  no_newline x = true -> no_newline (strip_trailing_spaces x) = true.
Proof.
  induction x as [|c x IH]; [reflexivity|]. cbn [no_newline forallb].
  intros H. apply andb_true_iff in H as [Hc Hx]. simpl.
  destruct (_ && _); [reflexivity|]. cbn [no_newline forallb].
  rewrite Hc. now apply IH.
Qed.



Lemma collapse_backtrack_in (k : nat) (l : jsstring) (k' : nat) (c2 : char) :
  collapse_backtrack k l = Some (k', c2) -> In c2 l.
Proof.
  induction k as [|k IH]; cbn [collapse_backtrack]; [discriminate|].
  destruct (S k <? 2); [discriminate|].
  destruct (nth_error l (S k)) as [d|] eqn:E; [|exact IH].
  destruct (is_space_or_tab d); [exact IH|].
  intros H. injection H as _ <-. eapply nth_error_In; eauto.
Qed.

Lemma collapse_spaces_flat (k : nat) (x : jsstring) :
  no_newline x = true -> no_newline (collapse_spaces_from k x) = true.
Proof.
  revert k. induction x as [|c x IH]; intros k H; [reflexivity|].
  pose proof H as Hall. cbn [no_newline forallb] in H.
  apply andb_true_iff in H as [Hc Hx].
  cbn [collapse_spaces_from]. destruct k as [|k]; [|now apply IH].
  destruct (collapse_match (c :: x)) as [[[c1 c2] len]|] eqn:E.
  - unfold collapse_match in E. destruct (is_space_or_tab c); [discriminate|].
    destruct (collapse_backtrack _ x) as [[k' d]|] eqn:Eb; [|discriminate].
    injection E as <- <- <-.
    apply collapse_backtrack_in in Eb.
    unfold no_newline in Hx. rewrite forallb_forall in Hx.
    cbn [no_newline forallb]. rewrite Hc, (Hx _ Eb). simpl.
    apply IH. now apply forallb_forall.
  - cbn [no_newline forallb]. rewrite Hc. now apply IH.
Qed.









(** ** Function detection *)

Lemma skipn_head_nth_error (A : Type) (l : list A) (n : nat) (x : A) (r : list A) :
  skipn n l = x :: r -> nth_error l n = Some x.
Proof.
  revert l. induction n as [|n IH]; intros [|a l] H; simpl in *; try discriminate.
  - now injection H as -> _.
  - now apply IH.
Qed.

Lemma skipn_past (A : Type) (l : list A) (i : nat) (a b : list A) :
  skipn i l = a ++ b -> skipn (i + length a) l = b.
Proof.
  intros H. rewrite Nat.add_comm, <- skipn_skipn, H.
  now rewrite skipn_app, skipn_all, Nat.sub_diag.
Qed.

Lemma tokenize_step_function (i : nat) (c : char) (rest : jsstring) (t : Token) :
  fst (fst (tokenize_step i c rest)) = Some t ->
  Formatter.type t = ty_function ->
  end_ t = snd (fst (tokenize_step i c rest))
  /\ starts_with ch_lparen (snd (tokenize_step i c rest)) = true.
Proof.
  tokenize_step_cases c rest; intros H Hty; inversion H; subst; simpl in *;
    try discriminate.
  auto.
Qed.

Lemma starts_with_cons (c : char) (l : jsstring) :
  starts_with c l = true -> exists r, l = c :: r.
Proof.
  destruct l as [|d l]; simpl; [discriminate|].
  intros H. apply N.eqb_eq in H. subst. eauto.
Qed.

(** In a run of [tokenize], the code unit at the end of a function token is
    the opening parenthesis. *)
Lemma tokenize_function_adjacent (s : jsstring) (toks : list Token) (t : Token) :
  tokenize s = Ok toks -> In t toks -> Formatter.type t = ty_function ->
  nth_error s (end_ t) = Some ch_lparen.
Proof.
  intros Hrun. revert t.
  assert (H : forall formula, skipn 0 formula = s ->
              forall t, In t toks -> Formatter.type t = ty_function ->
                        nth_error formula (end_ t) = Some ch_lparen);
    [|now apply H].
  revert Hrun. unfold tokenize.
  apply (tokenize_loop_ind
           (fun i s toks =>
              forall formula, skipn i formula = s ->
              forall t, In t toks -> Formatter.type t = ty_function ->
                        nth_error formula (end_ t) = Some ch_lparen)).
  - intros i formula _ t [].
  - intros i c rest toks' IH formula Hcur t Hin Hty.
    destruct (tokenize_step_consumes i c rest) as (v & Hrest & Hi').
    assert (Hnext : skipn (snd (fst (tokenize_step i c rest))) formula
                    = snd (tokenize_step i c rest)).
    { rewrite Hi'. replace (i + 1 + length v) with (i + length (c :: v))
        by (simpl; lia).
      apply skipn_past. rewrite Hcur. simpl. now rewrite <- Hrest. }
    destruct (fst (fst (tokenize_step i c rest))) as [t0|] eqn:E; simpl in Hin.
    + destruct Hin as [<-|Hin]; [|eapply IH; eauto].
      destruct (tokenize_step_function i c rest E Hty) as [Hend Hpar].
      apply starts_with_cons in Hpar as [r Hr].
      rewrite Hend. eapply skipn_head_nth_error. rewrite Hnext. exact Hr.
    + eapply IH; eauto.
Qed.

Lemma highlight_step_call (c : char) (v ws rest : jsstring) :
  is_ident_start c = true ->
  forallb is_ident_char v = true ->
  forallb is_space ws = true ->
  highlight_step c (v ++ ws ++ ch_lparen :: rest)
  = (mkHl (toUpperCase (c :: v)) hl_function, ws ++ ch_lparen :: rest).
Proof.
  intros Hc Hv Hws.
  destruct (ident_start_classes c Hc)
    as (_ & H1 & H2 & H3 & H4 & H5 & H6 & H7 & H8 & _).
  unfold highlight_step. rewrite H1, H2, H3, H4, H5, H6, H7, H8, Hc.
  cbn [orb].
  rewrite span_all; [|exact Hv|].
  - rewrite dropWhile_skip by exact Hws. simpl. reflexivity.
  - destruct ws as [|d ws]; simpl; [reflexivity|].
    simpl in Hws. apply andb_true_iff in Hws as [Hd _].
    now apply space_not_ident_char.
Qed.

Lemma tokenize_step_call (i : nat) (c : char) (v rest : jsstring) :
  is_ident_start c = true ->
  forallb is_ident_char v = true ->
  tokenize_step i c (v ++ ch_lparen :: rest)
  = (Some (mkToken ty_function (toUpperCase (c :: v)) i (i + 1 + length v)),
     i + 1 + length v, ch_lparen :: rest).
Proof.
  intros Hc Hv.
  destruct (ident_start_classes c Hc)
    as (H0 & H1 & H2 & H3 & H4 & H5 & H6 & H7 & H8 & _).
  unfold tokenize_step. rewrite H0, H1, H2, H3, H4, H5, H6, H7, H8, Hc.
  rewrite span_all; [reflexivity | exact Hv | reflexivity].
Qed.

(** C4.  In the layout lexer an identifier directly in front of an opening
    parenthesis is a function, and a function token ends exactly where an
    opening parenthesis stands, so [SUM (x)] is lexed as the identifier
    [SUM] and a separate open-paren.  In the display lexer an identifier
    followed by white space and an opening parenthesis is a function, and
    the white space is left for the next token. *)
Theorem function_detection_adjacent_or_tolerant :
  (forall (s : jsstring) (toks : list Token) (t : Token),
      tokenize s = Ok toks -> In t toks -> Formatter.type t = ty_function ->
      nth_error s (end_ t) = Some ch_lparen)
  /\ (forall (i : nat) (c : char) (v rest : jsstring),
        is_ident_start c = true ->
        forallb is_ident_char v = true ->
        tokenize_step i c (v ++ ch_lparen :: rest)
        = (Some (mkToken ty_function (toUpperCase (c :: v)) i
                   (i + 1 + length v)),
           i + 1 + length v, ch_lparen :: rest))
  /\ tokenize (str "SUM (x)")
     = Ok [mkToken ty_unknown (str "SUM") 0 3;
           mkToken ty_paren_open (str "(") 4 5;
           mkToken ty_unknown (str "x") 5 6;
           mkToken ty_paren_close (str ")") 6 7]
  /\ (forall (c : char) (v ws rest : jsstring),
        is_ident_start c = true ->
        forallb is_ident_char v = true ->
        forallb is_space ws = true ->
        highlight_step c (v ++ ws ++ ch_lparen :: rest)
        = (mkHl (toUpperCase (c :: v)) hl_function, ws ++ ch_lparen :: rest))
  /\ highlightAirtableFormula (str "SUM (x)")
     = Ok [mkHl (str "SUM") hl_function; mkHl (str " ") hl_text;
           mkHl (str "(") hl_punctuation; mkHl (str "x") hl_text;
           mkHl (str ")") hl_punctuation].
Proof.
  split; [exact tokenize_function_adjacent|].
  split; [exact tokenize_step_call|].
  split; [vm_compute; reflexivity|].
  split; [exact highlight_step_call|].
  vm_compute. reflexivity.
Qed.

Lemma function_detection_adjacent_or_tolerant_witness :
  highlight_step 115%N (str "um" ++ [ch_space; ch_nl] ++ ch_lparen :: str "x)")
  = (mkHl (str "SUM") hl_function, [ch_space; ch_nl] ++ ch_lparen :: str "x)").
Proof.
  apply (proj1 (proj2 (proj2 (proj2 function_detection_adjacent_or_tolerant)))
           115%N (str "um") [ch_space; ch_nl] (str "x)"));
    reflexivity.
Defined.

(** ** Boolean literals *)

Lemma jsstring_eqb_eq (a b : jsstring) : jsstring_eqb a b = true <-> a = b.
Proof.
  unfold jsstring_eqb. destruct (list_eq_dec N.eq_dec a b); split; auto.
  discriminate.
Qed.

Lemma is_boolean_true_iff (s : jsstring) :
  is_boolean s = true <-> s = str "TRUE" \/ s = str "FALSE".
Proof.
  unfold is_boolean. now rewrite orb_true_iff, !jsstring_eqb_eq.
Qed.

Lemma tokenize_step_boolean (i : nat) (c : char) (v r : jsstring) :
  is_ident_start c = true ->
  forallb is_ident_char v = true ->
  starts_with_not is_ident_char r ->
  starts_with ch_lparen r = false ->
  is_boolean (toUpperCase (c :: v)) = true ->
  tokenize_step i c (v ++ r)
  = (Some (mkToken ty_number (toUpperCase (c :: v)) i (i + 1 + length v)),
     i + 1 + length v, r).
Proof.
  intros Hc Hv Hr Hcall Hbool.
  destruct (ident_start_classes c Hc)
    as (H0 & H1 & H2 & H3 & H4 & H5 & H6 & H7 & H8 & _).
  unfold tokenize_step. rewrite H0, H1, H2, H3, H4, H5, H6, H7, H8, Hc.
  rewrite span_all by assumption. rewrite Hcall.
  now rewrite Hbool.
Qed.

Lemma highlight_step_boolean (c : char) (v r : jsstring) :
  is_ident_start c = true ->
  forallb is_ident_char v = true ->
  starts_with_not is_ident_char r ->
  starts_with ch_lparen (dropWhile is_space r) = false ->
  is_boolean (toUpperCase (c :: v)) = true ->
  highlight_step c (v ++ r)
  = (mkHl (toUpperCase (c :: v)) hl_number, dropWhile is_space r).
Proof.
  intros Hc Hv Hr Hcall Hbool.
  destruct (ident_start_classes c Hc)
    as (_ & H1 & H2 & H3 & H4 & H5 & H6 & H7 & H8 & _).
  unfold highlight_step. rewrite H1, H2, H3, H4, H5, H6, H7, H8, Hc.
  cbn [orb]. rewrite span_all by assumption. rewrite Hcall.
  now rewrite Hbool.
Qed.

Lemma single_not_boolean (c : char) : is_boolean (toUpperCase [c]) = false.
Proof.
  apply not_true_iff_false. intros H. apply is_boolean_true_iff in H.
  destruct H as [H|H]; apply (f_equal (@length _)) in H; discriminate.
Qed.

Lemma tokenize_unknown_not_boolean (s : jsstring) (toks : list Token) :
  tokenize s = Ok toks ->
  Forall (fun t => Formatter.type t = ty_unknown ->
                   is_boolean (toUpperCase (value t)) = false) toks.
Proof.
  apply tokenize_Forall. intros i c rest t.
  tokenize_step_cases c rest; intros H; inversion H; subst; simpl;
    try discriminate; intros _.
  - exact Hbool.
  - apply single_not_boolean.
Qed.

Lemma highlight_Forall (Q : HighlightedToken -> Prop) :
  (forall c rest, Q (fst (highlight_step c rest))) ->
  forall s toks, highlightAirtableFormula s = Ok toks -> Forall Q toks.
Proof.
  intros Hstep. apply (highlight_ind (fun _ toks => Forall Q toks)).
  - constructor.
  - intros c rest toks _ IH. constructor; auto.
Qed.

Lemma space_run_not_boolean (c : char) (v : jsstring) :
  is_space c = true -> is_boolean (toUpperCase (c :: v)) = false.
Proof.
  intros Hc. apply not_true_iff_false. intros H.
  apply is_boolean_true_iff in H.
  assert (Hu : upper_char c = c).
  { unfold upper_char. replace (in_range 97 122 c) with false; [reflexivity|].
    symmetry. class_prop Hc. unfold in_range. class_false. lia. }
  destruct H as [H|H]; simpl in H; rewrite Hu in H; injection H as -> _;
    discriminate.
Qed.

Lemma highlight_text_not_boolean (s : jsstring) (toks : list HighlightedToken) :
  highlightAirtableFormula s = Ok toks ->
  Forall (fun t => Highlighter.type t = hl_text ->
                   is_boolean (toUpperCase (text t)) = false) toks.
Proof.
  apply highlight_Forall. intros c rest. unfold highlight_step.
  destruct (c =? ch_lbrace)%N.
  { destruct (scan_field rest); simpl; discriminate. }
  destruct (is_quote c).
  { destruct (scan_string c false rest); simpl; discriminate. }
  destruct (is_digit c).
  { destruct (span is_number_char rest); simpl; discriminate. }
  destruct (is_arith_op c); [simpl; discriminate|].
  destruct (is_cmp_op c).
  { destruct (scan_cmp rest); simpl; discriminate. }
  destruct ((c =? ch_lparen)%N || (c =? ch_rparen)%N || (c =? ch_comma)%N);
    [simpl; discriminate|].
  destruct (is_ident_start c).
  { destruct (span is_ident_char rest) as [v r].
    destruct (starts_with ch_lparen (dropWhile is_space r));
      [simpl; discriminate|].
    destruct (is_boolean _) eqn:Hbool; [simpl; discriminate|].
    intros _. exact Hbool. }
  destruct (is_space c) eqn:Hsp.
  { destruct (span is_space rest) as [v r]. intros _.
    now apply space_run_not_boolean. }
  intros _. apply single_not_boolean.
Qed.

(** C7.  In both lexers, wherever the cursor stands, an identifier that is
    not taken for a function name and whose upper-cased text is TRUE or
    FALSE is pushed as a number token with that upper-cased text; no token
    of the plain-text kind is left whose upper-cased text is TRUE or FALSE.
    An identifier is taken for a function name when an opening parenthesis
    follows it, directly in the layout lexer, after optional white space in
    the display lexer. *)
Theorem boolean_literals_are_numbers :
  (forall (i : nat) (c : char) (v r : jsstring),
      is_ident_start c = true ->
      forallb is_ident_char v = true ->
      starts_with_not is_ident_char r ->
      starts_with ch_lparen r = false ->
      is_boolean (toUpperCase (c :: v)) = true ->
      tokenize_step i c (v ++ r)
      = (Some (mkToken ty_number (toUpperCase (c :: v)) i (i + 1 + length v)),
         i + 1 + length v, r))
  /\ (forall (c : char) (v r : jsstring),
        is_ident_start c = true ->
        forallb is_ident_char v = true ->
        starts_with_not is_ident_char r ->
        starts_with ch_lparen (dropWhile is_space r) = false ->
        is_boolean (toUpperCase (c :: v)) = true ->
        highlight_step c (v ++ r)
        = (mkHl (toUpperCase (c :: v)) hl_number, dropWhile is_space r))
  /\ (forall (s : jsstring) (toks : list Token),
        tokenize s = Ok toks ->
        Forall (fun t => Formatter.type t = ty_unknown ->
                         is_boolean (toUpperCase (value t)) = false) toks)
  /\ (forall (s : jsstring) (toks : list HighlightedToken),
        highlightAirtableFormula s = Ok toks ->
        Forall (fun t => Highlighter.type t = hl_text ->
                         is_boolean (toUpperCase (text t)) = false) toks)
  /\ tokenize (str "x = true")
     = Ok [mkToken ty_unknown (str "x") 0 1; mkToken ty_operator (str "=") 2 3;
           mkToken ty_number (str "TRUE") 4 8]
  /\ highlightAirtableFormula (str "(False)")
     = Ok [mkHl (str "(") hl_punctuation; mkHl (str "FALSE") hl_number;
           mkHl (str ")") hl_punctuation].
Proof.
  split; [exact tokenize_step_boolean|].
  split; [exact highlight_step_boolean|].
  split; [exact tokenize_unknown_not_boolean|].
  split; [exact highlight_text_not_boolean|].
  split; vm_compute; reflexivity.
Qed.

Lemma boolean_literals_are_numbers_witness :
  tokenize_step 4 116%N (str "rue" ++ str " , 1")
  = (Some (mkToken ty_number (str "TRUE") 4 8), 8, str " , 1").
Proof.
  apply (proj1 boolean_literals_are_numbers 4 116%N (str "rue") (str " , 1"));
    reflexivity.
Defined.

(** ** The cleanup pass on concrete text *)

(** C8, at inputs where the code departs from it.  In the field reference
    of the first formula two runs of two spaces share the flanking code
    unit b: the global replace resumes after b and leaves the second run as
    it is.  In the second formula the run between a and b is made of two
    tabs, and is replaced by one space all the same. *)
Theorem cleanup_collapse_defects :
  formatAirtableFormula (str "{a  b  c}") = Ok (str "{a b  c}")
  /\ formatAirtableFormula (str "{a" ++ [ch_tab; ch_tab] ++ str "b}")
     = Ok (str "{a b}").
Proof. split; vm_compute; reflexivity. Qed.

(** ** Printing a printed formula again *)

Lemma kind_text_nth (a b : list Token) (k : nat) :
  map kind_text a = map kind_text b ->
  option_map kind_text (nth_error a k) = option_map kind_text (nth_error b k).
Proof. intros H. now rewrite <- !nth_error_map, H. Qed.

Lemma kind_text_length (a b : list Token) :
  map kind_text a = map kind_text b -> length a = length b.
Proof.
  intros H. apply (f_equal (@length _)) in H. now rewrite !length_map in H.
Qed.

Lemma top_level_commas_ext (a b : list Token) (d : nat) :
  map kind_text a = map kind_text b ->
  top_level_commas d a = top_level_commas d b.
Proof.
  revert b d. induction a as [|x a IH]; intros [|y b] d H; try discriminate.
  - reflexivity.
  - simpl in H. unfold kind_text in H at 1 3. injection H as Hty _ Hab.
    destruct d as [|d]; simpl; [reflexivity|]. rewrite <- Hty.
    destruct (Formatter.type x); auto.
Qed.

Lemma defined_and_ext (p : Token -> bool) (o1 o2 : option Token) :
  option_map kind_text o1 = option_map kind_text o2 ->
  (forall t1 t2, kind_text t1 = kind_text t2 -> p t1 = p t2) ->
  defined_and p o1 = defined_and p o2.
Proof.
  intros H Hp. destruct o1 as [t1|], o2 as [t2|]; simpl in *;
    try discriminate; [|reflexivity].
  apply Hp. unfold kind_text in *. congruence.
Qed.

Lemma is_type_ext (ty : TokenType) (t1 t2 : Token) :
  kind_text t1 = kind_text t2 -> is_type ty t1 = is_type ty t2.
Proof. unfold kind_text, is_type. intros H. injection H as -> _. reflexivity. Qed.

Lemma type_is_not_ext (ty : TokenType) (o1 o2 : option Token) :
  option_map kind_text o1 = option_map kind_text o2 ->
  type_is_not ty o1 = type_is_not ty o2.
Proof.
  intros H. destruct o1 as [t1|], o2 as [t2|]; simpl in *;
    try discriminate; [|reflexivity].
  assert (Hk : kind_text t1 = kind_text t2)
    by (unfold kind_text in *; congruence).
  now rewrite (@is_type_ext ty _ _ Hk).
Qed.

(** The emission pass reads the kind and the text of the tokens only. *)
Lemma emit_step_ext (a b : list Token) (i : nat) (st : State) :
  map kind_text a = map kind_text b -> emit_step a i st = emit_step b i st.
Proof.
  intros H. unfold emit_step, get.
  pose proof (@kind_text_nth a b i H) as Hi.
  pose proof (@kind_text_nth a b (i + 1) H) as Hn.
  pose proof (@kind_text_nth a b (i - 1) H) as Hp.
  rewrite <- (@kind_text_length a b H).
  assert (Hnext : option_map kind_text
                    (if i + 1 <? length a then nth_error a (i + 1) else None)
                  = option_map kind_text
                      (if i + 1 <? length a then nth_error b (i + 1) else None))
    by (destruct (i + 1 <? length a); auto).
  assert (Hprev : option_map kind_text
                    (if 0 <? i then nth_error a (i - 1) else None)
                  = option_map kind_text
                      (if 0 <? i then nth_error b (i - 1) else None))
    by (destruct (0 <? i); auto).
  destruct (nth_error a i) as [ta|], (nth_error b i) as [tb|];
    simpl in Hi; try discriminate; [|reflexivity].
  injection Hi as Hty Hval. cbn [bind]. rewrite <- Hty, <- Hval.
  destruct (Formatter.type ta); try reflexivity.
  - (* operator *)
    rewrite (@defined_and_ext _ _ _ Hprev), (@defined_and_ext _ _ _ Hnext);
      [reflexivity | |];
      intros t1 t2 Ht;
      now rewrite ?(@is_type_ext ty_paren_open _ _ Ht),
        ?(@is_type_ext ty_paren_close _ _ Ht),
        ?(@is_type_ext ty_comma _ _ Ht), ?(@is_type_ext ty_operator _ _ Ht).
  - (* comma *)
    rewrite (@defined_and_ext _ _ _ Hnext); [reflexivity|].
    intros t1 t2 Ht. now rewrite (@is_type_ext ty_paren_close _ _ Ht).
  - (* paren-open *)
    unfold shouldBreakAfterParenOpen. rewrite !countParameters_spec.
    rewrite (top_level_commas_ext (skipn (i + 1) a) (skipn (i + 1) b));
      [reflexivity|].
    now rewrite <- !skipn_map, H.
  - (* paren-close *)
    now rewrite (@type_is_not_ext ty_paren_open _ _ Hprev).
Qed.

Lemma emit_loop_ext (fuel : nat) (a b : list Token) (i : nat) (st : State) :
  map kind_text a = map kind_text b ->
  emit_loop fuel a i st = emit_loop fuel b i st.
Proof.
  intros H. revert i st. induction fuel as [|fuel IH]; intros i st; simpl;
    rewrite <- (@kind_text_length a b H); [reflexivity|].
  destruct (i <? length a); [|reflexivity].
  rewrite (@emit_step_ext a b i st H).
  destruct (emit_step b i st); simpl; auto.
Qed.

Lemma assemble_ext (a b : list Token) :
  map kind_text a = map kind_text b -> assemble a = assemble b.
Proof.
  intros H. unfold assemble.
  now rewrite (@kind_text_length a b H), (@emit_loop_ext _ a b _ _ H).
Qed.

Lemma tokenize_blank (s : jsstring) :
  forallb is_space s = true -> tokenize s = Ok [].
Proof.
  unfold tokenize. generalize 0 as i. generalize (Nat.le_refl (length s)).
  generalize (length s) at 2 3 as fuel. intros fuel. revert s.
  induction fuel as [|fuel IH]; intros s Hlen i Hs.
  - destruct s; simpl in *; [reflexivity | lia].
  - destruct s as [|c rest]; simpl in *; [reflexivity|].
    apply andb_true_iff in Hs as [Hc Hrest].
    unfold tokenize_step. rewrite Hc. rewrite IH; [reflexivity | lia | exact Hrest].
Qed.

(** A formula whose printed text is lexed into the same kinds and texts of
    tokens as the formula itself is printed to a fixed point. *)
Lemma format_fixed_point_when_relexed_alike (s : jsstring) :
  relexes_alike s ->
  exists r, formatAirtableFormula s = Ok r /\ formatAirtableFormula r = Ok r.
Proof.
  intros (r & Hfmt & Hkinds). exists r. split; [exact Hfmt|].
  unfold token_kinds in Hkinds.
  destruct (tokenize_total s) as [toks Htok].
  destruct (tokenize_total r) as [toks' Htok'].
  rewrite Htok, Htok' in Hkinds. cbn [bind] in Hkinds.
  injection Hkinds as Hkinds.
  destruct (forallb is_space s) eqn:Hs.
  - (* blank formula *)
    pose proof (format_blank s Hs) as H0.
    rewrite Hfmt in H0. injection H0 as ->. reflexivity.
  - pose proof (tokenize_nonempty s Htok Hs) as Hne.
    assert (Hne' : toks' <> []).
    { intros ->. destruct toks; [congruence | discriminate]. }
    assert (Hr : forallb is_space r = false).
    { destruct (forallb is_space r) eqn:E; [|reflexivity].
      rewrite (tokenize_blank r E) in Htok'. congruence. }
    unfold formatAirtableFormula in Hfmt |- *.
    rewrite trim_empty_iff_blank, Hs, Htok in Hfmt.
    rewrite trim_empty_iff_blank, Hr, Htok'. cbn [bind] in Hfmt |- *.
    destruct toks as [|t toks]; [congruence|].
    destruct toks' as [|t' toks']; [congruence|].
    cbn [length Nat.eqb] in Hfmt |- *.
    rewrite (assemble_ext (t' :: toks') (t :: toks) Hkinds). exact Hfmt.
Qed.


(** ** Printing a formula whose tokens stay apart *)

(** *** The texts of the tokens of [tokenize] *)

Lemma upper_char_ident_start (c : char) :
  is_ident_start c = true -> is_ident_start (upper_char c) = true.
Proof.
  intros H. class_prop H. unfold upper_char, in_range.
  destruct ((97 <=? c)%N && (c <=? 122)%N) eqn:E.
  - apply andb_true_iff in E as [E1 E2]. apply N.leb_le in E1, E2.
    unfold is_ident_start, in_range.
    repeat rewrite ?orb_true_iff, ?andb_true_iff, ?N.leb_le, ?N.eqb_eq. lia.
  - unfold is_ident_start, in_range.
    repeat rewrite ?orb_true_iff, ?andb_true_iff, ?N.leb_le, ?N.eqb_eq. lia.
Qed.

Lemma upper_char_ident_char (c : char) :
  is_ident_char c = true -> is_ident_char (upper_char c) = true.
Proof.
  intros H. class_prop H. unfold upper_char, in_range.
  destruct ((97 <=? c)%N && (c <=? 122)%N) eqn:E.
  - apply andb_true_iff in E as [E1 E2]. apply N.leb_le in E1, E2.
    unfold is_ident_char, in_range.
    repeat rewrite ?orb_true_iff, ?andb_true_iff, ?N.leb_le, ?N.eqb_eq. lia.
  - unfold is_ident_char, in_range.
    repeat rewrite ?orb_true_iff, ?andb_true_iff, ?N.leb_le, ?N.eqb_eq. lia.
Qed.

Lemma toUpperCase_ident_chars (v : jsstring) :
  forallb is_ident_char v = true -> forallb is_ident_char (toUpperCase v) = true.
Proof.
  induction v as [|c v IH]; simpl; [reflexivity|].
  intros H. apply andb_true_iff in H as [Hc Hv].
  now rewrite (upper_char_ident_char c Hc), IH.
Qed.

Lemma scan_cmp_cases (l : jsstring) :
  fst (scan_cmp l) = [] \/ fst (scan_cmp l) = [ch_eq].
Proof.
  destruct l as [|c l]; simpl; [now left|].
  destruct (c =? ch_eq)%N eqn:E; simpl; [right | now left].
  apply N.eqb_eq in E. now subst.
Qed.

Lemma jsstring_eqb_refl (a : jsstring) : jsstring_eqb a a = true.
Proof. now apply jsstring_eqb_eq. Qed.

(** One iteration of [tokenize], branch by branch, with what the scanners
    say about the text they return. *)
Ltac tokenize_step_facts c rest :=
  unfold tokenize_step;
  destruct (is_space c) eqn:Hspace;
  [| destruct (c =? ch_lbrace)%N eqn:Hlbrace;
     [destruct (scan_field rest) as [v r]
     | destruct (is_quote c) eqn:Hquote;
       [destruct (scan_string c false rest) as [v r]
       | destruct (is_digit c) eqn:Hdigit;
         [pose proof (span_fst_forallb is_number_char rest) as Hall;
          destruct (span is_number_char rest) as [v r]
         | destruct (is_arith_op c) eqn:Harith;
           [| destruct (is_cmp_op c) eqn:Hcmp;
              [pose proof (scan_cmp_cases rest) as Hall;
               destruct (scan_cmp rest) as [v r]
              | destruct (c =? ch_lparen)%N eqn:Hlparen;
                [| destruct (c =? ch_rparen)%N eqn:Hrparen;
                   [| destruct (c =? ch_comma)%N eqn:Hcomma;
                      [| destruct (is_ident_start c) eqn:Hident;
                         [pose proof (span_fst_forallb is_ident_char rest) as Hall;
                          destruct (span is_ident_char rest) as [v r];
                          destruct (starts_with ch_lparen r) eqn:Hcall;
                          [| destruct (is_boolean (toUpperCase (c :: v)))
                               eqn:Hbool]
                         |]]]]]]]]]];
  simpl in *.

(** Every token of [tokenize] has one of the texts of its kind. *)
Lemma tokenize_lexed (s : jsstring) (toks : list Token) :
  tokenize s = Ok toks -> Forall (fun t => lexed t = true) toks.
Proof.
  apply tokenize_Forall. intros i c rest t.
  tokenize_step_facts c rest; intros H; inversion H; subst; clear H;
    unfold lexed; simpl.
  - exact Hlbrace.
  - exact Hquote.
  - now rewrite Hdigit, Hall.
  - now rewrite Harith.
  - rewrite Harith, Hcmp. simpl.
    destruct Hall as [-> | ->]; reflexivity.
  - now rewrite Hlparen.
  - now rewrite Hrparen.
  - now rewrite Hcomma.
  - rewrite (upper_char_ident_start c Hident), (toUpperCase_ident_chars v Hall).
    simpl.
    change (jsstring_eqb (toUpperCase (toUpperCase (c :: v))) (toUpperCase (c :: v)) = true).
    rewrite toUpperCase_idem. apply jsstring_eqb_refl.
  - rewrite Hbool. apply orb_true_r.
  - now rewrite Hident, Hall, Hbool.
  - unfold is_other.
    now rewrite Hspace, Hlbrace, Hquote, Hdigit, Harith, Hcmp, Hlparen,
      Hrparen, Hcomma, Hident.
Qed.

(** *** Lexing the text of a token again *)

Ltac class_neg Hc :=
  let H' := fresh "H" in
  let Hc' := fresh "H" in
  pose proof Hc as Hc'; apply not_true_iff_false; intros H';
  class_prop Hc'; class_prop H'; lia.

(** Adds the class tests that the membership [Hc] of [c] makes false. *)
Ltac other_classes c Hc :=
  try (assert (is_space c = false) by class_neg Hc);
  try (assert ((c =? ch_lbrace)%N = false) by class_neg Hc);
  try (assert (is_quote c = false) by class_neg Hc);
  try (assert (is_digit c = false) by class_neg Hc);
  try (assert (is_arith_op c = false) by class_neg Hc);
  try (assert (is_cmp_op c = false) by class_neg Hc);
  try (assert ((c =? ch_lparen)%N = false) by class_neg Hc);
  try (assert ((c =? ch_rparen)%N = false) by class_neg Hc);
  try (assert ((c =? ch_comma)%N = false) by class_neg Hc);
  try (assert (is_ident_start c = false) by class_neg Hc).

Ltac rewrite_false :=
  repeat match goal with
         | H : _ = false |- _ => rewrite H
         end.

Lemma scan_field_closed (v rest : jsstring) :
  field_closed v = true -> scan_field (v ++ rest) = (v, rest).
Proof.
  unfold scan_field. induction v as [|c v IH]; simpl; [discriminate|].
  destruct (c =? ch_rbrace)%N eqn:E; simpl.
  - destruct v; [|discriminate]. intros _. simpl. reflexivity.
  - intros H. specialize (IH H).
    destruct (span (fun c0 => negb (c0 =? ch_rbrace)%N) (v ++ rest)) as [a b].
    destruct b as [|d b]; injection IH as <- <-; reflexivity.
Qed.

Lemma scan_string_closed (q : char) (e : bool) (v rest : jsstring) :
  string_closed q e v = true -> scan_string q e (v ++ rest) = (v, rest).
Proof.
  revert e. induction v as [|c v IH]; intros e; simpl; [discriminate|].
  destruct e.
  - intros H. now rewrite (IH false H).
  - destruct (c =? ch_backslash)%N.
    + intros H. now rewrite (IH true H).
    + destruct (c =? q)%N.
      * destruct v; [reflexivity | discriminate].
      * intros H. now rewrite (IH false H).
Qed.

Lemma opt_test_starts_with_not (p : char -> bool) (l : jsstring) :
  opt_test p (hd_error l) = false -> starts_with_not p l.
Proof. destruct l; simpl; auto. Qed.

Lemma opt_test_starts_with (c : char) (l : jsstring) :
  starts_with c l = opt_test (fun d => (d =? c)%N) (hd_error l).
Proof. destruct l; reflexivity. Qed.

(** The text [c :: v] of a well-formed token [t], followed by a text
    [rest] that [t] does not fuse with, is lexed as one token of the kind
    and text of [t]; the cursor is left at [rest]. *)
Lemma relex_step (t : Token) (c : char) (v rest : jsstring) (i : nat) :
  lexed t = true -> literal_ok t = true -> value t = c :: v ->
  follows_ok t (hd_error rest) = true ->
  exists t',
    fst (fst (tokenize_step i c (v ++ rest))) = Some t'
    /\ kind_text t' = kind_text t
    /\ snd (tokenize_step i c (v ++ rest)) = rest.
Proof.
  destruct t as [ty val st en]. unfold lexed, literal_ok, follows_ok, kind_text.
  simpl. intros Hlex Hlit -> Hnext.
  destruct ty.
  - (* function *)
    apply andb_true_iff in Hlex as [Hlex Hup].
    apply andb_true_iff in Hlex as [Hc Hv].
    apply jsstring_eqb_eq in Hup.
    other_classes c Hc. unfold tokenize_step. rewrite_false. rewrite Hc.
    rewrite span_all; [|exact Hv|].
    2:{ destruct rest as [|d rest]; simpl in *; [discriminate|].
        unfold is_lparen in Hnext. apply N.eqb_eq in Hnext. now subst. }
    rewrite opt_test_starts_with. unfold is_lparen in Hnext. rewrite Hnext.
    eexists. simpl. repeat split. simpl in Hup. now rewrite Hup.
  - (* field *)
    apply andb_true_iff in Hlit as [Hlit _].
    apply andb_true_iff in Hlit as [Hc Hclosed].
    other_classes c Hc. unfold tokenize_step. rewrite_false. rewrite Hc.
    rewrite (scan_field_closed v rest Hclosed).
    eexists. simpl. repeat split.
  - (* string *)
    apply andb_true_iff in Hlit as [Hlit _].
    apply andb_true_iff in Hlit as [Hc Hclosed].
    other_classes c Hc. unfold tokenize_step. rewrite_false. rewrite Hc.
    rewrite (scan_string_closed c false v rest Hclosed).
    eexists. simpl. repeat split.
  - (* number *)
    apply orb_true_iff in Hlex as [Hlex|Hbool].
    + apply andb_true_iff in Hlex as [Hc Hv]. rewrite Hc in Hnext.
      other_classes c Hc. unfold tokenize_step. rewrite_false. rewrite Hc.
      rewrite span_all; [|exact Hv|].
      2:{ apply opt_test_starts_with_not. now apply negb_true_iff. }
      eexists. simpl. repeat split.
    + assert (Hcv : c :: v = str "TRUE" \/ c :: v = str "FALSE")
        by now apply is_boolean_true_iff.
      assert (Hc : is_ident_start c = true /\ forallb is_ident_char v = true
                   /\ toUpperCase (c :: v) = c :: v /\ is_digit c = false).
      { destruct Hcv as [E|E]; injection E as -> ->; repeat split. }
      destruct Hc as (Hc & Hv & Hup & Hd). rewrite Hd in Hnext.
      apply andb_true_iff in Hnext as [Hn1 Hn2].
      apply negb_true_iff in Hn1, Hn2.
      rewrite tokenize_step_boolean; auto.
      * eexists. simpl. repeat split. simpl in Hup. now rewrite Hup.
      * now apply opt_test_starts_with_not.
      * now rewrite opt_test_starts_with.
      * now rewrite Hup.
  - (* operator *)
    apply orb_true_iff in Hlex as [Hlex|Hlex].
    + apply andb_true_iff in Hlex as [Hc Hv]. destruct v; [|discriminate].
      other_classes c Hc. unfold tokenize_step. rewrite_false. rewrite Hc.
      eexists. simpl. repeat split.
    + apply andb_true_iff in Hlex as [Hc Hv].
      other_classes c Hc. unfold tokenize_step. rewrite_false. rewrite Hc.
      apply orb_true_iff in Hv as [Hv|Hv].
      * destruct v; [|discriminate]. simpl in Hnext. rewrite Hc in Hnext.
        apply negb_true_iff in Hnext.
        assert (Hs : scan_cmp rest = ([], rest)).
        { destruct rest as [|d rest]; simpl in *; [reflexivity|].
          now rewrite Hnext. }
        simpl. rewrite Hs. eexists. simpl. repeat split.
      * apply jsstring_eqb_eq in Hv. subst v. simpl.
        eexists. simpl. repeat split.
  - (* comma *)
    apply andb_true_iff in Hlex as [Hc Hv]. destruct v; [|discriminate].
    other_classes c Hc. unfold tokenize_step. rewrite_false. rewrite Hc.
    eexists. simpl. repeat split.
  - (* paren-open *)
    apply andb_true_iff in Hlex as [Hc Hv]. destruct v; [|discriminate].
    other_classes c Hc. unfold tokenize_step. rewrite_false. rewrite Hc.
    eexists. simpl. repeat split.
  - (* paren-close *)
    apply andb_true_iff in Hlex as [Hc Hv]. destruct v; [|discriminate].
    other_classes c Hc. unfold tokenize_step. rewrite_false. rewrite Hc.
    eexists. simpl. repeat split.
  - discriminate.
  - (* unknown *)
    apply orb_true_iff in Hlex as [Hlex|Hlex].
    + apply andb_true_iff in Hlex as [Hlex Hbool].
      apply andb_true_iff in Hlex as [Hc Hv]. rewrite Hc in Hnext.
      apply negb_true_iff in Hbool.
      apply andb_true_iff in Hnext as [Hn1 Hn2].
      apply negb_true_iff in Hn1, Hn2.
      other_classes c Hc. unfold tokenize_step. rewrite_false. rewrite Hc.
      rewrite span_all; [|exact Hv|now apply opt_test_starts_with_not].
      rewrite opt_test_starts_with. unfold is_lparen in Hn2.
      change (upper_char c :: toUpperCase v) with (toUpperCase (c :: v)) in Hbool.
      rewrite Hn2, Hbool.
      eexists. simpl. repeat split.
    + apply andb_true_iff in Hlex as [Hc Hv]. destruct v; [|discriminate].
      unfold is_other in Hc.
      repeat (apply andb_true_iff in Hc as [Hc ?]).
      repeat match goal with
             | H : negb _ = true |- _ => apply negb_true_iff in H
             end.
      unfold tokenize_step. rewrite_false.
      eexists. simpl. repeat split.
Qed.

(** *** The kinds and texts of the tokens, whatever the fuel and the cursor *)

Lemma tokenize_step_pos (i i' : nat) (c : char) (rest : jsstring) :
  snd (tokenize_step i c rest) = snd (tokenize_step i' c rest)
  /\ option_map kind_text (fst (fst (tokenize_step i c rest)))
     = option_map kind_text (fst (fst (tokenize_step i' c rest))).
Proof. tokenize_step_cases c rest; split; reflexivity. Qed.

Lemma tokenize_loop_kinds (fuel fuel' i i' : nat) (s : jsstring) :
  length s <= fuel -> length s <= fuel' ->
  (toks <- tokenize_loop fuel i s ;; Ok (map kind_text toks))
  = (toks <- tokenize_loop fuel' i' s ;; Ok (map kind_text toks)).
Proof.
  revert fuel' i i' s. induction fuel as [|fuel IH]; intros fuel' i i' s H1 H2.
  - destruct s; simpl in *; [now destruct fuel' | lia].
  - destruct s as [|c rest]; simpl in *; [now destruct fuel'|].
    destruct fuel' as [|fuel']; [lia|]. simpl.
    pose proof (tokenize_step_shrinks i c rest) as Hs.
    destruct (tokenize_step_pos i i' c rest) as [Hr Hk].
    destruct (tokenize_step i c rest) as [[t j] r].
    destruct (tokenize_step i' c rest) as [[t' j'] r'].
    simpl in *. subst r'.
    specialize (IH fuel' j j' r ltac:(lia) ltac:(lia)).
    destruct (tokenize_loop fuel j r) as [toks|e],
             (tokenize_loop fuel' j' r) as [toks'|e'];
      simpl in *; try discriminate; [|exact IH].
    injection IH as IH.
    destruct t as [t|], t' as [t'|]; simpl in *; try discriminate;
      congruence.
Qed.

(** The equation of the loop of [tokenize], on kinds and texts. *)
Lemma token_kinds_cons (i : nat) (c : char) (rest : jsstring) :
  token_kinds (c :: rest)
  = (ks <- token_kinds (snd (tokenize_step i c rest)) ;;
     Ok (match fst (fst (tokenize_step i c rest)) with
         | Some t => kind_text t :: ks
         | None => ks
         end)).
Proof.
  unfold token_kinds, tokenize. simpl.
  pose proof (tokenize_step_shrinks 0 c rest) as Hs.
  destruct (tokenize_step_pos 0 i c rest) as [Hr Hk].
  destruct (tokenize_step 0 c rest) as [[t j] r].
  destruct (tokenize_step i c rest) as [[t' j'] r'].
  simpl in *. subst r'.
  pose proof (@tokenize_loop_kinds (length rest) (length r) j 0 r Hs (Nat.le_refl _))
    as Hloop.
  destruct (tokenize_loop (length rest) j r) as [toks|e],
           (tokenize_loop (length r) 0 r) as [toks'|e'];
    simpl in *; try discriminate; [|exact Hloop].
  injection Hloop as Hloop.
  destruct t as [t|], t' as [t'|]; simpl in *; try discriminate;
    congruence.
Qed.

Lemma token_kinds_nil : token_kinds [] = Ok [].
Proof. reflexivity. Qed.

(** White space before the next token is passed over. *)
Lemma token_kinds_skip (ws rest : jsstring) :
  forallb is_space ws = true -> token_kinds (ws ++ rest) = token_kinds rest.
Proof.
  induction ws as [|c ws IH]; simpl; [reflexivity|].
  intros H. apply andb_true_iff in H as [Hc Hws].
  rewrite (token_kinds_cons 0). unfold tokenize_step. rewrite Hc. simpl.
  rewrite (IH Hws). now destruct (token_kinds rest).
Qed.

(** The text of a well-formed token in front of a text that it does not
    fuse with is lexed as that token, then the rest. *)
Lemma token_kinds_token (t : Token) (rest : jsstring) :
  lexed t = true -> literal_ok t = true ->
  follows_ok t (hd_error rest) = true ->
  token_kinds (value t ++ rest)
  = (ks <- token_kinds rest ;; Ok (kind_text t :: ks)).
Proof.
  intros Hlex Hlit Hnext.
  destruct (value t) as [|c v] eqn:Hval.
  { unfold lexed in Hlex. now rewrite Hval in Hlex. }
  simpl. rewrite (token_kinds_cons 0).
  destruct (@relex_step t c v rest 0 Hlex Hlit Hval Hnext) as (t' & Ht & Hk & Hr).
  now rewrite Ht, Hr, Hk.
Qed.

(** *** Text that the cleanup leaves as it is *)

Lemma layout_run_app (q : layout_state) (a b : jsstring) :
  layout_run q (a ++ b)
  = match layout_run q a with
    | Some q' => layout_run q' b
    | None => None
    end.
Proof.
  revert q. induction a as [|c a IH]; intros q; simpl; [reflexivity|].
  destruct (layout_step q c); auto.
Qed.

Lemma layout_step_text (q : layout_state) (c : char) :
  is_space c = false -> layout_step q c = Some after_text.
Proof. intros H. unfold layout_step. now rewrite H. Qed.

Lemma layout_step_space (q q' : layout_state) (c : char) :
  is_space c = true -> layout_step q c = Some q' ->
  q' <> after_text /\ q' <> at_start
  /\ (q = after_text \/ (q = after_newline /\ c = ch_tab)).
Proof.
  intros Hc. unfold layout_step. rewrite Hc.
  destruct q; try discriminate.
  - destruct (c =? ch_nl)%N; intros H; injection H as <-;
      repeat split; try discriminate; auto.
  - destruct (c =? ch_tab)%N eqn:E; [|discriminate].
    apply N.eqb_eq in E. intros H; injection H as <-.
    repeat split; try discriminate; auto.
Qed.

(** Accepted text ends with a code unit that is not white space. *)
Lemma layout_run_not_blank (q : layout_state) (c : char) (x : jsstring) :
  layout_run q (c :: x) = Some after_text ->
  is_space c && forallb is_space x = false.
Proof.
  revert q c. induction x as [|d x IH]; intros q c; simpl.
  - destruct (is_space c) eqn:Hc; [|reflexivity].
    destruct (layout_step q c) as [q'|] eqn:E; [|discriminate].
    intros H. injection H as ->.
    now destruct (layout_step_space q c Hc E) as [? _].
  - destruct (layout_step q c) as [q'|]; [|discriminate].
    intros H. specialize (IH q' d H).
    destruct (is_space c); [exact IH | reflexivity].
Qed.

Lemma spaces_are_space (x : jsstring) :
  forallb (fun d => (d =? ch_space)%N) x = true -> forallb is_space x = true.
Proof.
  induction x as [|c x IH]; simpl; [reflexivity|].
  intros H. apply andb_true_iff in H as [Hc Hx].
  apply N.eqb_eq in Hc. subst c. now rewrite IH.
Qed.

Lemma strip_trailing_ws_tidy (q : layout_state) (x : jsstring) :
  layout_run q x = Some after_text -> strip_trailing_ws x = x.
Proof.
  revert q. induction x as [|c x IH]; intros q H; [reflexivity|].
  cbn [strip_trailing_ws]. rewrite (layout_run_not_blank q c x H).
  simpl in H. destruct (layout_step q c) as [q'|]; [|discriminate].
  now rewrite (IH q' H).
Qed.

Lemma strip_trailing_spaces_tidy (q : layout_state) (x : jsstring) :
  layout_run q x = Some after_text -> strip_trailing_spaces x = x.
Proof.
  revert q. induction x as [|c x IH]; intros q H; [reflexivity|].
  cbn [strip_trailing_spaces].
  assert (E : (c =? ch_space)%N && forallb (fun d => (d =? ch_space)%N) x = false).
  { apply not_true_iff_false. intros E. apply andb_true_iff in E as [Ec Ex].
    pose proof (layout_run_not_blank q c x H) as Hn.
    apply N.eqb_eq in Ec. subst c.
    now rewrite (spaces_are_space x Ex) in Hn. }
  rewrite E. simpl in H.
  destruct (layout_step q c) as [q'|]; [|discriminate].
  now rewrite (IH q' H).
Qed.

Lemma trim_ends_tidy (x : jsstring) :
  layout_run at_start x = Some after_text -> trim_ends x = x.
Proof.
  intros H. unfold trim_ends.
  assert (Hd : dropWhile is_space x = x).
  { destruct x as [|c x]; [reflexivity|]. simpl in *.
    unfold layout_step in H. destruct (is_space c); [discriminate | reflexivity]. }
  rewrite Hd. now apply strip_trailing_ws_tidy with (q := at_start).
Qed.

(** Behind a line feed come tabs and then a code unit that is not white
    space: no second line feed in the white space. *)
Lemma indent_no_newline (l : jsstring) :
  layout_run after_newline l = Some after_text ->
  forall k, k <= length (fst (span is_space l)) ->
            starts_with ch_nl (skipn k l) = false.
Proof.
  induction l as [|a l IH]; simpl; [discriminate|].
  unfold layout_step. destruct (is_space a) eqn:Ha.
  - destruct (a =? ch_tab)%N eqn:Et; [|discriminate].
    apply N.eqb_eq in Et. subst a. intros H k Hk.
    destruct (span is_space l) as [ws r] eqn:Es. simpl in Hk.
    destruct k as [|k]; [reflexivity|]. simpl. apply IH; [exact H|].
    simpl. lia.
  - intros _ k Hk. simpl in Hk. assert (k = 0) by lia. subst k. simpl.
    apply N.eqb_neq. intros ->. discriminate.
Qed.

Lemma blank_backtrack_none (n : nat) (l : jsstring) :
  (forall k, k <= n -> starts_with ch_nl (skipn k l) = false) ->
  blank_backtrack n l = None.
Proof.
  induction n as [|n IH]; intros H; cbn [blank_backtrack].
  - now rewrite (H 0).
  - rewrite (H (S n)) by lia. apply IH. intros k Hk. apply H. lia.
Qed.

Lemma collapse_blank_lines_tidy (q : layout_state) (x : jsstring) :
  layout_run q x = Some after_text -> collapse_blank_lines_from 0 x = x.
Proof.
  revert q. induction x as [|c x IH]; intros q H; [reflexivity|].
  cbn [collapse_blank_lines_from].
  assert (E : blank_match (c :: x) = None).
  { unfold blank_match. destruct (c =? ch_nl)%N eqn:Ec; [|reflexivity].
    apply N.eqb_eq in Ec. subst c. simpl in H. unfold layout_step in H.
    simpl in H. destruct q; try discriminate. simpl in H.
    rewrite blank_backtrack_none; [reflexivity|].
    now apply indent_no_newline. }
  rewrite E. simpl in H.
  destruct (layout_step q c) as [q'|]; [|discriminate].
  now rewrite (IH q' H).
Qed.

Lemma split_lines_cons (x : jsstring) :
  exists l ls, split_lines x = l :: ls.
Proof.
  destruct x as [|c x]; simpl; [eauto|].
  destruct (c =? ch_nl)%N; [eauto|].
  destruct (split_lines x); eauto.
Qed.

Lemma join_split_lines (x : jsstring) : join_lines (split_lines x) = x.
Proof.
  induction x as [|c x IH]; [reflexivity|]. simpl.
  destruct (split_lines_cons x) as (l & ls & Es). rewrite Es in *.
  destruct (c =? ch_nl)%N eqn:E.
  - apply N.eqb_eq in E. subst c.
    change (join_lines ([] :: l :: ls)) with (ch_nl :: join_lines (l :: ls)).
    now rewrite IH.
  - destruct ls; simpl in *; now rewrite <- IH.
Qed.

(** The lines of accepted text are accepted, the first from the state the
    text is entered in, the others from behind a line feed. *)
Lemma split_lines_tidy (q : layout_state) (x : jsstring) :
  layout_run q x = Some after_text ->
  exists l ls,
    split_lines x = l :: ls /\ line_ok q l
    /\ Forall (line_ok after_newline) ls.
Proof.
  revert q. induction x as [|c x IH]; intros q H.
  - exists [], []. repeat split; auto.
  - simpl in H. destruct (layout_step q c) as [q'|] eqn:Eq; [|discriminate].
    destruct (IH q' H) as (l & ls & Es & Hl & Hls).
    simpl. rewrite Es. destruct (c =? ch_nl)%N eqn:Ec.
    + apply N.eqb_eq in Ec. subst c.
      unfold layout_step in Eq. simpl in Eq.
      destruct q; try discriminate. injection Eq as <-.
      exists [], (l :: ls). repeat split; auto.
    + exists (c :: l), ls. repeat split; auto.
      * simpl. rewrite Eq. apply Hl.
      * unfold no_newline. simpl. rewrite Ec. apply Hl.
Qed.

Lemma collapse_backtrack_short (n : nat) (l : jsstring) :
  n <= 1 -> collapse_backtrack n l = None.
Proof. destruct n as [|[|n]]; simpl; auto. lia. Qed.

(** In a line of accepted text, a code unit outside [[ \t]] has at most
    one white-space code unit behind it. *)
Lemma short_run_after (q : layout_state) (c : char) (l : jsstring) :
  layout_run q (c :: l) = Some after_text -> no_newline (c :: l) = true ->
  is_space_or_tab c = false ->
  length (fst (span is_space l)) <= 1.
Proof.
  simpl. intros H Hnl Hc.
  apply andb_true_iff in Hnl as [Hcn Hnl]. apply negb_true_iff in Hcn.
  destruct (layout_step q c) as [q'|] eqn:Eq; [|discriminate].
  assert (Hq : q' = after_text \/ q' = after_space).
  { unfold layout_step in Eq. destruct (is_space c) eqn:Hs.
    - destruct q; try discriminate.
      + rewrite Hcn in Eq. injection Eq as <-. now right.
      + unfold is_space_or_tab in Hc. apply orb_false_iff in Hc as [_ Hc].
        rewrite Hc in Eq. discriminate.
    - injection Eq as <-. now left. }
  destruct l as [|a l]; simpl; [lia|].
  simpl in H, Hnl. apply andb_true_iff in Hnl as [Han Hnl].
  apply negb_true_iff in Han.
  destruct (is_space a) eqn:Ha; simpl; [|lia].
  unfold layout_step in H. rewrite Ha in H.
  destruct Hq as [-> | ->]; [|discriminate]. rewrite Han in H.
  destruct l as [|b l]; [discriminate|]. simpl in *.
  unfold layout_step in H. destruct (is_space b); [discriminate|]. simpl. lia.
Qed.

Lemma collapse_spaces_tidy (q : layout_state) (l : jsstring) :
  line_ok q l -> collapse_spaces_from 0 l = l.
Proof.
  revert q. induction l as [|c l IH]; intros q [H Hnl]; [reflexivity|].
  cbn [collapse_spaces_from].
  assert (E : collapse_match (c :: l) = None).
  { unfold collapse_match. destruct (is_space_or_tab c) eqn:Hc; [reflexivity|].
    now rewrite collapse_backtrack_short by (eapply short_run_after; eauto). }
  rewrite E. simpl in H.
  destruct (layout_step q c) as [q'|]; [|discriminate].
  rewrite (IH q'); [reflexivity|]. split; [exact H|].
  unfold no_newline in *. simpl in Hnl. now apply andb_true_iff in Hnl as [_ ?].
Qed.

Lemma clean_line_tidy (q : layout_state) (l : jsstring) :
  line_ok q l -> clean_line l = l.
Proof.
  intros Hl. unfold clean_line, collapse_spaces.
  rewrite (strip_trailing_spaces_tidy q l (proj1 Hl)).
  now apply collapse_spaces_tidy with (q := q).
Qed.

Lemma clean_lines_tidy (q : layout_state) (ls : list jsstring) :
  Forall (line_ok q) ls -> map clean_line ls = ls.
Proof.
  induction 1 as [|l ls Hl _ IH]; simpl; [reflexivity|].
  now rewrite (clean_line_tidy Hl), IH.
Qed.

(** The cleanup returns accepted text as it is. *)
Lemma cleanup_tidy (x : jsstring) :
  layout_run at_start x = Some after_text -> cleanup x = x.
Proof.
  intros H. unfold cleanup.
  destruct (split_lines_tidy at_start x H) as (l & ls & Es & Hl & Hls).
  assert (Hmap : map clean_line (split_lines x) = split_lines x).
  { rewrite Es. simpl.
    now rewrite (clean_line_tidy Hl), (clean_lines_tidy Hls). }
  rewrite Hmap, join_split_lines. unfold collapse_blank_lines.
  rewrite (collapse_blank_lines_tidy at_start x H).
  now apply trim_ends_tidy.
Qed.

(** *** The texts of the tokens, as the cleanup sees them *)

Lemma layout_run_text (q : layout_state) (v : jsstring) :
  v <> [] -> forallb (fun c => negb (is_space c)) v = true ->
  layout_run q v = Some after_text.
Proof.
  revert q. induction v as [|c v IH]; intros q Hne Hv; [congruence|].
  simpl in *. apply andb_true_iff in Hv as [Hc Hv].
  apply negb_true_iff in Hc. rewrite layout_step_text by exact Hc.
  destruct v as [|d v]; [reflexivity|]. apply IH; [discriminate | exact Hv].
Qed.

(** Clean text that ends with a code unit that is not white space is
    accepted behind text, and anywhere if it starts with such a code unit. *)
Lemma layout_run_clean (q : layout_state) (v : jsstring) :
  clean_text v = true -> v <> [] -> is_space (last v 0%N) = false ->
  q = after_text \/ opt_test is_space (hd_error v) = false ->
  layout_run q v = Some after_text.
Proof.
  revert q. induction v as [|a v IH]; intros q Hclean Hne Hlast Hq;
    [congruence|].
  cbn [clean_text] in Hclean.
  apply andb_true_iff in Hclean as [Hclean Hv].
  apply andb_true_iff in Hclean as [Hnl Hadj].
  apply negb_true_iff in Hnl, Hadj.
  cbn [layout_run]. destruct (is_space a) eqn:Ha.
  - destruct Hq as [-> | Hq]; [|simpl in Hq; congruence].
    unfold layout_step. rewrite Ha, Hnl.
    simpl in Hadj.
    destruct v as [|b v]; [simpl in Hlast; congruence|].
    apply IH; [exact Hv | discriminate | exact Hlast |].
    right. exact Hadj.
  - rewrite layout_step_text by exact Ha.
    destruct v as [|b v]; [reflexivity|].
    apply IH; [exact Hv | discriminate | exact Hlast | now left].
Qed.

Lemma field_closed_last (v : jsstring) :
  field_closed v = true -> v <> [] /\ last v 0%N = ch_rbrace.
Proof.
  induction v as [|c v IH]; simpl; [discriminate|].
  destruct (c =? ch_rbrace)%N eqn:E.
  - destruct v; [|discriminate]. apply N.eqb_eq in E. subst.
    intros _. split; [discriminate | reflexivity].
  - intros H. destruct (IH H) as [Hne Hl]. split; [discriminate|].
    destruct v; [congruence | exact Hl].
Qed.

Lemma string_closed_last (q : char) (e : bool) (v : jsstring) :
  string_closed q e v = true -> v <> [] /\ last v 0%N = q.
Proof.
  revert e. induction v as [|c v IH]; intros e; simpl; [discriminate|].
  assert (Hrec : forall e', string_closed q e' v = true ->
                            c :: v <> [] /\ match v with [] => c | _ :: _ => last v 0%N end = q).
  { intros e' H. destruct (IH e' H) as [Hne Hl]. split; [discriminate|].
    destruct v; [congruence | exact Hl]. }
  destruct e; [apply Hrec|].
  destruct (c =? ch_backslash)%N; [apply Hrec|].
  destruct (c =? q)%N eqn:E; [|apply Hrec].
  destruct v; [|discriminate]. apply N.eqb_eq in E. subst.
  intros _. split; [discriminate | reflexivity].
Qed.

Lemma layout_run_class (p : char -> bool) (v : jsstring) :
  (forall c, p c = true -> is_space c = false) ->
  forallb p v = true -> layout_run after_text v = Some after_text.
Proof.
  intros Hp. induction v as [|c v IH]; simpl; [reflexivity|].
  intros H. apply andb_true_iff in H as [Hc Hv].
  rewrite layout_step_text by auto. auto.
Qed.

Lemma ident_char_not_space (c : char) :
  is_ident_char c = true -> is_space c = false.
Proof. intros H. class_neg H. Qed.

Lemma number_char_not_space (c : char) :
  is_number_char c = true -> is_space c = false.
Proof. intros H. class_neg H. Qed.

(** The text of a well-formed token is accepted wherever it is put, and
    leaves the text behind a code unit that is not white space. *)
Lemma layout_run_value (t : Token) (q : layout_state) :
  lexed t = true -> literal_ok t = true ->
  layout_run q (value t) = Some after_text.
Proof.
  destruct t as [ty val st en]. unfold lexed, literal_ok. simpl.
  destruct val as [|c v]; [discriminate|]. intros Hlex Hlit.
  assert (Hhead : is_space c = false ->
                  layout_run after_text v = Some after_text ->
                  layout_run q (c :: v) = Some after_text).
  { intros Hc Hv. simpl. now rewrite layout_step_text by exact Hc. }
  destruct ty.
  - (* function *)
    apply andb_true_iff in Hlex as [Hlex _].
    apply andb_true_iff in Hlex as [Hc Hv].
    apply Hhead; [class_neg Hc|].
    exact (layout_run_class is_ident_char v ident_char_not_space Hv).
  - (* field *)
    apply andb_true_iff in Hlit as [Hlit Hclean].
    apply andb_true_iff in Hlit as [Hc Hclosed].
    apply Hhead; [class_neg Hc|].
    destruct (field_closed_last v Hclosed) as [Hne Hl].
    apply layout_run_clean; auto. now rewrite Hl.
  - (* string *)
    apply andb_true_iff in Hlit as [Hlit Hclean].
    apply andb_true_iff in Hlit as [Hc Hclosed].
    assert (Hsp : is_space c = false) by class_neg Hc.
    apply Hhead; [exact Hsp|].
    destruct (string_closed_last c false v Hclosed) as [Hne Hl].
    apply layout_run_clean; auto. now rewrite Hl.
  - (* number *)
    apply orb_true_iff in Hlex as [Hlex|Hbool].
    + apply andb_true_iff in Hlex as [Hc Hv].
      apply Hhead; [class_neg Hc|].
      exact (layout_run_class is_number_char v number_char_not_space Hv).
    + apply is_boolean_true_iff in Hbool.
      destruct Hbool as [E|E]; injection E as -> ->; reflexivity.
  - (* operator *)
    apply orb_true_iff in Hlex as [Hlex|Hlex];
      apply andb_true_iff in Hlex as [Hc Hv].
    + destruct v; [|discriminate]. apply Hhead; [class_neg Hc | reflexivity].
    + apply Hhead; [class_neg Hc|].
      apply orb_true_iff in Hv as [Hv|Hv].
      * destruct v; [reflexivity | discriminate].
      * apply jsstring_eqb_eq in Hv. now subst v.
  - apply andb_true_iff in Hlex as [Hc Hv]. destruct v; [|discriminate].
    apply Hhead; [class_neg Hc | reflexivity].
  - apply andb_true_iff in Hlex as [Hc Hv]. destruct v; [|discriminate].
    apply Hhead; [class_neg Hc | reflexivity].
  - apply andb_true_iff in Hlex as [Hc Hv]. destruct v; [|discriminate].
    apply Hhead; [class_neg Hc | reflexivity].
  - discriminate.
  - (* unknown *)
    apply orb_true_iff in Hlex as [Hlex|Hlex].
    + apply andb_true_iff in Hlex as [Hlex _].
      apply andb_true_iff in Hlex as [Hc Hv].
      apply Hhead; [class_neg Hc|].
      exact (layout_run_class is_ident_char v ident_char_not_space Hv).
    + apply andb_true_iff in Hlex as [Hc Hv]. destruct v; [|discriminate].
      apply Hhead; [|reflexivity].
      unfold is_other in Hc. repeat (apply andb_true_iff in Hc as [Hc _]).
      now apply negb_true_iff.
Qed.

Lemma lexed_value_cons (t : Token) :
  lexed t = true -> exists c v, value t = c :: v.
Proof.
  unfold lexed. destruct (value t) as [|c v]; [discriminate | eauto].
Qed.

(** White space behind a token that is not a function name does not
    change how the token is lexed. *)
Lemma follows_ok_space (t : Token) (c : char) :
  type t <> ty_function -> is_space c = true -> follows_ok t (Some c) = true.
Proof.
  intros Hty Hc. unfold follows_ok.
  assert (H1 : is_number_char c = false) by class_neg Hc.
  assert (H2 : is_ident_char c = false) by class_neg Hc.
  assert (H3 : is_lparen c = false) by (unfold is_lparen; class_neg Hc).
  assert (H4 : (c =? ch_eq)%N = false) by class_neg Hc.
  destruct (type t); try congruence; destruct (value t) as [|d v]; simpl;
    rewrite ?H1, ?H2, ?H3, ?H4; try reflexivity.
  - now destruct (is_digit d).
  - destruct v; [|reflexivity]. destruct (is_cmp_op d); simpl; now rewrite ?H4.
  - now destruct (is_ident_start d).
Qed.

Ltac absurd_class Hlex Hc :=
  match type of Hlex with
  | ?X = true =>
      let Hf := fresh "Hf" in
      assert (Hf : X = false) by class_neg Hc; congruence
  end.

(** Only an open-paren token starts with an opening parenthesis. *)
Lemma lexed_lparen_head (t : Token) :
  lexed t = true -> opt_test is_lparen (hd_error (value t)) = true ->
  type t = ty_paren_open.
Proof.
  unfold lexed. destruct (value t) as [|c v]; [discriminate|]. simpl.
  unfold is_lparen. intros Hlex Hc.
  destruct (type t); try reflexivity; exfalso.
  - apply andb_true_iff in Hlex as [Hlex _].
    apply andb_true_iff in Hlex as [Hlex _].
    absurd_class Hlex Hc.
  - absurd_class Hlex Hc.
  - absurd_class Hlex Hc.
  - apply orb_true_iff in Hlex as [Hlex|Hlex].
    + apply andb_true_iff in Hlex as [Hlex _].
      absurd_class Hlex Hc.
    + apply is_boolean_true_iff in Hlex.
      apply N.eqb_eq in Hc. subst c.
      destruct Hlex as [E|E]; discriminate.
  - apply orb_true_iff in Hlex as [Hlex|Hlex];
      apply andb_true_iff in Hlex as [Hlex _];
      absurd_class Hlex Hc.
  - apply andb_true_iff in Hlex as [Hlex _].
    absurd_class Hlex Hc.
  - apply andb_true_iff in Hlex as [Hlex _].
    absurd_class Hlex Hc.
  - discriminate.
  - apply orb_true_iff in Hlex as [Hlex|Hlex].
    + apply andb_true_iff in Hlex as [Hlex _].
      apply andb_true_iff in Hlex as [Hlex _].
      absurd_class Hlex Hc.
    + apply andb_true_iff in Hlex as [Hlex _]. unfold is_other in Hlex.
      repeat (apply andb_true_iff in Hlex as [Hlex ?]).
      rewrite Hc in *. discriminate.
Qed.

(** *** One iteration of the emission loop: what is appended *)

Lemma top_level_commas_pos (l : list Token) :
  0 < top_level_commas 1 l ->
  exists t l', l = t :: l' /\ type t <> ty_paren_close.
Proof.
  destruct l as [|t l]; simpl; [lia|].
  intros H. exists t, l. split; [reflexivity|].
  intros E. rewrite E in H. rewrite top_level_commas_0 in H. lia.
Qed.

Lemma defined_and_some (p : Token -> bool) (o : option Token) :
  defined_and p o = true -> exists t, o = Some t /\ p t = true.
Proof. destruct o as [t|]; simpl; [eauto | discriminate]. Qed.

Lemma next_token_some (toks : list Token) (i : nat) (t : Token) :
  (if i + 1 <? length toks then nth_error toks (i + 1) else None) = Some t ->
  nth_error toks (i + 1) = Some t.
Proof. destruct (i + 1 <? length toks); [auto | discriminate]. Qed.

Lemma is_type_false (ty : TokenType) (t : Token) :
  is_type ty t = false -> type t <> ty.
Proof.
  unfold is_type. intros H E. rewrite E in H. now destruct ty.
Qed.

(** An iteration appends the text of the token, with white space before
    it (a space before an operator, a line feed and the indent before a
    close-paren) or behind it (a space behind an operator, a line feed and
    the indent behind an open-paren or a comma), never both sides of a gap
    between two tokens. *)
Lemma emit_step_pieces (toks : list Token) (i : nat) (st : State) (t : Token) :
  nth_error toks i = Some t -> type t <> ty_whitespace ->
  (0 <= indentLevel st)%Z ->
  exists pre post lvl ml,
    emit_step toks i st
    = Ok (mkState (result_ st ++ pre ++ value t ++ post) lvl ml)
    /\ (0 <= lvl)%Z
    /\ (pre = []
        \/ (pre = [ch_space] /\ type t = ty_operator /\ 0 < i
            /\ blank_end (result_ st) = false)
        \/ ((exists k, pre = ch_nl :: repeat ch_tab k)
            /\ type t = ty_paren_close /\ isMultiLine st = true))
    /\ (post = []
        \/ ((post = [ch_space] \/ exists k, post = ch_nl :: repeat ch_tab k)
            /\ (type t = ty_operator \/ type t = ty_comma
                \/ type t = ty_paren_open)
            /\ exists t', nth_error toks (i + 1) = Some t'
                          /\ type t' <> ty_paren_close)).
Proof.
  intros Hnth Hws Hlvl. unfold emit_step, get. rewrite Hnth. cbn [bind].
  destruct (type t) eqn:Hty; try congruence.
  - (* function *)
    exists [], [], (indentLevel st), (isMultiLine st).
    rewrite app_nil_r. repeat split; auto.
  - exists [], [], (indentLevel st), (isMultiLine st).
    rewrite app_nil_r. repeat split; auto.
  - exists [], [], (indentLevel st), (isMultiLine st).
    rewrite app_nil_r. repeat split; auto.
  - exists [], [], (indentLevel st), (isMultiLine st).
    rewrite app_nil_r. repeat split; auto.
  - (* operator *)
    set (prevToken := if 0 <? i then nth_error toks (i - 1) else None).
    set (nextToken := if i + 1 <? length toks then nth_error toks (i + 1) else None).
    set (pprev := defined_and _ prevToken).
    set (pnext := defined_and _ nextToken).
    set (chk := char_is_not ch_space (last_char (result_ st))
                && char_is_not ch_nl (last_char (result_ st))
                && char_is_not ch_tab (last_char (result_ st))).
    exists (if pprev then if chk then [ch_space] else [] else []),
           (if pnext then [ch_space] else []),
           (indentLevel st), (isMultiLine st).
    split; [|split; [exact Hlvl|split]].
    + f_equal. f_equal.
      destruct pprev, chk, pnext; simpl;
        rewrite ?app_nil_r, <- ?app_assoc; simpl; reflexivity.
    + destruct pprev eqn:Ep; [|now left].
      destruct chk eqn:Ec; [|now left].
      right. left. repeat split.
      * subst pprev prevToken. destruct (0 <? i) eqn:E0.
        -- now apply Nat.ltb_lt.
        -- discriminate.
      * unfold blank_end. fold chk. now rewrite Ec.
    + destruct pnext eqn:En; [|now left].
      right. split; [now left|]. split; [now left|].
      subst pnext. apply defined_and_some in En as (t' & Ht' & Hp).
      apply next_token_some in Ht'. exists t'. split; [exact Ht'|].
      apply is_type_false.
      apply andb_true_iff in Hp as [Hp _]. apply andb_true_iff in Hp as [Hp _].
      now apply negb_true_iff.
  - (* comma *)
    set (nextToken := if i + 1 <? length toks then nth_error toks (i + 1) else None).
    destruct (defined_and _ nextToken) eqn:En.
    + rewrite (addIndent_nonneg Hlvl). cbn [bind].
      rewrite concat_repeat_indentChar.
      exists [], (ch_nl :: repeat ch_tab (Z.to_nat (indentLevel st))),
        (indentLevel st), (isMultiLine st).
      split; [now rewrite <- !app_assoc|]. split; [exact Hlvl|].
      split; [now left|]. right. split; [right; eauto|].
      split; [auto|].
      apply defined_and_some in En as (t' & Ht' & Hp).
      apply next_token_some in Ht'. exists t'. split; [exact Ht'|].
      apply is_type_false. now apply negb_true_iff.
    + exists [], [], (indentLevel st), (isMultiLine st).
      rewrite app_nil_r. repeat split; auto.
  - (* paren-open *)
    unfold shouldBreakAfterParenOpen. rewrite countParameters_spec.
    cbn [bind]. destruct (0 <? _) eqn:Eb.
    + rewrite addIndent_nonneg by lia. cbn [bind].
      rewrite concat_repeat_indentChar.
      exists [], (ch_nl :: repeat ch_tab (Z.to_nat (indentLevel st + 1))),
        (indentLevel st + 1)%Z, true.
      split; [now rewrite <- !app_assoc|]. split; [lia|].
      split; [now left|]. right. split; [right; eauto|].
      split; [auto|].
      apply Nat.ltb_lt in Eb.
      destruct (top_level_commas_pos _ Eb) as (t' & l' & Hl & Ht').
      exists t'. split; [|exact Ht'].
      eapply skipn_head_nth_error. exact Hl.
    + exists [], [], (indentLevel st), (isMultiLine st).
      rewrite app_nil_r. repeat split; auto.
  - (* paren-close *)
    set (prevToken := if 0 <? i then nth_error toks (i - 1) else None).
    set (lvl := if (0 <? indentLevel st)%Z then Z.max 0 (indentLevel st - 1)
                else indentLevel st).
    assert (Hl : (0 <= lvl)%Z) by (subst lvl; destruct (0 <? _)%Z; lia).
    destruct (isMultiLine st && type_is_not ty_paren_open prevToken) eqn:Em.
    + rewrite (addIndent_nonneg Hl). cbn [bind].
      rewrite concat_repeat_indentChar.
      exists (ch_nl :: repeat ch_tab (Z.to_nat lvl)), [], lvl,
        (if (lvl =? 0)%Z then false else isMultiLine st).
      split; [now rewrite app_nil_r, <- !app_assoc|]. split; [exact Hl|].
      split; [|now left]. right. right.
      apply andb_true_iff in Em as [Em _]. eauto.
    + cbn [bind].
      exists [], [], lvl, (if (lvl =? 0)%Z then false else isMultiLine st).
      rewrite app_nil_r. repeat split; auto.
  - (* unknown *)
    exists [], [], (indentLevel st), (isMultiLine st).
    rewrite app_nil_r. repeat split; auto.
Qed.

(** *** The emission loop prints accepted text that is lexed as before *)

Lemma no_fusion_nth (toks : list Token) (i : nat) (t : Token) :
  no_fusion toks = true -> nth_error toks i = Some t ->
  follows_ok t (match nth_error toks (S i) with
                | Some t2 => hd_error (value t2)
                | None => None
                end) = true.
Proof.
  revert i. induction toks as [|t1 toks IH]; intros i H Hnth.
  - destruct i; discriminate.
  - cbn [no_fusion] in H. apply andb_true_iff in H as [H1 H2].
    destruct i as [|i]; simpl in Hnth.
    + injection Hnth as <-. simpl. unfold next_head in H1. now destruct toks.
    + simpl. now apply IH.
Qed.

Lemma firstn_succ_nth (A : Type) (l : list A) (i : nat) (x : A) :
  nth_error l i = Some x -> firstn (i + 1) l = firstn i l ++ [x].
Proof.
  revert i. induction l as [|a l IH]; intros [|i] H; simpl in *;
    try discriminate.
  - now injection H as ->.
  - now rewrite IH.
Qed.

Lemma layout_run_indent (k : nat) :
  layout_run after_text (ch_nl :: repeat ch_tab k) = Some after_newline.
Proof.
  simpl. induction k as [|k IH]; simpl; auto.
Qed.

Lemma last_app_cons (x : jsstring) (a : char) (y : jsstring) :
  last (x ++ a :: y) 0%N = last (a :: y) 0%N.
Proof.
  induction x as [|b x IH]; [reflexivity|].
  simpl. destruct (x ++ a :: y) eqn:E; [now destruct x|]. exact IH.
Qed.

Lemma last_char_app_cons (x : jsstring) (a : char) (y : jsstring) :
  last_char (x ++ a :: y) = Some (last (a :: y) 0%N).
Proof.
  unfold last_char. rewrite last_app_cons. now destruct x.
Qed.

Lemma blank_end_space (x : jsstring) : blank_end (x ++ [ch_space]) = true.
Proof. unfold blank_end. now rewrite last_char_app_cons. Qed.

Lemma blank_end_indent (x : jsstring) (k : nat) :
  blank_end (x ++ ch_nl :: repeat ch_tab k) = true.
Proof.
  unfold blank_end. rewrite last_char_app_cons.
  assert (H : last (ch_nl :: repeat ch_tab k) 0%N = ch_nl
              \/ last (ch_nl :: repeat ch_tab k) 0%N = ch_tab).
  { induction k as [|k IH]; [now left|]. right.
    change (last (ch_nl :: repeat ch_tab (S k)) 0%N)
      with (last (repeat ch_tab (S k)) 0%N).
    clear IH. induction k as [|k IH]; [reflexivity|]. exact IH. }
  destruct H as [-> | ->]; reflexivity.
Qed.

Lemma bind_kinds_assoc (r : result (list (TokenType * jsstring)))
    (k : TokenType * jsstring) (pre : list (TokenType * jsstring)) :
  (ks0 <- (ks <- r ;; Ok (k :: ks)) ;; Ok (pre ++ ks0))
  = (ks <- r ;; Ok ((pre ++ [k]) ++ ks)).
Proof. destruct r; simpl; [now rewrite <- app_assoc | reflexivity]. Qed.

Lemma emit_inv_step (toks : list Token) (i : nat) (st : State) (t : Token) :
  Forall (fun t => lexed t = true) toks ->
  Forall (fun t => literal_ok t = true) toks ->
  no_fusion toks = true ->
  nth_error toks i = Some t ->
  emit_inv toks i st ->
  exists st', emit_step toks i st = Ok st' /\ emit_inv toks (i + 1) st'.
Proof.
  intros Hlexed Hlits Hfuse Hnth (Hlvl & q & Hrun & Hstart & Htext & Hsep & Hkinds).
  assert (Hin : In t toks) by (eapply nth_error_In; eauto).
  assert (Hlex : lexed t = true) by (rewrite Forall_forall in Hlexed; auto).
  assert (Hlit : literal_ok t = true) by (rewrite Forall_forall in Hlits; auto).
  assert (Hws : type t <> ty_whitespace).
  { intros E. unfold lexed in Hlex. rewrite E in Hlex.
    now destruct (value t). }
  destruct (lexed_value_cons t Hlex) as (c & v & Hval).
  destruct (emit_step_pieces toks i st Hnth Hws Hlvl)
    as (pre & post & lvl & ml & Hstep & Hl & Hpre & Hpost).
  eexists. split; [exact Hstep|].
  (* white space before the token is printed behind text only *)
  assert (Hpre' : pre = []
                  \/ (q = after_text /\ forallb is_space pre = true
                      /\ type t <> ty_paren_open
                      /\ exists q1, layout_run after_text pre = Some q1)).
  { destruct Hpre as [-> | [(-> & Hop & Hi & Hblank) | ((k & ->) & Hclose & Hml)]];
      [now left | right | right].
    - assert (q = after_text).
      { destruct q; auto.
        + destruct (Hstart eq_refl) as (-> & _). lia.
        + destruct Hsep as [Hb _]; [now left | congruence].
        + destruct Hsep as [Hb _]; [now right | congruence]. }
      subst q. repeat split; [congruence | eexists; reflexivity].
    - assert (q = after_text).
      { destruct q; auto.
        + destruct (Hstart eq_refl) as (_ & _ & Hm). congruence.
        + destruct Hsep as [_ (t0 & Ht0 & Hne)]; [now left|]. congruence.
        + destruct Hsep as [_ (t0 & Ht0 & Hne)]; [now right|]. congruence. }
      subst q. repeat split.
      + simpl. clear. induction k; simpl; auto.
      + congruence.
      + eexists. apply layout_run_indent. }
  (* the automaton behind the text of the token *)
  assert (Hrun1 : layout_run at_start (result_ st ++ pre ++ value t)
                  = Some after_text).
  { rewrite layout_run_app, Hrun.
    destruct Hpre' as [-> | (-> & _ & _ & q1 & Hq1)].
    - simpl. now apply layout_run_value.
    - rewrite layout_run_app, Hq1. now apply layout_run_value. }
  assert (Hpost' : (post = [] /\ layout_run after_text post = Some after_text)
                   \/ (forallb is_space post = true
                       /\ type t <> ty_function
                       /\ blank_end (result_ st ++ pre ++ value t ++ post) = true
                       /\ (exists t', nth_error toks (i + 1) = Some t'
                                      /\ type t' <> ty_paren_close)
                       /\ exists q', layout_run after_text post = Some q'
                                     /\ (q' = after_space \/ q' = after_newline))).
  { destruct Hpost as [-> | (Hp & Hty & Hnext)]; [now left | right].
    assert (Hnf : type t <> ty_function)
      by (destruct Hty as [E | [E | E]]; congruence).
    destruct Hp as [-> | (k & ->)].
    - repeat split; auto.
      + rewrite !app_assoc. apply blank_end_space.
      + exists after_space. auto.
    - repeat split; auto.
      + simpl. clear. induction k; simpl; auto.
      + rewrite !app_assoc. apply blank_end_indent.
      + exists after_newline. split; [apply layout_run_indent | auto]. }
  (* the text before the token is lexed as before *)
  assert (Hhead : pending toks i q (hd_error (pre ++ value t ++ post)) = true).
  { unfold pending. destruct q; auto.
    destruct (nth_error toks (i - 1)) as [tp|] eqn:Etp; [|reflexivity].
    pose proof (no_fusion_nth toks (i - 1) Hfuse Etp) as Hf.
    replace (S (i - 1)) with i in Hf by (specialize (Htext eq_refl); lia).
    rewrite Hnth in Hf.
    destruct Hpre' as [-> | (_ & Hsp & Hnp & _)].
    - simpl. now rewrite Hval in *.
    - destruct pre as [|a pre]; [simpl; now rewrite Hval in * |].
      simpl in *. apply andb_true_iff in Hsp as [Ha _].
      apply follows_ok_space; [|exact Ha].
      intros Efun. apply Hnp. apply lexed_lparen_head; [exact Hlex|].
      unfold follows_ok in Hf. now rewrite Efun in Hf. }
  split; [exact Hl|]. cbn [result_ indentLevel isMultiLine].
  assert (Hkinds' : forall q' tail,
             layout_run after_text post = Some q' ->
             pending toks (i + 1) q' (hd_error tail) = true ->
             token_kinds ((result_ st ++ pre ++ value t ++ post) ++ tail)
             = (ks <- token_kinds tail ;;
                Ok (map kind_text (firstn (i + 1) toks) ++ ks))).
  { intros q' tail Hq' Hpend.
    replace ((result_ st ++ pre ++ value t ++ post) ++ tail)
      with (result_ st ++ (pre ++ value t ++ post ++ tail))
      by (now rewrite <- !app_assoc).
    rewrite Hkinds.
    2:{ replace (hd_error (pre ++ value t ++ post ++ tail))
          with (hd_error (pre ++ value t ++ post)); [exact Hhead|].
        destruct pre; [|reflexivity]. simpl. now rewrite Hval. }
    assert (Hskip : token_kinds (pre ++ value t ++ post ++ tail)
                    = token_kinds (value t ++ post ++ tail)).
    { destruct Hpre' as [-> | (_ & Hsp & _)]; [reflexivity|].
      now apply token_kinds_skip. }
    rewrite Hskip, token_kinds_token; auto.
    - assert (Hskip2 : token_kinds (post ++ tail) = token_kinds tail).
      { destruct Hpost' as [(-> & _) | (Hsp & _)]; [reflexivity|].
        now apply token_kinds_skip. }
      rewrite Hskip2, bind_kinds_assoc.
      now rewrite (firstn_succ_nth toks i Hnth), map_app.
    - destruct Hpost' as [(-> & _) | (Hsp & Hnf & _)].
      + simpl in Hq'. injection Hq' as <-. unfold pending in Hpend.
        replace (i + 1 - 1) with i in Hpend by lia. now rewrite Hnth in Hpend.
      + destruct post as [|a post].
        * simpl in Hq'. injection Hq' as <-. unfold pending in Hpend.
          replace (i + 1 - 1) with i in Hpend by lia.
          now rewrite Hnth in Hpend.
        * simpl in *. apply andb_true_iff in Hsp as [Ha _].
          now apply follows_ok_space. }
  destruct Hpost' as [(-> & Hq') | (Hsp & Hnf & Hblank & Hnext & q' & Hq' & Hsepq)].
  - exists after_text. rewrite app_nil_r in *.
    split; [exact Hrun1|]. split; [discriminate|]. split; [lia|].
    split; [intros [E|E]; discriminate|].
    intros tail Hp. exact (Hkinds' after_text tail Hq' Hp).
  - exists q'. split.
    { replace (result_ st ++ pre ++ value t ++ post)
        with ((result_ st ++ pre ++ value t) ++ post)
        by (now rewrite <- !app_assoc).
      now rewrite layout_run_app, Hrun1. }
    split; [destruct Hsepq; subst; discriminate|].
    split; [lia|]. split; [auto|].
    intros tail Hp. now apply Hkinds' with (q' := q').
Qed.

Lemma emit_inv_loop (fuel : nat) (toks : list Token) (i : nat) (st : State) :
  Forall (fun t => lexed t = true) toks ->
  Forall (fun t => literal_ok t = true) toks ->
  no_fusion toks = true ->
  length toks <= fuel + i -> i <= length toks ->
  emit_inv toks i st ->
  exists st', emit_loop fuel toks i st = Ok st'
              /\ emit_inv toks (length toks) st'.
Proof.
  intros Hlexed Hlits Hfuse. revert i st.
  induction fuel as [|fuel IH]; intros i st Hfuel Hi Hinv.
  - assert (i = length toks) by lia. subst i. simpl.
    rewrite Nat.ltb_irrefl. eauto.
  - cbn [emit_loop]. destruct (i <? length toks) eqn:E.
    + apply Nat.ltb_lt in E.
      destruct (get_in_range toks E) as (t & Hnth & _).
      destruct (emit_inv_step Hlexed Hlits Hfuse Hnth Hinv) as (st1 & -> & Hinv1).
      cbn [bind]. apply IH; [lia | lia | exact Hinv1].
    + apply Nat.ltb_ge in E. assert (i = length toks) by lia. subst i. eauto.
Qed.

Lemma emit_inv_initial (toks : list Token) : emit_inv toks 0 initial_state.
Proof.
  split; [simpl; lia|]. exists at_start.
  split; [reflexivity|]. split; [intros _; repeat split|].
  split; [discriminate|]. split; [intros [E|E]; discriminate|].
  intros tail _. simpl. now destruct (token_kinds tail).
Qed.

Lemma no_fusion_of_apart (toks : list Token) :
  apart toks = true -> functions_called toks = true -> no_fusion toks = true.
Proof.
  induction toks as [|t toks IH]; [reflexivity|].
  cbn [apart functions_called no_fusion]. intros Ha Hc.
  apply andb_true_iff in Ha as [Ha1 Ha2].
  apply andb_true_iff in Hc as [Hc1 Hc2].
  rewrite (IH Ha2 Hc2), andb_true_r.
  unfold stays_apart in Ha1. unfold is_type in Hc1.
  destruct (type t) eqn:Hty; try exact Ha1.
  unfold follows_ok. rewrite Hty. exact Hc1.
Qed.

(** [tokenize] makes a function token in front of an opening parenthesis,
    which is the next token. *)
Lemma tokenize_functions_called (s : jsstring) (toks : list Token) :
  tokenize s = Ok toks -> functions_called toks = true.
Proof.
  intros Hrun.
  enough (H : functions_called toks = true
              /\ (starts_with ch_lparen s = true ->
                  opt_test is_lparen (next_head toks) = true)) by apply H.
  revert Hrun. unfold tokenize.
  apply (tokenize_loop_ind
           (fun _ s toks =>
              functions_called toks = true
              /\ (starts_with ch_lparen s = true ->
                  opt_test is_lparen (next_head toks) = true))).
  - intros _. split; [reflexivity | discriminate].
  - intros i c rest toks' [IH1 IH2]. split.
    + destruct (fst (fst (tokenize_step i c rest))) as [t|] eqn:E;
        [|exact IH1].
      cbn [push functions_called]. rewrite IH1, andb_true_r.
      unfold is_type.
      destruct (TokenType_eqb (type t) ty_function) eqn:Ety; [|reflexivity].
      apply IH2.
      apply (tokenize_step_function i c rest E).
      now destruct (type t).
    + cbn [starts_with]. intros Hc. apply N.eqb_eq in Hc. subst c.
      reflexivity.
Qed.

(** The text assembled from well-formed tokens that do not fuse is left as
    it is by the cleanup, and is lexed into the kinds and texts of these
    tokens. *)
Lemma assemble_stable (toks : list Token) :
  toks <> [] ->
  Forall (fun t => lexed t = true) toks ->
  functions_called toks = true ->
  stable_tokens toks = true ->
  exists res,
    assemble toks = Ok res
    /\ cleanup res = res
    /\ token_kinds res = Ok (map kind_text toks).
Proof.
  intros Hne Hlexed Hcalled Hstable. unfold stable_tokens in Hstable.
  apply andb_true_iff in Hstable as [Hlits Hapart].
  pose proof (no_fusion_of_apart toks Hapart Hcalled) as Hfuse.
  rewrite forallb_forall in Hlits. apply Forall_forall in Hlits.
  destruct (@emit_inv_loop (length toks) toks 0 initial_state
              Hlexed Hlits Hfuse ltac:(lia) ltac:(lia) (emit_inv_initial toks))
    as (st & Hloop & Hlvl & q & Hrun & Hstart & Htext & Hsep & Hkinds).
  exists (result_ st). unfold assemble. rewrite Hloop. cbn [bind].
  split; [reflexivity|].
  assert (Hlen : 0 < length toks) by (destruct toks; simpl; [congruence | lia]).
  assert (Hq : q = after_text).
  { destruct q; auto.
    - destruct (Hstart eq_refl) as (E & _). lia.
    - destruct Hsep as [_ (t & Ht & _)]; [now left|].
      assert (nth_error toks (length toks) = None) by (apply nth_error_None; lia).
      congruence.
    - destruct Hsep as [_ (t & Ht & _)]; [now right|].
      assert (nth_error toks (length toks) = None) by (apply nth_error_None; lia).
      congruence. }
  subst q. split; [now apply cleanup_tidy|].
  specialize (Hkinds []). rewrite app_nil_r, firstn_all in Hkinds.
  simpl in Hkinds. rewrite app_nil_r in Hkinds. apply Hkinds.
  destruct (nth_error toks (length toks - 1)) as [t|] eqn:Et; [|reflexivity].
  pose proof (no_fusion_nth toks (length toks - 1) Hfuse Et) as Hf.
  replace (S (length toks - 1)) with (length toks) in Hf by lia.
  assert (E : nth_error toks (length toks) = None) by (apply nth_error_None; lia).
  now rewrite E in Hf.
Qed.

(** C2, as amended.  A formula is printed to a fixed point, that is,
    printing the printed text again returns it unchanged, when its tokens
    are such that (a) every field reference and string literal is closed
    and holds no line feed and no two white-space code units in a row, and
    (b) no token is followed by a token whose first code unit would be
    lexed as part of it, or would change its kind, once the white space
    between the two is dropped: a name or TRUE/FALSE is not followed by a
    letter, a digit, an underscore or an opening parenthesis, a number not
    by a digit or a dot, and a single equals sign, exclamation mark or
    angle bracket not by an equals sign. *)
Theorem format_idempotent_on_stable_formulas (s : jsstring) :
  stable_formula s = true ->
  exists r, formatAirtableFormula s = Ok r /\ formatAirtableFormula r = Ok r.
Proof.
  unfold stable_formula. intros Hst.
  destruct (tokenize s) as [toks|e] eqn:Htok; [|discriminate].
  destruct (forallb is_space s) eqn:Hs.
  - exists []. split; [now apply format_blank | reflexivity].
  - pose proof (tokenize_nonempty s Htok Hs) as Hne.
    destruct (assemble_stable Hne (tokenize_lexed s Htok)
                (tokenize_functions_called s Htok) Hst)
      as (res & Hasm & Hclean & Hkinds).
    apply format_fixed_point_when_relexed_alike.
    exists res. split.
    + unfold formatAirtableFormula.
      rewrite trim_empty_iff_blank, Hs, Htok. cbn [bind].
      destruct toks; [congruence|]. cbn [length Nat.eqb].
      rewrite Hasm. cbn [bind]. now rewrite Hclean.
    + rewrite Hkinds. unfold token_kinds. now rewrite Htok.
Qed.

Lemma format_idempotent_on_stable_formulas_witness :
  exists r,
    formatAirtableFormula
      (str "if(and({a}>1,x),sum(1,2)&{b c}&" ++ [ch_dquote] ++ str " - "
       ++ [ch_dquote] ++ str ",true)") = Ok r
    /\ formatAirtableFormula r = Ok r.
Proof.
  apply format_idempotent_on_stable_formulas. vm_compute. reflexivity.
Defined.

(** C2, as stated, fails: [sum (a)] has balanced parentheses and no
    literal; it is printed as [sum(a)], which is printed as [SUM(a)]. *)
Lemma format_not_idempotent :
  formatAirtableFormula (str "sum (a)") = Ok (str "sum(a)")
  /\ formatAirtableFormula (str "sum(a)") = Ok (str "SUM(a)")
  /\ str "SUM(a)" <> str "sum(a)".
Proof.
  split; [vm_compute; reflexivity|].
  split; [vm_compute; reflexivity | vm_compute; discriminate].
Qed.

(** * Further properties of the lexers, the pretty-printer and the page *)

(** ** The spans of the tokens of [tokenize] *)

(** What an iteration that pushes a token scanned, and what it recorded. *)
Lemma tokenize_step_token (i : nat) (c : char) (rest : jsstring) (t : Token) :
  fst (fst (tokenize_step i c rest)) = Some t ->
  exists v,
    rest = v ++ snd (tokenize_step i c rest)
    /\ snd (fst (tokenize_step i c rest)) = end_ t
    /\ start t = i /\ end_ t = i + 1 + length v
    /\ is_space c = false
    /\ (value t = c :: v
        \/ (value t = toUpperCase (c :: v)
            /\ (type t = ty_function \/ is_boolean (value t) = true))).
Proof.
  tokenize_step_cases c rest; intros H; try discriminate;
    injection H as <-; cbn [value type start end_];
    try (exists v; repeat split; auto; fail);
    try (exists []; repeat split; auto; fail).
Qed.

Lemma skipn_cons_length (A : Type) (l : list A) (i : nat) (a : A) (r : list A) :
  skipn i l = a :: r -> i < length l /\ skipn (S i) l = r.
Proof.
  revert i. induction l as [|b l IH]; intros [|i] H; simpl in *;
    try discriminate.
  - injection H as _ <-. split; [lia | reflexivity].
  - destruct (IH i H). split; [lia | assumption].
Qed.

Lemma skipn_add_app (A : Type) (l : list A) (i : nat) (a : A) (v r : list A) :
  skipn i l = (a :: v) ++ r ->
  skipn (i + length (a :: v)) l = r /\ i + length (a :: v) <= length l.
Proof.
  revert i a. induction v as [|b v IH]; intros i a H; simpl in *.
  - apply skipn_cons_length in H. destruct H as [Hlt H].
    replace (i + 1) with (S i) by lia. split; [assumption | lia].
  - apply skipn_cons_length in H. destruct H as [Hlt H].
    destruct (IH (S i) b H) as [H1 H2].
    replace (i + S (S (length v))) with (S i + S (length v)) by lia. auto.
Qed.

Lemma slice_app (s : jsstring) (i : nat) (v r : jsstring) :
  skipn i s = v ++ r -> slice s i (i + length v) = v.
Proof.
  intros H. unfold slice. rewrite H.
  replace (i + length v - i) with (length v) by lia.
  rewrite firstn_app, firstn_all, Nat.sub_diag. simpl. apply app_nil_r.
Qed.

Lemma slice_empty (s : jsstring) (i : nat) : slice s i i = [].
Proof. unfold slice. now rewrite Nat.sub_diag. Qed.

Lemma tokenize_loop_spans (formula : jsstring) (fuel i : nat) (s' : jsstring)
    (toks : list Token) :
  tokenize_loop fuel i s' = Ok toks ->
  skipn i formula = s' ->
  Forall (span_ok formula) toks.
Proof.
  intros Hrun. revert formula. revert Hrun.
  apply (tokenize_loop_ind
           (fun i s' toks => forall formula,
                skipn i formula = s' -> Forall (span_ok formula) toks));
    clear.
  - constructor.
  - intros i c rest toks IH formula Hskip.
    destruct (fst (fst (tokenize_step i c rest))) as [t|] eqn:E.
    + destruct (tokenize_step_token _ _ _ E)
        as (v & Hrest & Hi & Hstart & Hend & Hc & Hval).
      assert (Hs : skipn i formula = (c :: v) ++ snd (tokenize_step i c rest))
        by (rewrite Hskip; simpl; now rewrite <- Hrest).
      pose proof (slice_app _ _ _ _ Hs) as Hslice.
      apply skipn_add_app in Hs. destruct Hs as [Hs Hle]. simpl in Hs, Hle.
      simpl in Hslice.
      replace (i + S (length v)) with (i + 1 + length v) in * by lia.
      simpl. constructor.
      * unfold span_ok. rewrite Hstart, Hend, Hslice.
        repeat split; try lia.
        -- destruct Hval as [-> | [-> _]]; simpl;
             rewrite ?toUpperCase_length; lia.
        -- destruct Hval as [-> | [-> _]]; [reflexivity|].
           apply toUpperCase_idem.
        -- intros Hty Hb. destruct Hval as [-> | [_ [Hf | Hb']]];
             [reflexivity | contradiction | congruence].
      * apply IH. rewrite Hi, Hend. exact Hs.
    + destruct (tokenize_step_skips _ _ _ E) as [Hc Hr].
      simpl. apply IH. rewrite Hr.
      destruct (tokenize_step_consumes i c rest) as (v & Hv & Hi).
      rewrite Hr in Hv. assert (v = []) as ->.
      { apply (f_equal (@length _)) in Hv. rewrite length_app in Hv.
        destruct v; [reflexivity | simpl in Hv; lia]. }
      rewrite Hi. simpl.
      apply skipn_cons_length in Hskip. destruct Hskip as [_ Hskip].
      now replace (i + 1 + 0) with (S i) by lia.
Qed.

(** Only white space lies before, between and behind the spans. *)
Lemma gaps_blank_extend (s : jsstring) (i : nat) (c : char) (toks : list Token) :
  nth_error s i = Some c -> is_space c = true ->
  gaps_blank s (S i) toks -> gaps_blank s i toks.
Proof.
  intros Hn Hc. apply skipn_nth_error in Hn.
  destruct toks as [|t toks]; simpl.
  - intros H. rewrite Hn. simpl. now rewrite Hc.
  - intros (Hle & Hws & Hrest). repeat split; [lia | | assumption].
    unfold slice in *. rewrite Hn.
    replace (start t - i) with (S (start t - S i)) by lia.
    simpl. now rewrite Hc.
Qed.

Lemma tokenize_loop_gaps (formula : jsstring) (fuel i : nat) (s' : jsstring)
    (toks : list Token) :
  tokenize_loop fuel i s' = Ok toks ->
  skipn i formula = s' ->
  gaps_blank formula i toks.
Proof.
  intros Hrun. revert formula. revert Hrun.
  apply (tokenize_loop_ind
           (fun i s' toks => forall formula,
                skipn i formula = s' -> gaps_blank formula i toks));
    clear.
  - intros i formula H. simpl. now rewrite H.
  - intros i c rest toks IH formula Hskip.
    destruct (fst (fst (tokenize_step i c rest))) as [t|] eqn:E.
    + destruct (tokenize_step_token _ _ _ E)
        as (v & Hrest & Hi & Hstart & Hend & Hc & Hval).
      assert (Hs : skipn i formula = (c :: v) ++ snd (tokenize_step i c rest))
        by (rewrite Hskip; simpl; now rewrite <- Hrest).
      apply skipn_add_app in Hs. destruct Hs as [Hs Hle]. simpl in Hs, Hle.
      replace (i + S (length v)) with (i + 1 + length v) in * by lia.
      cbn [push gaps_blank]. rewrite Hstart.
      repeat split; [lia | now rewrite slice_empty |].
      rewrite Hi in IH. apply IH. rewrite Hend. exact Hs.
    + destruct (tokenize_step_skips _ _ _ E) as [Hc Hr].
      simpl.
      destruct (tokenize_step_consumes i c rest) as (v & Hv & Hi).
      rewrite Hr in Hv. assert (v = []) as ->.
      { apply (f_equal (@length _)) in Hv. rewrite length_app in Hv.
        destruct v; [reflexivity | simpl in Hv; lia]. }
      apply gaps_blank_extend with (c := c); [| assumption |].
      * destruct (nth_error formula i) as [d|] eqn:En.
        -- apply skipn_nth_error in En. congruence.
        -- apply nth_error_None in En. rewrite skipn_all2 in Hskip by lia.
           discriminate.
      * pose proof Hskip as Hskip'.
        apply skipn_cons_length in Hskip'. destruct Hskip' as [_ Hskip'].
        specialize (IH formula). rewrite Hi, Hr in IH. simpl in IH.
        replace (i + 1 + 0) with (S i) in IH by lia. now apply IH.
Qed.

(** Every token of a run was pushed by the iteration entered at its start. *)
Lemma tokenize_loop_origin (formula : jsstring) (fuel i : nat) (s' : jsstring)
    (toks : list Token) :
  tokenize_loop fuel i s' = Ok toks ->
  skipn i formula = s' ->
  Forall (fun t =>
            exists c rest,
              skipn (start t) formula = c :: rest
              /\ fst (fst (tokenize_step (start t) c rest)) = Some t
              /\ skipn (end_ t) formula = snd (tokenize_step (start t) c rest))
         toks.
Proof.
  intros Hrun. revert formula. revert Hrun.
  apply (tokenize_loop_ind
           (fun i s' toks => forall formula,
                skipn i formula = s' ->
                Forall (fun t =>
                          exists c rest,
                            skipn (start t) formula = c :: rest
                            /\ fst (fst (tokenize_step (start t) c rest))
                               = Some t
                            /\ skipn (end_ t) formula
                               = snd (tokenize_step (start t) c rest))
                       toks));
    clear.
  - constructor.
  - intros i c rest toks IH formula Hskip.
    destruct (tokenize_step_consumes i c rest) as (v & Hv & Hi).
    assert (Hs : skipn i formula = (c :: v) ++ snd (tokenize_step i c rest))
      by (rewrite Hskip; simpl; now rewrite <- Hv).
    apply skipn_add_app in Hs. destruct Hs as [Hs _]. simpl in Hs.
    replace (i + S (length v)) with (i + 1 + length v) in Hs by lia.
    rewrite <- Hi in Hs. specialize (IH formula Hs).
    destruct (fst (fst (tokenize_step i c rest))) as [t|] eqn:E;
      cbn [push]; [|exact IH].
    constructor; [|exact IH].
    destruct (tokenize_step_token _ _ _ E)
      as (v' & _ & Hi' & Hstart & _).
    exists c, rest. rewrite Hstart. repeat split; auto.
    now rewrite <- Hi'.
Qed.

Lemma hd_error_skipn (A : Type) (l : list A) (n : nat) :
  hd_error (skipn n l) = nth_error l n.
Proof.
  revert l. induction n as [|n IH]; intros [|a l]; simpl; auto.
Qed.

(** The code unit behind the stretch an iteration scanned is one the token
    does not go on with. *)
Lemma tokenize_step_follows (i : nat) (c : char) (rest : jsstring) (t : Token) :
  fst (fst (tokenize_step i c rest)) = Some t ->
  follows_ok t (hd_error (snd (tokenize_step i c rest))) = true.
Proof.
  pose proof (span_snd_head is_number_char rest) as Hnum.
  pose proof (span_snd_head is_ident_char rest) as Hid.
  unfold tokenize_step.
  destruct (is_space c) eqn:Hspace; [discriminate|].
  destruct (c =? ch_lbrace)%N eqn:Hlbrace.
  { destruct (scan_field rest) as [v r]. intros H. injection H as <-.
    reflexivity. }
  destruct (is_quote c) eqn:Hquote.
  { destruct (scan_string c false rest) as [v r]. intros H.
    injection H as <-. reflexivity. }
  destruct (is_digit c) eqn:Hdigit.
  { destruct (span is_number_char rest) as [v r]. intros H.
    injection H as <-. unfold follows_ok. cbn [type value fst snd].
    rewrite Hdigit. destruct r as [|d r]; [reflexivity|].
    simpl in *. now rewrite (Hnum d r eq_refl). }
  destruct (is_arith_op c) eqn:Harith.
  { intros H. injection H as <-. unfold follows_ok. cbn [type value].
    assert (is_cmp_op c = false) as -> by class_neg Harith. reflexivity. }
  destruct (is_cmp_op c) eqn:Hcmp.
  { destruct rest as [|d rest']; cbn [scan_cmp].
    - intros H. injection H as <-. unfold follows_ok. cbn [type value].
      rewrite Hcmp. reflexivity.
    - destruct (d =? ch_eq)%N eqn:Hd.
      + intros H. injection H as <-. reflexivity.
      + intros H. injection H as <-. unfold follows_ok. cbn [type value].
        rewrite Hcmp. simpl. now rewrite Hd. }
  destruct (c =? ch_lparen)%N; [intros H; injection H as <-; reflexivity|].
  destruct (c =? ch_rparen)%N; [intros H; injection H as <-; reflexivity|].
  destruct (c =? ch_comma)%N; [intros H; injection H as <-; reflexivity|].
  destruct (is_ident_start c) eqn:Hident.
  - destruct (span is_ident_char rest) as [v r]. cbn [snd] in Hid.
    destruct (starts_with ch_lparen r) eqn:Hcall.
    + intros H. injection H as <-. unfold follows_ok. cbn [type value snd].
      destruct r as [|d r]; [discriminate|]. exact Hcall.
    + assert (Hnext : negb (opt_test is_ident_char (hd_error r))
                      && negb (opt_test is_lparen (hd_error r)) = true).
      { destruct r as [|d r]; [reflexivity|]. simpl in *.
        rewrite (Hid d r eq_refl). unfold is_lparen. now rewrite Hcall. }
      destruct (is_boolean (toUpperCase (c :: v))) eqn:Hbool.
      * intros H. injection H as <-. unfold follows_ok.
        cbn [type value snd toUpperCase map].
        pose proof (upper_char_ident_start c Hident) as Hu.
        assert (is_digit (upper_char c) = false) as -> by class_neg Hu.
        exact Hnext.
      * intros H. injection H as <-. unfold follows_ok.
        cbn [type value snd]. rewrite Hident. exact Hnext.
  - intros H. injection H as <-. unfold follows_ok. cbn [type value].
    now rewrite Hident.
Qed.

(** A literal that is not closed took the rest of the input. *)
Lemma scan_field_open (l : jsstring) :
  In ch_rbrace (fst (scan_field l)) \/ snd (scan_field l) = [].
Proof.
  unfold scan_field.
  destruct (span (fun c => negb (c =? ch_rbrace)%N) l) as [body r] eqn:E.
  destruct r as [|c r]; [now right|]. left. simpl.
  apply in_or_app. right. left.
  pose proof (span_snd_head (fun c => negb (c =? ch_rbrace)%N) l) as H.
  rewrite E in H. specialize (H c r eq_refl).
  apply negb_false_iff, N.eqb_eq in H. now subst.
Qed.

Lemma scan_string_open (q : char) (e : bool) (l : jsstring) :
  string_closed q e (fst (scan_string q e l)) = true
  \/ snd (scan_string q e l) = [].
Proof.
  revert e. induction l as [|c l IH]; intros e; simpl; [now right|].
  destruct e.
  - specialize (IH false). destruct (scan_string q false l). simpl in *.
    exact IH.
  - destruct (c =? ch_backslash)%N eqn:Hb.
    + specialize (IH true). destruct (scan_string q true l). simpl in *.
      now rewrite Hb.
    + destruct (c =? q)%N eqn:Hq.
      * left. simpl. now rewrite Hb, Hq.
      * specialize (IH false). destruct (scan_string q false l). simpl in *.
        now rewrite Hb, Hq.
Qed.

Lemma tokenize_step_open (i : nat) (c : char) (rest : jsstring) (t : Token) :
  fst (fst (tokenize_step i c rest)) = Some t ->
  match type t, value t with
  | ty_field, _ :: v => In ch_rbrace v \/ snd (tokenize_step i c rest) = []
  | ty_string, q :: v =>
      string_closed q false v = true \/ snd (tokenize_step i c rest) = []
  | _, _ => True
  end.
Proof.
  pose proof (scan_field_open rest) as Hf.
  pose proof (scan_string_open c false rest) as Hs.
  tokenize_step_cases c rest; intros H; try discriminate;
    injection H as <-; cbn [type value]; auto.
Qed.

Lemma skipn_nil_length (A : Type) (l : list A) (n : nat) :
  skipn n l = [] -> length l <= n.
Proof.
  revert l. induction n as [|n IH]; intros [|a l] H; simpl in *;
    try discriminate; try lia.
  specialize (IH l H). lia.
Qed.

(** Neighbouring tokens of a sequence whose gaps are blank. *)
Lemma gaps_blank_nth (s : jsstring) (toks : list Token) (pos k : nat)
    (t t' : Token) :
  gaps_blank s pos toks ->
  nth_error toks k = Some t -> nth_error toks (S k) = Some t' ->
  end_ t <= start t'
  /\ forallb is_space (slice s (end_ t) (start t')) = true.
Proof.
  revert pos k. induction toks as [|a toks IH]; intros pos [|k] H Ht Ht';
    simpl in *; try discriminate.
  - injection Ht as ->. destruct toks as [|b toks]; [discriminate|].
    injection Ht' as ->. destruct H as (_ & _ & H). simpl in H. tauto.
  - destruct H as (_ & _ & H). eapply IH; eauto.
Qed.

Lemma functions_called_nth (toks : list Token) (k : nat) (t : Token) :
  functions_called toks = true ->
  nth_error toks k = Some t -> type t = ty_function ->
  exists t', nth_error toks (S k) = Some t'
             /\ opt_test is_lparen (hd_error (value t')) = true.
Proof.
  revert k. induction toks as [|a toks IH]; intros [|k] H Ht Hty;
    simpl in *; try discriminate.
  - injection Ht as ->. apply andb_true_iff in H as [H _].
    unfold is_type in H. rewrite Hty in H. simpl in H.
    destruct toks as [|b toks]; [discriminate|]. simpl in *. eauto.
  - apply andb_true_iff in H as [_ H]. eauto.
Qed.

Lemma slice_cons (s : jsstring) (a b : nat) (c : char) :
  a < b -> nth_error s a = Some c ->
  exists r, slice s a b = c :: r.
Proof.
  intros Hab Hn. unfold slice. rewrite (skipn_nth_error _ _ Hn).
  destruct (b - a) as [|n] eqn:E; [lia|]. simpl. eauto.
Qed.

(** ** Further properties of the layout lexer *)


(** X2.  The tokens of [tokenize] come in the order of the formula and
    their spans do not overlap: every token starts at or behind the end of
    the one before it.  What lies before the first token, between two
    tokens and behind the last one is white space only, so no code unit
    that is not white space is left out of the tokens. *)
Theorem tokenize_spans_tile_formula (s : jsstring) :
  exists toks, tokenize s = Ok toks /\ gaps_blank s 0 toks.
Proof.
  destruct (tokenize_total s) as [toks Hrun]. exists toks. split; [assumption|].
  exact (@tokenize_loop_gaps s _ 0 s toks Hrun eq_refl).
Qed.

(** X3.  Every token of [tokenize] has a text of the shape of its kind
    ([lexed]): a field reference starts with an opening brace, a string
    with a quote, a number is a digit followed by digits and dots or is
    TRUE or FALSE, an operator is one arithmetic sign or a comparison sign
    with an optional [=], commas and parentheses are single code units, a
    function name is an upper-case identifier, and an unknown token is an
    identifier that is not a Boolean literal or one other code unit.  No
    token has the kind whitespace and no token has an empty text. *)
Theorem tokenize_token_shapes (s : jsstring) :
  exists toks,
    tokenize s = Ok toks
    /\ Forall (fun t => lexed t = true
                        /\ type t <> ty_whitespace /\ value t <> []) toks.
Proof.
  destruct (tokenize_total s) as [toks Hrun]. exists toks. split; [assumption|].
  eapply Forall_impl; [|exact (@tokenize_lexed s toks Hrun)].
  intros t Hlex. split; [assumption|]. unfold lexed in Hlex.
  destruct (value t) as [|c v]; [discriminate|].
  split; [|discriminate]. intros Hty. rewrite Hty in Hlex. discriminate.
Qed.

(** X4.  In the token sequence of [tokenize] a function token is never the
    last one: the token behind it is an open-paren token, and it starts
    exactly where the function token ends. *)
Theorem function_token_before_paren_open (s : jsstring) :
  exists toks,
    tokenize s = Ok toks
    /\ forall k t,
        nth_error toks k = Some t -> type t = ty_function ->
        exists t', nth_error toks (S k) = Some t'
                   /\ type t' = ty_paren_open /\ start t' = end_ t.
Proof.
  destruct (tokenize_total s) as [toks Hrun]. exists toks. split; [assumption|].
  intros k t Ht Hty.
  destruct (@functions_called_nth toks k t) as (t' & Ht' & Hhead);
    [now apply (@tokenize_functions_called s) | assumption | assumption |].
  exists t'. split; [assumption|]. split.
  - apply lexed_lparen_head; [|assumption].
    pose proof (@tokenize_lexed s toks Hrun) as Hlex.
    rewrite Forall_forall in Hlex. apply Hlex. eapply nth_error_In; eauto.
  - pose proof (@tokenize_loop_gaps s _ 0 s toks Hrun eq_refl) as Hgaps.
    destruct (@gaps_blank_nth s toks 0 k t t' Hgaps Ht Ht') as [Hle Hws].
    pose proof (@tokenize_function_adjacent s toks t Hrun
                  (nth_error_In _ _ Ht) Hty) as Hparen.
    destruct (Nat.eq_dec (start t') (end_ t)) as [|Hne]; [assumption|].
    exfalso. destruct (@slice_cons s (end_ t) (start t') ch_lparen)
      as [r Hr]; [lia | assumption |].
    rewrite Hr in Hws. discriminate.
Qed.

(** X5.  A literal that is not closed runs to the end of the formula: a
    field token without a closing brace, and a string token whose body does
    not end with its closing quote ([string_closed]: a quote behind a
    backslash does not close), end where the formula ends. *)
Theorem unterminated_literal_runs_to_end (s : jsstring) :
  exists toks,
    tokenize s = Ok toks
    /\ Forall (fun t =>
                 match type t, value t with
                 | ty_field, _ :: body =>
                     ~ In ch_rbrace body -> end_ t = length s
                 | ty_string, q :: body =>
                     string_closed q false body = false -> end_ t = length s
                 | _, _ => True
                 end) toks.
Proof.
  destruct (tokenize_total s) as [toks Hrun]. exists toks. split; [assumption|].
  pose proof (@tokenize_loop_spans s _ 0 s toks Hrun eq_refl) as Hspan.
  pose proof (@tokenize_loop_origin s _ 0 s toks Hrun eq_refl) as Horig.
  rewrite Forall_forall in *. intros t Hin.
  destruct (Horig t Hin) as (c & rest & _ & Hstep & Hend).
  destruct (Hspan t Hin) as (_ & Hle & _).
  pose proof (@tokenize_step_open _ _ _ _ Hstep) as Hopen.
  destruct (type t); try exact I; destruct (value t) as [|q body];
    try exact I; intros Hbody; destruct Hopen as [Hclosed | Hnil];
    try contradiction; try congruence;
    rewrite Hnil in Hend; apply skipn_nil_length in Hend; lia.
Qed.

(** X6.  Every token of [tokenize] is as long as it can be: the code unit
    of the formula at the end of a token ([follows_ok]) is no digit and no
    dot behind a number, no identifier character and no opening parenthesis
    behind an identifier that is not a function name, no [=] behind a
    single comparison sign, and the opening parenthesis behind a function
    name. *)
Theorem tokens_are_maximal (s : jsstring) :
  exists toks,
    tokenize s = Ok toks
    /\ Forall (fun t => follows_ok t (nth_error s (end_ t)) = true) toks.
Proof.
  destruct (tokenize_total s) as [toks Hrun]. exists toks. split; [assumption|].
  pose proof (@tokenize_loop_origin s _ 0 s toks Hrun eq_refl) as Horig.
  rewrite Forall_forall in *. intros t Hin.
  destruct (Horig t Hin) as (c & rest & _ & Hstep & Hend).
  rewrite <- hd_error_skipn, Hend. now apply tokenize_step_follows.
Qed.

(** ** The two lexers side by side *)

Lemma forallb_app_r (A : Type) (p : A -> bool) (a b : list A) :
  forallb p (a ++ b) = true -> forallb p b = true.
Proof. rewrite forallb_app. now intros [_ H]%andb_true_iff. Qed.

Lemma dropWhile_none (p : char -> bool) (l : jsstring) :
  forallb (fun c => negb (p c)) l = true -> dropWhile p l = l.
Proof.
  destruct l as [|c l]; simpl; [reflexivity|].
  intros [H _]%andb_true_iff. apply negb_true_iff in H. now rewrite H.
Qed.

(** On input without white space an iteration of the display lexer scans
    what the iteration of the layout lexer scans. *)
Lemma steps_agree (i : nat) (c : char) (rest : jsstring) :
  is_space c = false ->
  forallb (fun d => negb (is_space d)) rest = true ->
  exists t,
    fst (fst (tokenize_step i c rest)) = Some t
    /\ highlight_step c rest = (to_display t, snd (tokenize_step i c rest)).
Proof.
  intros Hc Hrest. unfold highlight_step.
  tokenize_step_cases c rest; try discriminate;
    try (eexists; split; [reflexivity|]; reflexivity).
  all: assert (Hr : dropWhile is_space r = r)
    by (apply dropWhile_none; rewrite <- Hscan in Hrest;
        now apply forallb_app_r in Hrest).
  all: rewrite Hr, Hcall; try rewrite Hbool; eexists; split; reflexivity.
Qed.

Lemma loops_agree (fuel i : nat) (s : jsstring) (toks : list Token) :
  forallb (fun d => negb (is_space d)) s = true ->
  tokenize_loop fuel i s = Ok toks ->
  highlight_loop fuel s = Ok (map to_display toks).
Proof.
  revert i s toks. induction fuel as [|fuel IH]; intros i s toks Hs Hrun.
  - destruct s; simpl in *; [|discriminate]. now injection Hrun as <-.
  - destruct s as [|c rest]; simpl in *; [now injection Hrun as <-|].
    apply andb_true_iff in Hs as [Hc Hrest]. apply negb_true_iff in Hc.
    destruct (@steps_agree i c rest Hc Hrest) as (t & Htok & Hhl).
    destruct (tokenize_step_consumes i c rest) as (v & Hv & _).
    rewrite Hhl.
    destruct (tokenize_step i c rest) as [[tok i'] r]. simpl in *. subst tok.
    destruct (tokenize_loop fuel i' r) as [toks'|e] eqn:E; simpl in Hrun;
      [|discriminate].
    injection Hrun as <-.
    rewrite (IH i' r toks'); [reflexivity | | assumption].
    rewrite Hv in Hrest. now apply forallb_app_r in Hrest.
Qed.

(** Every token an iteration of the display lexer pushes has one of the
    texts of its kind. *)
Lemma highlight_step_shown (c : char) (rest : jsstring) :
  shown (fst (highlight_step c rest)) = true.
Proof.
  unfold highlight_step.
  destruct (c =? ch_lbrace)%N eqn:Hlbrace.
  { destruct (scan_field rest). exact Hlbrace. }
  destruct (is_quote c) eqn:Hquote.
  { destruct (scan_string c false rest). exact Hquote. }
  destruct (is_digit c) eqn:Hdigit.
  { pose proof (span_fst_forallb is_number_char rest) as Hall.
    destruct (span is_number_char rest). unfold shown. simpl in *.
    now rewrite Hdigit, Hall. }
  destruct (is_arith_op c) eqn:Harith.
  { unfold shown. simpl. now rewrite Harith. }
  destruct (is_cmp_op c) eqn:Hcmp.
  { pose proof (scan_cmp_cases rest) as Hall.
    destruct (scan_cmp rest). unfold shown. simpl in *.
    rewrite Harith, Hcmp. simpl. destruct Hall as [-> | ->]; reflexivity. }
  destruct ((c =? ch_lparen)%N || (c =? ch_rparen)%N || (c =? ch_comma)%N)
    eqn:Hpunct.
  { unfold shown. simpl. now rewrite Hpunct. }
  destruct (is_ident_start c) eqn:Hident.
  { pose proof (span_fst_forallb is_ident_char rest) as Hall.
    destruct (span is_ident_char rest) as [v r]. simpl in Hall.
    destruct (starts_with ch_lparen (dropWhile is_space r)).
    - unfold shown. cbn [fst text Highlighter.type toUpperCase map].
      rewrite (upper_char_ident_start c Hident).
      change (map upper_char v) with (toUpperCase v).
      rewrite (toUpperCase_ident_chars v Hall). simpl.
      change (jsstring_eqb (toUpperCase (toUpperCase (c :: v)))
                (toUpperCase (c :: v)) = true).
      rewrite toUpperCase_idem. apply jsstring_eqb_refl.
    - destruct (is_boolean (toUpperCase (c :: v))) eqn:Hbool.
      + unfold shown. cbn [fst text Highlighter.type toUpperCase map].
        change (upper_char c :: map upper_char v) with (toUpperCase (c :: v)).
        rewrite Hbool. apply orb_true_r.
      + unfold shown. cbn [fst text Highlighter.type].
        now rewrite Hident, Hall, Hbool. }
  destruct (is_space c) eqn:Hspace.
  { pose proof (span_fst_forallb is_space rest) as Hall.
    destruct (span is_space rest) as [v r]. unfold shown. simpl in *.
    rewrite Hident, Hspace, Hall. simpl. reflexivity. }
  apply orb_false_iff in Hpunct as [Hpunct Hcomma].
  apply orb_false_iff in Hpunct as [Hlparen Hrparen].
  unfold shown, is_other. simpl.
  rewrite Hspace, Hlbrace, Hquote, Hdigit, Harith, Hcmp, Hlparen,
    Hrparen, Hcomma, Hident. simpl. reflexivity.
Qed.

(** ** Further properties of the display lexer *)

(** X7.  On a formula without white space the two lexers make the same
    tokens: the display lexer returns the texts of the tokens of
    [tokenize], in order, each under the kind of the layout token
    ([display_kind]: commas and parentheses are punctuation, unknown tokens
    are plain text). *)
Theorem lexers_agree_without_white_space (s : jsstring) :
  forallb (fun c => negb (is_space c)) s = true ->
  exists toks,
    tokenize s = Ok toks
    /\ highlightAirtableFormula s = Ok (map to_display toks).
Proof.
  intros Hs. destruct (tokenize_total s) as [toks Hrun]. exists toks.
  split; [assumption|]. now apply (@loops_agree (length s) 0 s toks).
Qed.

Lemma lexers_agree_without_white_space_witness :
  exists toks,
    tokenize (str "if({a}>=1,sum(2.5)&'x',true)") = Ok toks
    /\ highlightAirtableFormula (str "if({a}>=1,sum(2.5)&'x',true)")
       = Ok (map to_display toks).
Proof.
  apply lexers_agree_without_white_space. vm_compute. reflexivity.
Defined.

(** X8.  A formula that is not empty and holds white space only has no
    token for the layout lexer, while the display lexer returns it whole as
    one token of plain text. *)
Theorem blank_formula_tokens (s : jsstring) :
  s <> [] -> forallb is_space s = true ->
  tokenize s = Ok []
  /\ highlightAirtableFormula s = Ok [mkHl s hl_text].
Proof.
  intros Hne Hs. split; [now apply tokenize_blank|].
  destruct s as [|c rest]; [congruence|]. simpl in Hs.
  apply andb_true_iff in Hs as [Hc Hrest].
  rewrite highlight_unfold. unfold highlight_step.
  other_classes c Hc. rewrite_false. rewrite Hc. simpl.
  replace (span is_space rest) with (rest, @nil char).
  - reflexivity.
  - symmetry. rewrite <- (app_nil_r rest) at 1.
    apply span_all; [assumption | exact I].
Qed.

Lemma blank_formula_tokens_witness :
  tokenize [ch_space; ch_tab; ch_nl] = Ok []
  /\ highlightAirtableFormula [ch_space; ch_tab; ch_nl]
     = Ok [mkHl [ch_space; ch_tab; ch_nl] hl_text].
Proof.
  apply blank_formula_tokens; [discriminate | vm_compute; reflexivity].
Defined.

(** X9.  The display lexer returns on every formula, and every token it
    returns has a text of the shape of its kind ([shown]): a field starts
    with an opening brace, a string with a quote, a number is a digit
    followed by digits and dots or is TRUE or FALSE, an operator is one
    arithmetic sign or a comparison sign with an optional [=], punctuation
    is one parenthesis or comma, a function name is an upper-case
    identifier, and plain text is an identifier that is not a Boolean
    literal, a run of white space, or one other code unit.  No token has an
    empty text, so there are at most as many tokens as code units. *)
Theorem highlight_token_shapes (s : jsstring) :
  exists toks,
    highlightAirtableFormula s = Ok toks
    /\ Forall (fun t => shown t = true /\ text t <> []) toks
    /\ length toks <= length s.
Proof.
  destruct (highlight_total s) as [toks Hrun]. exists toks.
  split; [assumption|].
  assert (Hshown : Forall (fun t => shown t = true /\ text t <> []) toks).
  { apply (@highlight_Forall (fun t => shown t = true /\ text t <> []))
      with (s := s); [|assumption].
    intros c rest. pose proof (highlight_step_shown c rest) as H.
    split; [assumption|]. unfold shown in H.
    destruct (text (fst (highlight_step c rest))); [discriminate|discriminate]. }
  split; [assumption|].
  destruct (@highlight_concat_bound s toks Hrun) as [Hlen _].
  apply Nat.le_trans with (2 := Hlen). clear Hrun Hlen.
  unfold concat_text. induction Hshown as [|t toks [_ Ht] _ IH]; simpl; [lia|].
  rewrite length_app. destruct (text t); [congruence|]. simpl. lia.
Qed.

(** ** The code units that are not white space, through the printer *)

Lemma visible_spaces (ws : jsstring) :
  forallb is_space ws = true -> visible ws = [].
Proof.
  induction ws as [|c ws IH]; simpl; [reflexivity|].
  intros H. apply andb_true_iff in H as [Hc Hws]. now rewrite Hc, IH.
Qed.

Lemma visible_cons (c : char) (l : jsstring) :
  visible (c :: l) = visible [c] ++ visible l.
Proof. apply (visible_app [c] l). Qed.

Lemma visible_upper (s : jsstring) :
  visible (toUpperCase s) = toUpperCase (visible s).
Proof.
  induction s as [|c s IH]; simpl; [reflexivity|].
  rewrite upper_char_space. destruct (is_space c); simpl; now rewrite IH.
Qed.

Lemma visible_join_lines (ls : list jsstring) :
  visible (join_lines ls) = concat (map visible ls).
Proof.
  induction ls as [|l ls IH]; [reflexivity|].
  destruct ls as [|l' ls].
  - simpl. now rewrite app_nil_r.
  - change (join_lines (l :: l' :: ls))
      with (l ++ ch_nl :: join_lines (l' :: ls)).
    rewrite visible_app, visible_cons, IH. reflexivity.
Qed.

Lemma visible_strip_trailing_spaces (l : jsstring) :
  visible (strip_trailing_spaces l) = visible l.
Proof.
  induction l as [|c l IH]; [reflexivity|]. cbn [strip_trailing_spaces].
  destruct ((c =? ch_space)%N && forallb (fun d => (d =? ch_space)%N) l)
    eqn:E.
  - apply andb_true_iff in E as [Hc Hl]. symmetry.
    apply visible_spaces. apply (spaces_are_space (c :: l)). simpl.
    now rewrite Hc, Hl.
  - rewrite visible_cons, IH. symmetry. apply visible_cons.
Qed.

Lemma visible_strip_trailing_ws (l : jsstring) :
  visible (strip_trailing_ws l) = visible l.
Proof.
  induction l as [|c l IH]; [reflexivity|]. cbn [strip_trailing_ws].
  destruct (is_space c && forallb is_space l) eqn:E.
  - symmetry. apply visible_spaces. exact E.
  - rewrite visible_cons, IH. symmetry. apply visible_cons.
Qed.

Lemma visible_dropWhile (l : jsstring) :
  visible (dropWhile is_space l) = visible l.
Proof.
  induction l as [|c l IH]; [reflexivity|]. simpl.
  destruct (is_space c) eqn:Hc; simpl; [exact IH | now rewrite Hc].
Qed.

Lemma firstn_span_blank (k : nat) (l : jsstring) :
  k <= length (fst (span is_space l)) ->
  forallb is_space (firstn k l) = true.
Proof.
  revert k. induction l as [|c l IH]; intros [|k] Hk; simpl in *;
    try reflexivity.
  destruct (is_space c) eqn:Hc; [|simpl in Hk; lia].
  destruct (span is_space l) as [a b]. simpl in *. apply IH. lia.
Qed.

Lemma visible_skipn_blank (k : nat) (l : jsstring) :
  forallb is_space (firstn k l) = true -> visible (skipn k l) = visible l.
Proof.
  intros H. rewrite <- (firstn_skipn k l) at 2.
  now rewrite visible_app, (@visible_spaces _ H).
Qed.

Lemma collapse_backtrack_spec (k : nat) (l : jsstring) (k' : nat) (c2 : char) :
  collapse_backtrack k l = Some (k', c2) ->
  k' <= k /\ nth_error l k' = Some c2.
Proof.
  induction k as [|k IH]; cbn [collapse_backtrack]; [discriminate|].
  destruct (S k <? 2); [discriminate|].
  destruct (nth_error l (S k)) as [d|] eqn:E.
  - destruct (is_space_or_tab d).
    + intros H. destruct (IH H). split; [lia | assumption].
    + intros H. injection H as <- <-. split; [lia | assumption].
  - intros H. destruct (IH H). split; [lia | assumption].
Qed.

Lemma visible_collapse_spaces_from (k : nat) (l : jsstring) :
  visible (collapse_spaces_from k l) = visible (skipn k l).
Proof.
  revert k. induction l as [|c l IH]; intros k.
  - now destruct k.
  - cbn [collapse_spaces_from]. destruct k as [|k]; [|apply IH].
    cbn [skipn]. unfold collapse_match.
    destruct (is_space_or_tab c).
    { rewrite visible_cons, IH. symmetry. apply visible_cons. }
    destruct (collapse_backtrack (length (fst (span is_space l))) l)
      as [[k' c2]|] eqn:E.
    + apply collapse_backtrack_spec in E. destruct E as [Hk Hn].
      replace (k' + 2 - 1) with (S k') by lia.
      rewrite visible_cons. rewrite (visible_cons c l). f_equal.
      rewrite visible_cons. cbn [app].
      replace (visible [ch_space]) with (@nil char) by reflexivity.
      cbn [app]. rewrite (visible_cons c2), IH.
      rewrite <- (@visible_skipn_blank k' l (@firstn_span_blank k' l Hk)).
      rewrite (@skipn_nth_error _ l k' c2 Hn). symmetry. apply visible_cons.
    + rewrite visible_cons, IH. symmetry. apply visible_cons.
Qed.

Lemma blank_backtrack_le (n : nat) (l : jsstring) (k : nat) :
  blank_backtrack n l = Some k ->
  k <= n /\ starts_with ch_nl (skipn k l) = true.
Proof.
  induction n as [|n IH]; cbn [blank_backtrack].
  - destruct (starts_with ch_nl (skipn 0 l)) eqn:E; [|discriminate].
    intros H. injection H as <-. auto.
  - destruct (starts_with ch_nl (skipn (S n) l)) eqn:E.
    + intros H. injection H as <-. auto.
    + intros H. destruct (IH H). split; [lia | assumption].
Qed.

Lemma span_fst_firstn (p : char -> bool) (l : jsstring) :
  firstn (length (fst (span p l))) l = fst (span p l).
Proof.
  rewrite <- (span_app p l) at 2.
  now rewrite firstn_app, firstn_all, Nat.sub_diag, app_nil_r.
Qed.

Lemma newlines_are_space (x : jsstring) :
  forallb (fun d => (d =? ch_nl)%N) x = true -> forallb is_space x = true.
Proof.
  induction x as [|c x IH]; simpl; [reflexivity|].
  intros H. apply andb_true_iff in H as [Hc Hx].
  apply N.eqb_eq in Hc. subst c. now rewrite IH.
Qed.

Lemma firstn_plus (A : Type) (a b : nat) (l : list A) :
  firstn (a + b) l = firstn a l ++ firstn b (skipn a l).
Proof.
  revert l. induction a as [|a IH]; intros [|x l]; simpl;
    try reflexivity.
  - now rewrite firstn_nil.
  - now rewrite IH.
Qed.

(** What a match of the blank-line expression passes over behind its first
    line feed is white space. *)
Lemma blank_match_blank (c : char) (l : jsstring) (len : nat) :
  blank_match (c :: l) = Some len ->
  c = ch_nl /\ 2 <= len /\ forallb is_space (firstn (len - 1) l) = true.
Proof.
  unfold blank_match. destruct (c =? ch_nl)%N eqn:Hc; [|discriminate].
  apply N.eqb_eq in Hc.
  destruct (blank_backtrack (length (fst (span is_space l))) l) as [k|] eqn:E;
    [|discriminate].
  intros H. injection H as <-. apply blank_backtrack_le in E.
  destruct E as [Hk Hnl].
  set (m := length (fst (span (fun d => (d =? ch_nl)%N) (skipn k l)))).
  assert (Hm : 1 <= m).
  { unfold m. destruct (skipn k l) as [|d r]; [discriminate|]. simpl in *.
    rewrite Hnl. destruct (span _ r). simpl. lia. }
  split; [assumption|]. split; [lia|].
  replace (S (k + m) - 1) with (k + m) by lia.
  rewrite firstn_plus, forallb_app, (@firstn_span_blank k l Hk). simpl.
  unfold m. rewrite span_fst_firstn.
  apply newlines_are_space. apply span_fst_forallb.
Qed.

Lemma visible_collapse_blank_lines_from (k : nat) (l : jsstring) :
  visible (collapse_blank_lines_from k l) = visible (skipn k l).
Proof.
  revert k. induction l as [|c l IH]; intros k.
  - now destruct k.
  - cbn [collapse_blank_lines_from]. destruct k as [|k]; [|apply IH].
    cbn [skipn]. destruct (blank_match (c :: l)) as [len|] eqn:E.
    + apply blank_match_blank in E. destruct E as (-> & _ & Hblank).
      rewrite visible_cons, IH, (visible_cons ch_nl l).
      f_equal. now apply visible_skipn_blank.
    + rewrite visible_cons, IH. symmetry. apply visible_cons.
Qed.

(** The cleanup changes white space only. *)
Lemma visible_cleanup (x : jsstring) : visible (cleanup x) = visible x.
Proof.
  unfold cleanup, trim_ends, collapse_blank_lines.
  rewrite visible_strip_trailing_ws, visible_dropWhile,
    visible_collapse_blank_lines_from. cbn [skipn].
  rewrite visible_join_lines, map_map.
  rewrite <- (join_split_lines x) at 2. rewrite visible_join_lines.
  f_equal. apply map_ext. intros l. unfold clean_line, collapse_spaces.
  rewrite visible_collapse_spaces_from. cbn [skipn].
  apply visible_strip_trailing_spaces.
Qed.

(** The two ways [formatAirtableFormula] returns: the empty string on a
    blank formula, the cleaned-up text of the tokens on any other. *)
Lemma format_cases (s : jsstring) :
  (forallb is_space s = true /\ formatAirtableFormula s = Ok [])
  \/ (forallb is_space s = false
      /\ exists toks res,
          tokenize s = Ok toks /\ toks <> []
          /\ assemble toks = Ok res
          /\ formatAirtableFormula s = Ok (cleanup res)).
Proof.
  destruct (forallb is_space s) eqn:Hs.
  - left. split; [reflexivity | now apply format_blank].
  - right. split; [reflexivity|].
    destruct (tokenize_total s) as [toks Htok].
    pose proof (@tokenize_nonempty s toks Htok Hs) as Hne.
    destruct (assemble_ok toks) as [res Hres].
    exists toks, res. repeat split; try assumption.
    unfold formatAirtableFormula.
    rewrite trim_empty_iff_blank, Hs, Htok. cbn [bind].
    destruct toks as [|t toks]; [congruence|]. cbn [length Nat.eqb].
    now rewrite Hres.
Qed.

(** The tokens of [tokenize] hold the code units of the formula that are
    not white space, in order and up to the case of letters. *)
Lemma tokenize_visible (s : jsstring) (toks : list Token) :
  tokenize s = Ok toks ->
  visible (toUpperCase (concat (map value toks))) = visible (toUpperCase s).
Proof.
  unfold tokenize.
  apply (tokenize_loop_ind
           (fun _ s toks =>
              visible (toUpperCase (concat (map value toks)))
              = visible (toUpperCase s))).
  - reflexivity.
  - intros i c rest toks' IH.
    destruct (fst (fst (tokenize_step i c rest))) as [t|] eqn:E.
    + destruct (@tokenize_step_token i c rest t E)
        as (v & Hrest & _ & _ & _ & _ & Hval).
      cbn [push map concat].
      rewrite toUpperCase_app, visible_app, IH.
      assert (Hup : toUpperCase (value t) = toUpperCase (c :: v)).
      { destruct Hval as [-> | [-> _]]; [reflexivity|].
        apply toUpperCase_idem. }
      rewrite Hup, <- visible_app, <- toUpperCase_app.
      rewrite Hrest at 2. reflexivity.
    + destruct (@tokenize_step_skips i c rest E) as [Hc Hr].
      cbn [push]. rewrite IH, Hr. simpl.
      now rewrite upper_char_space, Hc.
Qed.

Lemma visible_indent (k : nat) : visible (ch_nl :: repeat ch_tab k) = [].
Proof.
  apply visible_spaces. simpl. induction k; simpl; auto.
Qed.

(** The emission pass prints the texts of the tokens, in order, and white
    space. *)
Lemma emit_loop_visible (fuel : nat) (toks : list Token) (i : nat)
    (st st' : State) :
  Forall (fun t => type t <> ty_whitespace) toks ->
  (0 <= indentLevel st)%Z ->
  emit_loop fuel toks i st = Ok st' ->
  visible (result_ st')
  = visible (result_ st) ++ visible (concat (map value (skipn i toks))).
Proof.
  intros Hty. revert i st.
  induction fuel as [|fuel IH]; intros i st Hlvl; cbn [emit_loop];
    destruct (i <? length toks) eqn:Hi; try discriminate.
  - intros H. injection H as <-. apply Nat.ltb_ge in Hi.
    rewrite skipn_all2 by assumption. simpl. now rewrite app_nil_r.
  - apply Nat.ltb_lt in Hi.
    destruct (@get_in_range toks i Hi) as (t & Hnth & _).
    assert (Ht : type t <> ty_whitespace).
    { rewrite Forall_forall in Hty. apply Hty. eapply nth_error_In; eauto. }
    destruct (@emit_step_pieces toks i st t Hnth Ht Hlvl)
      as (pre & post & lvl & ml & Hstep & Hlvl' & Hpre & Hpost).
    rewrite Hstep. cbn [bind]. intros Hrun.
    apply IH in Hrun; [|exact Hlvl']. rewrite Hrun. cbn [result_ indentLevel].
    rewrite (@skipn_nth_error _ toks i t Hnth). cbn [map concat].
    replace (i + 1) with (S i) by lia.
    rewrite !visible_app, <- !app_assoc.
    assert (Hp : visible pre = []).
    { destruct Hpre as [-> | [(-> & _) | ((k & ->) & _)]];
        try reflexivity. apply visible_indent. }
    assert (Hq : visible post = []).
    { destruct Hpost as [-> | ([-> | (k & ->)] & _)];
        try reflexivity. apply visible_indent. }
    now rewrite Hp, Hq.
  - intros H. injection H as <-. apply Nat.ltb_ge in Hi.
    rewrite skipn_all2 by assumption. simpl. now rewrite app_nil_r.
Qed.

Lemma lexed_not_whitespace (toks : list Token) :
  Forall (fun t => lexed t = true) toks ->
  Forall (fun t => type t <> ty_whitespace) toks.
Proof.
  apply Forall_impl. intros t Hlex Hty. unfold lexed in Hlex.
  rewrite Hty in Hlex. destruct (value t); discriminate.
Qed.

Lemma assemble_visible (s : jsstring) (toks : list Token) (res : jsstring) :
  tokenize s = Ok toks -> assemble toks = Ok res ->
  visible res = visible (concat (map value toks)).
Proof.
  intros Htok. unfold assemble.
  destruct (emit_loop (length toks) toks 0 initial_state) as [st|] eqn:E;
    [|discriminate].
  cbn [bind]. intros H. injection H as <-.
  apply emit_loop_visible in E; [exact E | | simpl; lia].
  apply lexed_not_whitespace. now apply (@tokenize_lexed s).
Qed.

(** ** Further properties of the pretty-printer *)

(** X10.  Printing changes white space and the case of letters only: the
    code units of the printed formula that are not white space are those
    of the formula, in the same order, up to the case of letters.  No
    other code unit is dropped, added or moved. *)
Theorem format_keeps_visible_text (s : jsstring) :
  exists r,
    formatAirtableFormula s = Ok r
    /\ visible (toUpperCase r) = visible (toUpperCase s).
Proof.
  destruct (format_cases s)
    as [[Hs Hfmt] | (Hs & toks & res & Htok & _ & Hasm & Hfmt)].
  - exists []. split; [assumption|]. symmetry. now apply visible_blank.
  - exists (cleanup res). split; [assumption|].
    rewrite visible_upper, visible_cleanup,
      (@assemble_visible s toks res Htok Hasm), <- visible_upper.
    now apply tokenize_visible.
Qed.

(** *** The ends of the printed text *)

Lemma dropWhile_head (p : char -> bool) (l : jsstring) :
  starts_with_not p (dropWhile p l).
Proof.
  induction l as [|c l IH]; simpl; [exact I|].
  destruct (p c) eqn:E; [exact IH | exact E].
Qed.

Lemma dropWhile_id (p : char -> bool) (l : jsstring) :
  starts_with_not p l -> dropWhile p l = l.
Proof. destruct l as [|c l]; simpl; [reflexivity|]. now intros ->. Qed.

Lemma strip_trailing_ws_nil (l : jsstring) :
  strip_trailing_ws l = [] -> forallb is_space l = true.
Proof.
  destruct l as [|c l]; [reflexivity|]. cbn [strip_trailing_ws].
  destruct (is_space c && forallb is_space l) eqn:E; [|discriminate].
  intros _. exact E.
Qed.

Lemma strip_trailing_ws_head (l : jsstring) :
  starts_with_not is_space l -> starts_with_not is_space (strip_trailing_ws l).
Proof.
  destruct l as [|c l]; [auto|]. cbn [strip_trailing_ws starts_with_not].
  intros Hc. rewrite Hc. simpl. exact Hc.
Qed.

Lemma strip_trailing_ws_last (l : jsstring) :
  starts_with_not is_space (rev (strip_trailing_ws l)).
Proof.
  induction l as [|c l IH]; [exact I|]. cbn [strip_trailing_ws].
  destruct (is_space c && forallb is_space l) eqn:E; [exact I|].
  cbn [rev]. destruct (rev (strip_trailing_ws l)) as [|d r] eqn:Er.
  - simpl. assert (Hnil : strip_trailing_ws l = []).
    { apply (f_equal (@rev char)) in Er. now rewrite rev_involutive in Er. }
    apply strip_trailing_ws_nil in Hnil. rewrite Hnil, andb_true_r in E.
    exact E.
  - exact IH.
Qed.

(** [trim_ends] leaves nothing for [String.prototype.trim] to strip. *)
Lemma trim_trim_ends (x : jsstring) : trim (trim_ends x) = trim_ends x.
Proof.
  unfold trim, trim_ends.
  rewrite (dropWhile_id is_space (strip_trailing_ws (dropWhile is_space x)))
    by (apply strip_trailing_ws_head, dropWhile_head).
  rewrite dropWhile_id by apply strip_trailing_ws_last.
  apply rev_involutive.
Qed.

(** X11.  The printed formula has no white space at its start and none at
    its end: [String.prototype.trim] would return it as it is.  It is empty
    exactly when the formula holds white space only. *)
Theorem format_result_is_trimmed (s : jsstring) :
  exists r,
    formatAirtableFormula s = Ok r
    /\ trim r = r
    /\ (r = [] <-> forallb is_space s = true).
Proof.
  destruct (format_cases s)
    as [[Hs Hfmt] | (Hs & toks & res & Htok & _ & Hasm & Hfmt)].
  - exists []. repeat split; auto.
  - exists (cleanup res). split; [assumption|]. split.
    + unfold cleanup. apply trim_trim_ends.
    + split; [|congruence]. intros Hnil. exfalso.
      assert (Hvis : visible (toUpperCase s) = []).
      { rewrite <- (@tokenize_visible s toks Htok), visible_upper,
          <- (@assemble_visible s toks res Htok Hasm), <- (visible_cleanup res),
          Hnil. reflexivity. }
      rewrite visible_upper in Hvis.
      assert (Hv : visible s = []) by (destruct (visible s); [auto|discriminate]).
      assert (Hall : forallb is_space s = true).
      { clear -Hv. induction s as [|c s IH]; [reflexivity|]. simpl in *.
        destruct (is_space c); simpl in *; [auto | discriminate]. }
      congruence.
Qed.

(** X12.  White space in front of a formula is ignored: the formula is
    printed as it is without it. *)
Theorem format_ignores_leading_white_space (ws s : jsstring) :
  forallb is_space ws = true ->
  formatAirtableFormula (ws ++ s) = formatAirtableFormula s.
Proof.
  intros Hws.
  assert (Hblank : forallb is_space (ws ++ s) = forallb is_space s)
    by (rewrite forallb_app, Hws; reflexivity).
  pose proof (@token_kinds_skip ws s Hws) as Hkinds.
  unfold token_kinds in Hkinds.
  unfold formatAirtableFormula. rewrite !trim_empty_iff_blank, Hblank.
  destruct (forallb is_space s) eqn:Hs; [reflexivity|].
  destruct (tokenize_total (ws ++ s)) as [toks1 H1].
  destruct (tokenize_total s) as [toks2 H2].
  pose proof (@tokenize_nonempty s toks2 H2 Hs) as Hne.
  rewrite H1, H2 in *. cbn [bind] in *. injection Hkinds as Hkinds.
  rewrite (@kind_text_length toks1 toks2 Hkinds).
  destruct toks2 as [|t toks2]; [congruence|]. cbn [length Nat.eqb].
  now rewrite (@assemble_ext toks1 (t :: toks2) Hkinds).
Qed.

Lemma format_ignores_leading_white_space_witness :
  formatAirtableFormula ([ch_space; ch_nl; ch_tab] ++ str "sum(a , 1)")
  = formatAirtableFormula (str "sum(a , 1)").
Proof.
  apply format_ignores_leading_white_space. reflexivity.
Defined.

(** X13.  Throughout the emission loop the multi-line flag is set exactly
    when the indent level is positive, and the indent level is never
    negative: the initial state is so, and every iteration that starts in
    such a state ends in one. *)
Theorem multi_line_flag_tracks_indent :
  flag_tracks_indent initial_state
  /\ forall (tokens : list Token) (i : nat) (st st' : State),
      flag_tracks_indent st ->
      emit_step tokens i st = Ok st' ->
      flag_tracks_indent st'.
Proof.
  split; [split; [simpl; lia | reflexivity]|].
  intros tokens i st st' [Hlvl Hml]. unfold emit_step.
  destruct (get tokens i) as [t|]; [|discriminate]. cbn [bind].
  destruct (type t).
  - intros H. injection H as <-. split; assumption.
  - intros H. injection H as <-. split; assumption.
  - intros H. injection H as <-. split; assumption.
  - intros H. injection H as <-. split; assumption.
  - intros H. injection H as <-. split; assumption.
  - destruct (defined_and _ _).
    + destruct (addIndent (indentLevel st)); [|discriminate]. cbn [bind].
      intros H. injection H as <-. split; assumption.
    + intros H. injection H as <-. split; assumption.
  - destruct (shouldBreakAfterParenOpen tokens i) as [[|]|];
      [| |discriminate]; cbn [bind].
    + destruct (addIndent (indentLevel st + 1)); [|discriminate].
      cbn [bind]. intros H. injection H as <-. split; cbn; [lia|].
      symmetry. apply Z.ltb_lt. lia.
    + intros H. injection H as <-. split; assumption.
  - match goal with
    | |- (res <- ?m ;; _) = _ -> _ => destruct m; [|discriminate]
    end.
    cbn [bind]. intros H. injection H as <-.
    unfold flag_tracks_indent. cbn [indentLevel isMultiLine].
    destruct (0 <? indentLevel st)%Z eqn:E.
    + apply Z.ltb_lt in E.
      destruct (Z.max 0 (indentLevel st - 1) =? 0)%Z eqn:E0.
      * apply Z.eqb_eq in E0. rewrite E0. split; [lia | reflexivity].
      * apply Z.eqb_neq in E0. split; [lia|]. rewrite Hml.
        symmetry. apply Z.ltb_lt. lia.
    + apply Z.ltb_ge in E. assert (indentLevel st = 0%Z) as -> by lia.
      simpl. split; [lia | reflexivity].
  - intros H. injection H as <-. split; assumption.
  - intros H. injection H as <-. split; assumption.
Qed.

Lemma multi_line_flag_tracks_indent_witness :
  flag_tracks_indent
    (mkState [ch_lparen; ch_nl; ch_tab] 1 true).
Proof.
  apply (proj2 multi_line_flag_tracks_indent
           [mkToken ty_paren_open [ch_lparen] 0 1;
            mkToken ty_unknown (str "a") 1 2;
            mkToken ty_comma [ch_comma] 2 3;
            mkToken ty_unknown (str "b") 3 4;
            mkToken ty_paren_close [ch_rparen] 4 5]
           0 initial_state).
  - exact (proj1 multi_line_flag_tracks_indent).
  - reflexivity.
Defined.

(** X14.  A formula whose tokens are stable ([stable_formula]: closed
    literals without line feeds or doubled white space, and no token that
    would fuse with the next one) is printed into a text that [tokenize]
    lexes into the same kinds and texts of tokens, in the same order:
    printing such a formula changes only the white space between its
    tokens. *)
Theorem format_preserves_tokens_of_stable_formulas (s : jsstring) :
  stable_formula s = true ->
  exists r,
    formatAirtableFormula s = Ok r /\ token_kinds r = token_kinds s.
Proof.
  unfold stable_formula. intros Hst.
  destruct (tokenize s) as [toks|e] eqn:Htok; [|discriminate].
  destruct (format_cases s)
    as [[Hs Hfmt] | (Hs & toks' & res & Htok' & Hne & Hasm & Hfmt)].
  - exists []. split; [assumption|].
    unfold token_kinds. now rewrite (@tokenize_blank s Hs).
  - assert (toks' = toks) by congruence. subst toks'.
    destruct (@assemble_stable toks Hne (@tokenize_lexed s toks Htok)
                (@tokenize_functions_called s toks Htok) Hst)
      as (res' & Hasm' & Hclean & Hkinds).
    assert (res' = res) by congruence. subst res'.
    exists (cleanup res). split; [assumption|].
    rewrite Hclean, Hkinds. unfold token_kinds. now rewrite Htok.
Qed.

Lemma format_preserves_tokens_of_stable_formulas_witness :
  exists r,
    formatAirtableFormula (str "if( {a b} >= 1 , sum(2.5 , x) , true )")
    = Ok r
    /\ token_kinds r
       = token_kinds (str "if( {a b} >= 1 , sum(2.5 , x) , true )").
Proof.
  apply format_preserves_tokens_of_stable_formulas. vm_compute. reflexivity.
Defined.

(** X15.  The cleanup leaves tidy text as it is: a text that starts and
    ends with a code unit that is not white space, and whose white space is
    either one white-space code unit other than a line feed between two
    code units that are not white space, or a line feed followed by tabs
    only, up to the next such code unit ([layout_run]). *)
Theorem cleanup_keeps_tidy_text (x : jsstring) :
  layout_run at_start x = Some after_text -> cleanup x = x.
Proof. apply cleanup_tidy. Qed.

Lemma cleanup_keeps_tidy_text_witness :
  cleanup (str "IF(" ++ [ch_nl; ch_tab] ++ str "a = 1," ++ [ch_nl; ch_tab]
           ++ str "b" ++ [ch_nl] ++ str ")")
  = str "IF(" ++ [ch_nl; ch_tab] ++ str "a = 1," ++ [ch_nl; ch_tab]
    ++ str "b" ++ [ch_nl] ++ str ")".
Proof.
  apply cleanup_keeps_tidy_text. reflexivity.
Defined.

(** *** No blank line is left in the printed text *)

Lemma collapse_blank_lines_skip (k : nat) (l : jsstring) :
  collapse_blank_lines_from k l = collapse_blank_lines_from 0 (skipn k l).
Proof.
  revert k. induction l as [|c l IH]; intros [|k]; try reflexivity.
  cbn [collapse_blank_lines_from skipn]. apply IH.
Qed.

Lemma collapse_blank_lines_no_nl (w rest : jsstring) :
  no_newline w = true ->
  collapse_blank_lines_from 0 (w ++ rest)
  = w ++ collapse_blank_lines_from 0 rest.
Proof.
  unfold no_newline.
  induction w as [|c w IH]; [reflexivity|]. cbn [forallb].
  intros H. apply andb_true_iff in H as [Hc Hw]. apply negb_true_iff in Hc.
  cbn [app collapse_blank_lines_from blank_match]. rewrite Hc.
  now rewrite (IH Hw).
Qed.

Lemma not_space_not_nl (d : char) : is_space d = false -> (d =? ch_nl)%N = false.
Proof.
  intros H. destruct (d =? ch_nl)%N eqn:E; [|reflexivity].
  apply N.eqb_eq in E. subst d. discriminate.
Qed.

Lemma collapse_blank_lines_head (rest : jsstring) :
  starts_with_not is_space rest ->
  starts_with_not is_space (collapse_blank_lines_from 0 rest).
Proof.
  destruct rest as [|d rest]; [auto|]. cbn [starts_with_not].
  intros Hd. cbn [collapse_blank_lines_from blank_match].
  rewrite (not_space_not_nl _ Hd). exact Hd.
Qed.

Lemma no_nl_behind (b rest : jsstring) (i : nat) :
  no_newline b = true -> starts_with_not is_space rest ->
  i <= length b -> starts_with ch_nl (skipn i (b ++ rest)) = false.
Proof.
  unfold no_newline.
  revert i. induction b as [|c b IH]; intros i Hb Hrest Hi.
  - simpl in Hi. assert (i = 0) as -> by lia. simpl.
    destruct rest as [|d rest]; [reflexivity|]. simpl in *.
    now apply not_space_not_nl.
  - cbn [forallb] in Hb. apply andb_true_iff in Hb as [Hc Hb].
    apply negb_true_iff in Hc. destruct i as [|i]; [exact Hc|].
    simpl in *. apply IH; auto. lia.
Qed.

Lemma blank_backtrack_eq (k : nat) (l : jsstring) :
  blank_backtrack k l
  = if starts_with ch_nl (skipn k l) then Some k
    else match k with
         | O => None
         | S k' => blank_backtrack k' l
         end.
Proof. destruct k; reflexivity. Qed.

Lemma blank_backtrack_found (l : jsstring) (k j : nat) :
  starts_with ch_nl (skipn k l) = true ->
  (forall i, 1 <= i <= j -> starts_with ch_nl (skipn (k + i) l) = false) ->
  blank_backtrack (k + j) l = Some k.
Proof.
  intros Hk. induction j as [|j IH]; intros Hj.
  - rewrite Nat.add_0_r, blank_backtrack_eq. now rewrite Hk.
  - replace (k + S j) with (S (k + j)) by lia. rewrite blank_backtrack_eq.
    replace (S (k + j)) with (k + S j) by lia.
    rewrite (Hj (S j)) by lia.
    replace (k + S j) with (S (k + j)) by lia.
    apply IH. intros i Hi. apply Hj. lia.
Qed.

Lemma existsb_false_forallb (w : jsstring) :
  existsb is_newline w = false -> no_newline w = true.
Proof.
  unfold no_newline. induction w as [|c w IH]; [reflexivity|].
  cbn [existsb forallb]. unfold is_newline at 1.
  intros H. apply orb_false_iff in H as [Hc Hw]. rewrite Hc. simpl. auto.
Qed.

Lemma forallb_true_existsb (w : jsstring) :
  no_newline w = true -> existsb is_newline w = false.
Proof.
  unfold no_newline. induction w as [|c w IH]; [reflexivity|].
  cbn [existsb forallb]. unfold is_newline at 1.
  intros H. apply andb_true_iff in H as [Hc Hw].
  apply negb_true_iff in Hc. rewrite Hc. simpl. auto.
Qed.

Lemma last_nl_split (w : jsstring) :
  existsb is_newline w = true ->
  exists a b, w = a ++ ch_nl :: b /\ no_newline b = true.
Proof.
  induction w as [|c w IH]; [discriminate|]. cbn [existsb].
  destruct (existsb is_newline w) eqn:E.
  - intros _. destruct (IH eq_refl) as (a & b & -> & Hb).
    exists (c :: a), b. auto.
  - rewrite orb_false_r. unfold is_newline. intros Hc.
    apply N.eqb_eq in Hc. subst c.
    exists [], w. split; [reflexivity|]. now apply existsb_false_forallb.
Qed.

(** The blank-line expression tried at a line feed in front of [l]: there is
    no match when the white space at the head of [l] holds no line feed;
    otherwise the match ends with the last line feed of that white space. *)
Lemma blank_match_cases (l : jsstring) :
  (existsb is_newline (fst (span is_space l)) = false
   /\ blank_match (ch_nl :: l) = None)
  \/ (exists a b,
        fst (span is_space l) = a ++ ch_nl :: b
        /\ no_newline b = true
        /\ blank_match (ch_nl :: l) = Some (length a + 2)).
Proof.
  pose proof (span_app is_space l) as Happ.
  pose proof (span_snd_head is_space l) as Hhead.
  pose proof (span_fst_forallb is_space l) as Hws.
  destruct (span is_space l) as [w rest]. cbn [fst snd] in *.
  assert (Hrest : starts_with_not is_space rest).
  { destruct rest as [|d rest]; [exact I|]. simpl. eapply Hhead. reflexivity. }
  clear Hhead. unfold blank_match. rewrite N.eqb_refl.
  replace (fst (span is_space l)) with w
    by (rewrite <- Happ, span_all; auto).
  destruct (existsb is_newline w) eqn:E.
  - right. destruct (last_nl_split w E) as (a & b & -> & Hb).
    exists a, b. split; [reflexivity|]. split; [assumption|].
    rewrite <- app_assoc in Happ. cbn [app] in Happ.
    assert (Hskip : skipn (length a) l = ch_nl :: b ++ rest).
    { rewrite <- Happ, skipn_app, skipn_all, Nat.sub_diag. reflexivity. }
    rewrite length_app. cbn [length].
    rewrite (@blank_backtrack_found l (length a) (S (length b))).
    + rewrite Hskip. simpl.
      assert (H0 : starts_with ch_nl (b ++ rest) = false)
        by (apply (@no_nl_behind b rest 0); auto; lia).
      destruct (b ++ rest) as [|d r]; simpl in *.
      * f_equal. lia.
      * rewrite H0. simpl. f_equal. lia.
    + now rewrite Hskip.
    + intros i Hi. replace (length a + i) with (S (i - 1) + length a) by lia.
      rewrite <- skipn_skipn, Hskip. cbn [skipn].
      apply no_nl_behind; auto. lia.
  - left. split; [reflexivity|].
    rewrite blank_backtrack_none; [reflexivity|].
    intros k Hk. rewrite <- Happ. apply no_nl_behind; auto.
    now apply existsb_false_forallb.
Qed.

Lemma no_blank_line_nl (w x : jsstring) :
  forallb is_space w = true -> no_newline w = true ->
  starts_with_not is_space x ->
  no_blank_line (w ++ x) = true ->
  no_blank_line (ch_nl :: w ++ x) = true.
Proof.
  intros Hws Hnl Hx H. cbn [no_blank_line].
  rewrite (span_all is_space w x Hws Hx). cbn [fst].
  rewrite (forallb_true_existsb w Hnl), andb_false_r. exact H.
Qed.

Lemma collapse_blank_lines_no_blank_line (n : nat) (l : jsstring) :
  length l <= n ->
  no_blank_line (collapse_blank_lines_from 0 l) = true.
Proof.
  revert l. induction n as [|n IH]; intros l Hlen.
  - destruct l; [reflexivity | simpl in Hlen; lia].
  - destruct l as [|c l]; [reflexivity|]. simpl in Hlen.
    destruct (c =? ch_nl)%N eqn:Hc.
    + apply N.eqb_eq in Hc. subst c.
      pose proof (span_app is_space l) as Happ.
      pose proof (span_snd_head is_space l) as Hhead.
      pose proof (span_fst_forallb is_space l) as Hws.
      assert (Hrest : starts_with_not is_space (snd (span is_space l))).
      { destruct (snd (span is_space l)) as [|d rest]; [exact I|].
        simpl. eapply Hhead. reflexivity. }
      clear Hhead.
      cbn [collapse_blank_lines_from].
      destruct (blank_match_cases l) as [[Hno ->] | (a & b & Hw & Hb & ->)].
      * rewrite <- Happ at 1.
        rewrite collapse_blank_lines_no_nl
          by now apply existsb_false_forallb.
        apply no_blank_line_nl; auto.
        -- now apply existsb_false_forallb.
        -- now apply collapse_blank_lines_head.
        -- rewrite <- collapse_blank_lines_no_nl
             by now apply existsb_false_forallb.
           rewrite Happ. apply IH. lia.
      * replace (length a + 2 - 1) with (S (length a)) by lia.
        rewrite collapse_blank_lines_skip.
        rewrite Hw in Happ, Hws.
        rewrite <- app_assoc in Happ. cbn [app] in Happ.
        assert (Hskip : skipn (S (length a)) l = b ++ snd (span is_space l)).
        { rewrite <- Happ at 1.
          replace (S (length a)) with (1 + length a) by lia.
          rewrite <- skipn_skipn, skipn_app, skipn_all, Nat.sub_diag.
          reflexivity. }
        rewrite Hskip.
        rewrite forallb_app in Hws. apply andb_true_iff in Hws as [_ Hws].
        cbn [forallb] in Hws. apply andb_true_iff in Hws as [_ Hws].
        rewrite collapse_blank_lines_no_nl by assumption.
        apply no_blank_line_nl; auto.
        -- now apply collapse_blank_lines_head.
        -- rewrite <- collapse_blank_lines_no_nl by assumption.
           apply IH. rewrite <- Hskip, length_skipn. lia.
    + cbn [collapse_blank_lines_from blank_match]. rewrite Hc.
      cbn [no_blank_line]. unfold is_newline at 1. rewrite Hc. simpl.
      apply IH. lia.
Qed.

Lemma no_blank_line_dropWhile (p : char -> bool) (x : jsstring) :
  no_blank_line x = true -> no_blank_line (dropWhile p x) = true.
Proof.
  induction x as [|c x IH]; [auto|]. simpl.
  intros H. destruct (p c); [|exact H].
  apply andb_true_iff in H as [_ H]. auto.
Qed.

Lemma existsb_span_prefix (a b : jsstring) :
  existsb is_newline (fst (span is_space a)) = true ->
  existsb is_newline (fst (span is_space (a ++ b))) = true.
Proof.
  induction a as [|c a IH]; simpl; [discriminate|].
  destruct (is_space c); [|discriminate].
  destruct (span is_space a) as [a1 a2].
  destruct (span is_space (a ++ b)) as [b1 b2]. simpl in *.
  destruct (is_newline c); simpl; auto.
Qed.

Lemma no_blank_line_prefix (a b : jsstring) :
  no_blank_line (a ++ b) = true -> no_blank_line a = true.
Proof.
  induction a as [|c a IH]; [reflexivity|]. cbn [app no_blank_line].
  intros H. apply andb_true_iff in H as [H1 H2]. rewrite (IH H2), andb_true_r.
  destruct (is_newline c); [|reflexivity]. simpl in *.
  apply negb_true_iff in H1. apply negb_true_iff.
  destruct (existsb is_newline (fst (span is_space a))) eqn:E; [|reflexivity].
  now rewrite (existsb_span_prefix a b E) in H1.
Qed.

Lemma strip_trailing_ws_prefix (l : jsstring) :
  exists ws, l = strip_trailing_ws l ++ ws.
Proof.
  induction l as [|c l [ws IH]]; [now exists []|]. cbn [strip_trailing_ws].
  destruct (is_space c && forallb is_space l).
  - now exists (c :: l).
  - exists ws. simpl. now rewrite <- IH.
Qed.

Lemma cleanup_no_blank_line (x : jsstring) : no_blank_line (cleanup x) = true.
Proof.
  unfold cleanup, trim_ends, collapse_blank_lines.
  set (y := collapse_blank_lines_from 0 _).
  assert (Hy : no_blank_line y = true)
    by (unfold y; eapply collapse_blank_lines_no_blank_line; apply Nat.le_refl).
  apply (no_blank_line_dropWhile is_space) in Hy.
  destruct (strip_trailing_ws_prefix (dropWhile is_space y)) as [ws Hws].
  rewrite Hws in Hy. now apply no_blank_line_prefix in Hy.
Qed.

(** X16.  The printed formula has no empty line and no line of white space
    only: in it no line feed is followed, after white space only, by
    another line feed. *)
Theorem format_has_no_blank_line (s : jsstring) :
  exists r, formatAirtableFormula s = Ok r /\ no_blank_line r = true.
Proof.
  destruct (format_cases s)
    as [[Hs Hfmt] | (Hs & toks & res & Htok & _ & Hasm & Hfmt)].
  - exists []. auto.
  - exists (cleanup res). split; [assumption|]. apply cleanup_no_blank_line.
Qed.

(** *** No line of the printed text ends with a space *)

Lemma no_trailing_space_tail (c : char) (x : jsstring) :
  no_trailing_space (c :: x) = true -> no_trailing_space x = true.
Proof. cbn [no_trailing_space]. now intros [_ H]%andb_true_iff. Qed.

Lemma no_trailing_space_skipn (k : nat) (x : jsstring) :
  no_trailing_space x = true -> no_trailing_space (skipn k x) = true.
Proof.
  revert x. induction k as [|k IH]; intros [|c x] H; auto.
  cbn [skipn]. apply IH. now apply no_trailing_space_tail in H.
Qed.

Lemma no_newline_skipn (k : nat) (x : jsstring) :
  no_newline x = true -> no_newline (skipn k x) = true.
Proof.
  intros H. rewrite <- (firstn_skipn k x), no_newline_app in H.
  now apply andb_true_iff in H as [_ H].
Qed.

(** A code unit [c] in front of a text that goes on with a code unit other
    than a line feed. *)
Lemma no_trailing_space_cons (c d : char) (x : jsstring) :
  (d =? ch_nl)%N = false ->
  no_trailing_space (d :: x) = true ->
  no_trailing_space (c :: d :: x) = true.
Proof.
  intros Hd H. cbn [no_trailing_space is_empty starts_with] in *.
  rewrite Hd, H. now rewrite andb_false_r.
Qed.

Lemma strip_trailing_spaces_nil (l : jsstring) :
  strip_trailing_spaces l = [] ->
  forallb (fun d => (d =? ch_space)%N) l = true.
Proof.
  destruct l as [|c l]; [reflexivity|]. cbn [strip_trailing_spaces].
  destruct ((c =? ch_space)%N && forallb (fun d => (d =? ch_space)%N) l)
    eqn:E; [|discriminate].
  intros _. exact E.
Qed.

Lemma strip_trailing_spaces_clean (l : jsstring) :
  no_newline l = true -> no_trailing_space (strip_trailing_spaces l) = true.
Proof.
  induction l as [|c l IH]; [reflexivity|]. cbn [no_newline forallb].
  intros H. apply andb_true_iff in H as [Hc Hl]. fold (no_newline l) in Hl.
  specialize (IH Hl). cbn [strip_trailing_spaces].
  destruct ((c =? ch_space)%N && forallb (fun d => (d =? ch_space)%N) l)
    eqn:E; [reflexivity|].
  destruct (strip_trailing_spaces l) as [|d y] eqn:Ey.
  - apply strip_trailing_spaces_nil in Ey. rewrite Ey, andb_true_r in E.
    cbn [no_trailing_space]. now rewrite E.
  - apply no_trailing_space_cons; [|assumption].
    destruct l as [|d' l']; [discriminate|].
    cbn [strip_trailing_spaces] in Ey.
    destruct (_ && _) in Ey; [discriminate|]. injection Ey as <- _.
    cbn [no_newline forallb] in Hl. apply andb_true_iff in Hl as [Hd _].
    now apply negb_true_iff in Hd.
Qed.

Lemma collapse_spaces_skip (k : nat) (l : jsstring) :
  collapse_spaces_from k l = collapse_spaces_from 0 (skipn k l).
Proof.
  revert k. induction l as [|c l IH]; intros [|k]; try reflexivity.
  cbn [collapse_spaces_from skipn]. apply IH.
Qed.

(** The text after a replacement starts as the text before it. *)
Lemma collapse_spaces_head (d : char) (l : jsstring) :
  exists y, collapse_spaces_from 0 (d :: l) = d :: y.
Proof.
  cbn [collapse_spaces_from]. unfold collapse_match.
  destruct (is_space_or_tab d); [eauto|].
  destruct (collapse_backtrack _ l) as [[k c2]|]; eauto.
Qed.

Lemma no_newline_in (c : char) (l : jsstring) :
  no_newline l = true -> In c l -> (c =? ch_nl)%N = false.
Proof.
  unfold no_newline. rewrite forallb_forall. intros H Hin.
  apply negb_true_iff. now apply H.
Qed.

Lemma collapse_backtrack_outside (m : nat) (l : jsstring) (k : nat) (c2 : char) :
  collapse_backtrack m l = Some (k, c2) -> is_space_or_tab c2 = false.
Proof.
  induction m as [|m IH]; cbn [collapse_backtrack]; [discriminate|].
  destruct (S m <? 2); [discriminate|].
  destruct (nth_error l (S m)) as [e|]; [|exact IH].
  destruct (is_space_or_tab e) eqn:Ee; [exact IH|].
  intros H. now injection H as _ <-.
Qed.

Lemma collapse_spaces_clean (n : nat) (l : jsstring) :
  length l <= n -> no_newline l = true ->
  no_trailing_space l = true ->
  no_trailing_space (collapse_spaces_from 0 l) = true.
Proof.
  revert l. induction n as [|n IH]; intros l Hlen Hnl Hl.
  - destruct l; [reflexivity | simpl in Hlen; lia].
  - destruct l as [|c l]; [reflexivity|]. simpl in Hlen.
    pose proof Hnl as Hnl'. cbn [no_newline forallb] in Hnl'.
    apply andb_true_iff in Hnl' as [_ Hnl']. fold (no_newline l) in Hnl'.
    pose proof (@no_trailing_space_tail c l Hl) as Hl'.
    cbn [collapse_spaces_from]. unfold collapse_match.
    destruct (is_space_or_tab c) eqn:Hc.
    + (* no match at a space or a tab *)
      assert (Hrec : no_trailing_space (collapse_spaces_from 0 l) = true)
        by (apply IH; auto; lia).
      destruct l as [|d l'].
      * exact Hl.
      * destruct (collapse_spaces_head d l') as [y Hy]. rewrite Hy in *.
        apply no_trailing_space_cons; [|assumption].
        apply (@no_newline_in d (d :: l')); [assumption | now left].
    + destruct (collapse_backtrack (length (fst (span is_space l))) l)
        as [[k c2]|] eqn:E.
      * pose proof (collapse_backtrack_in _ _ E) as Hin.
        pose proof (collapse_backtrack_outside _ _ E) as Hst.
        apply collapse_backtrack_spec in E. destruct E as [Hk Hn].
        replace (k + 2 - 1) with (S k) by lia.
        rewrite collapse_spaces_skip.
        assert (Hrec : no_trailing_space
                         (collapse_spaces_from 0 (skipn (S k) l)) = true).
        { apply IH.
          - rewrite length_skipn. lia.
          - now apply no_newline_skipn.
          - now apply no_trailing_space_skipn. }
        assert (Hc2 : (c2 =? ch_space)%N = false).
        { unfold is_space_or_tab in Hst.
          now apply orb_false_iff in Hst as [Hst _]. }
        cbn [no_trailing_space is_empty starts_with].
        rewrite Hrec.
        assert (Hc' : (c =? ch_space)%N = false).
        { unfold is_space_or_tab in Hc. now apply orb_false_iff in Hc as [Hc _]. }
        rewrite Hc', Hc2, (@no_newline_in c2 l Hnl' Hin). reflexivity.
      * assert (Hrec : no_trailing_space (collapse_spaces_from 0 l) = true)
          by (apply IH; auto; lia).
        destruct l as [|d l'].
        -- exact Hl.
        -- destruct (collapse_spaces_head d l') as [y Hy]. rewrite Hy in *.
           apply no_trailing_space_cons; [|assumption].
           apply (@no_newline_in d (d :: l')); [assumption | now left].
Qed.

Lemma clean_line_clean (l : jsstring) :
  no_newline l = true ->
  no_newline (clean_line l) = true
  /\ no_trailing_space (clean_line l) = true.
Proof.
  intros H. unfold clean_line, collapse_spaces.
  pose proof (@strip_trailing_spaces_flat l H) as H1.
  split; [now apply collapse_spaces_flat|].
  eapply collapse_spaces_clean; [apply Nat.le_refl | assumption |].
  now apply strip_trailing_spaces_clean.
Qed.

Lemma split_lines_no_newline (x : jsstring) :
  Forall (fun l => no_newline l = true) (split_lines x).
Proof.
  induction x as [|c x IH]; simpl; [repeat constructor|].
  destruct (c =? ch_nl)%N eqn:Hc; [constructor; [reflexivity | exact IH]|].
  destruct (split_lines x) as [|l ls]; [repeat constructor; simpl; now rewrite Hc|].
  inversion IH as [|? ? Hl Hls]; subst. constructor; [|assumption].
  cbn [no_newline forallb]. rewrite Hc. exact Hl.
Qed.

Lemma no_trailing_space_join (a b : jsstring) :
  no_trailing_space a = true -> no_trailing_space b = true ->
  no_trailing_space (a ++ ch_nl :: b) = true.
Proof.
  intros Ha Hb. induction a as [|c a IH].
  - cbn [app no_trailing_space]. now rewrite Hb.
  - pose proof (@no_trailing_space_tail c a Ha) as Ha'.
    cbn [app no_trailing_space]. apply andb_true_iff. split; [|now apply IH].
    cbn [no_trailing_space] in Ha. apply andb_true_iff in Ha as [Ha _].
    destruct (c =? ch_space)%N; [|reflexivity].
    destruct a as [|d a]; simpl in *; [discriminate | exact Ha].
Qed.

Lemma join_lines_clean (ls : list jsstring) :
  Forall (fun l => no_trailing_space l = true) ls ->
  no_trailing_space (join_lines ls) = true.
Proof.
  induction ls as [|l ls IH]; [reflexivity|].
  intros H. inversion H as [|? ? Hl Hls]; subst.
  destruct ls as [|l' ls]; [exact Hl|].
  change (join_lines (l :: l' :: ls))
    with (l ++ ch_nl :: join_lines (l' :: ls)).
  apply no_trailing_space_join; auto.
Qed.

Lemma collapse_blank_lines_clean (n : nat) (l : jsstring) :
  length l <= n -> no_trailing_space l = true ->
  no_trailing_space (collapse_blank_lines_from 0 l) = true.
Proof.
  revert l. induction n as [|n IH]; intros l Hlen Hl.
  - destruct l; [reflexivity | simpl in Hlen; lia].
  - destruct l as [|c l]; [reflexivity|]. simpl in Hlen.
    pose proof (@no_trailing_space_tail c l Hl) as Hl'.
    cbn [collapse_blank_lines_from].
    destruct (blank_match (c :: l)) as [len|] eqn:E.
    + rewrite collapse_blank_lines_skip. cbn [no_trailing_space].
      rewrite IH.
      * reflexivity.
      * rewrite length_skipn. lia.
      * now apply no_trailing_space_skipn.
    + assert (Hrec : no_trailing_space (collapse_blank_lines_from 0 l) = true)
        by (apply IH; auto; lia).
      cbn [no_trailing_space] in Hl |- *. rewrite Hrec, andb_true_r.
      apply andb_true_iff in Hl as [Hl _].
      destruct (c =? ch_space)%N; [|reflexivity]. simpl in *.
      destruct l as [|d l']; [discriminate|]. simpl in Hl.
      apply negb_true_iff in Hl.
      cbn [collapse_blank_lines_from blank_match]. rewrite Hl. simpl.
      now rewrite Hl.
Qed.

Lemma no_trailing_space_dropWhile (p : char -> bool) (x : jsstring) :
  no_trailing_space x = true -> no_trailing_space (dropWhile p x) = true.
Proof.
  induction x as [|c x IH]; [auto|]. simpl dropWhile.
  intros H. destruct (p c); [|exact H].
  apply IH. now apply no_trailing_space_tail in H.
Qed.

Lemma no_trailing_space_prefix (y ws : jsstring) :
  starts_with_not is_space (rev y) ->
  no_trailing_space (y ++ ws) = true -> no_trailing_space y = true.
Proof.
  induction y as [|c y IH]; [reflexivity|]. intros Hlast H.
  pose proof (@no_trailing_space_tail c (y ++ ws) H) as H'.
  cbn [app no_trailing_space] in *.
  apply andb_true_iff in H as [H _].
  destruct y as [|d y].
  - simpl in *. destruct (c =? ch_space)%N eqn:Hc; [|reflexivity].
    apply N.eqb_eq in Hc. subst c. discriminate.
  - rewrite IH; [| |assumption].
    + rewrite andb_true_r. simpl in *. exact H.
    + cbn [rev] in *. destruct (rev y ++ [d]) as [|e r] eqn:Er.
      * destruct (rev y); discriminate.
      * exact Hlast.
Qed.

Lemma cleanup_no_trailing_space (x : jsstring) :
  no_trailing_space (cleanup x) = true.
Proof.
  unfold cleanup, trim_ends, collapse_blank_lines.
  set (y := collapse_blank_lines_from 0 _).
  assert (Hy : no_trailing_space y = true).
  { unfold y. eapply collapse_blank_lines_clean; [apply Nat.le_refl|].
    apply join_lines_clean. rewrite Forall_map.
    eapply Forall_impl; [|apply split_lines_no_newline].
    intros l Hl. now apply clean_line_clean. }
  apply (no_trailing_space_dropWhile is_space) in Hy.
  destruct (strip_trailing_ws_prefix (dropWhile is_space y)) as [ws Hws].
  rewrite Hws in Hy.
  apply no_trailing_space_prefix in Hy; [assumption|].
  apply strip_trailing_ws_last.
Qed.

(** X17.  No line of the printed formula ends with a space: in it no space
    stands in front of a line feed or at the end. *)
Theorem format_has_no_trailing_space (s : jsstring) :
  exists r, formatAirtableFormula s = Ok r /\ no_trailing_space r = true.
Proof.
  destruct (format_cases s)
    as [[Hs Hfmt] | (Hs & toks & res & Htok & _ & Hasm & Hfmt)].
  - exists []. auto.
  - exists (cleanup res). split; [assumption|].
    apply cleanup_no_trailing_space.
Qed.

(** X18.  The printed formula depends on the kinds and texts of the tokens
    only: two formulas that [tokenize] lexes into the same kinds and texts
    of tokens, whatever the white space between their tokens and the case
    of their function names, are printed alike. *)
Theorem format_depends_on_tokens_only (s s' : jsstring) :
  token_kinds s = token_kinds s' ->
  formatAirtableFormula s = formatAirtableFormula s'.
Proof.
  unfold token_kinds. intros Hkinds.
  destruct (tokenize_total s) as [toks Htok].
  destruct (tokenize_total s') as [toks' Htok'].
  rewrite Htok, Htok' in Hkinds. cbn [bind] in Hkinds.
  injection Hkinds as Hkinds.
  destruct (format_cases s)
    as [[Hs ->] | (Hs & toks1 & res & Htok1 & Hne & Hasm & ->)];
    destruct (format_cases s')
      as [[Hs' ->] | (Hs' & toks2 & res' & Htok2 & Hne' & Hasm' & ->)];
    try reflexivity.
  - exfalso. rewrite (@tokenize_blank s Hs) in Htok. injection Htok as <-.
    assert (toks2 = toks') by congruence. subst toks2.
    destruct toks'; [congruence | discriminate].
  - exfalso. rewrite (@tokenize_blank s' Hs') in Htok'. injection Htok' as <-.
    assert (toks1 = toks) by congruence. subst toks1.
    destruct toks; [congruence | discriminate].
  - assert (toks1 = toks) by congruence. subst toks1.
    assert (toks2 = toks') by congruence. subst toks2.
    rewrite (@assemble_ext toks toks' Hkinds) in Hasm. congruence.
Qed.

Lemma format_depends_on_tokens_only_witness :
  formatAirtableFormula (str " if( {a}>1 ,sum( 2,x ) , true)")
  = formatAirtableFormula (str "IF({a} > 1, SUM(2, x), TRUE)").
Proof.
  apply format_depends_on_tokens_only. vm_compute. reflexivity.
Defined.

(** ** The page: the printed formula, as it is shown *)

Lemma is_newline_upper (c : char) : is_newline (upper_char c) = is_newline c.
Proof.
  unfold is_newline, upper_char. destruct (in_range 97 122 c) eqn:E;
    [|reflexivity].
  unfold in_range in E. apply andb_true_iff in E as [E1 E2].
  apply N.leb_le in E1, E2. unfold ch_nl.
  destruct (N.eqb_spec (c - 32) 10), (N.eqb_spec c 10); try reflexivity; lia.
Qed.

Lemma count_newlines_upper (x : jsstring) :
  count_newlines (toUpperCase x) = count_newlines x.
Proof.
  unfold count_newlines. induction x as [|c x IH]; [reflexivity|]. simpl.
  rewrite is_newline_upper. destruct (is_newline c); simpl; now rewrite IH.
Qed.

Lemma count_newlines_app (a b : jsstring) :
  count_newlines (a ++ b) = count_newlines a + count_newlines b.
Proof. unfold count_newlines. now rewrite filter_app, length_app. Qed.

Lemma split_lines_length (x : jsstring) :
  length (split_lines x) = S (count_newlines x).
Proof.
  unfold count_newlines. induction x as [|c x IH]; [reflexivity|]. simpl.
  unfold is_newline at 1. destruct (c =? ch_nl)%N; simpl; [now rewrite IH|].
  destruct (split_lines x); simpl in *; lia.
Qed.

(** The display lexer shows no line feed that the text does not hold. *)
Lemma highlight_count_newlines (s : jsstring) (toks : list HighlightedToken) :
  highlightAirtableFormula s = Ok toks ->
  count_newlines (concat_text toks) <= count_newlines s.
Proof.
  revert s toks. apply highlight_ind; [reflexivity|].
  intros c rest toks _ IH.
  destruct (highlight_step_consumes c rest) as (v & sk & Hrest & Hup & _).
  destruct (highlight_step c rest) as [t r]. cbn [fst snd] in *.
  unfold concat_text in *. cbn [map concat].
  rewrite count_newlines_app.
  rewrite <- (count_newlines_upper (text t)), Hup, count_newlines_upper.
  rewrite Hrest. change (c :: v ++ sk ++ r) with ((c :: v) ++ sk ++ r).
  rewrite !count_newlines_app. lia.
Qed.

(** X19.  What the page shows for the text of the input box, the display
    lexer applied to the printed formula, still holds the code units of the
    input that are not white space, in order and up to the case of letters:
    the texts of the [span]s of the code column, one after the other, hold
    them and no other. *)
Theorem page_keeps_visible_text (input : jsstring) :
  exists formatted toks,
    Page.debounced_formatted input = Ok formatted
    /\ Page.highlightedTokens formatted = Ok toks
    /\ visible (toUpperCase (concat_text toks))
       = visible (toUpperCase input).
Proof.
  unfold Page.debounced_formatted. rewrite trim_empty_iff_blank.
  destruct (format_cases input)
    as [[Hs Hfmt] | (Hs & toks & res & Htok & _ & Hasm & Hfmt)];
    rewrite Hs; cbn [negb].
  - exists [], []. repeat split. symmetry. now apply visible_blank.
  - unfold Page.highlightedTokens.
    assert (Hhl : exists hs, (if is_empty (cleanup res) then Ok []
                              else highlightAirtableFormula (cleanup res))
                             = Ok hs
                             /\ highlightAirtableFormula (cleanup res) = Ok hs).
    { destruct (cleanup res) as [|c r] eqn:E.
      - exists []. split; reflexivity.
      - cbn [is_empty]. destruct (highlight_total (c :: r)) as [hs Hhs].
        exists hs. auto. }
    destruct Hhl as (hs & Hpage & Hhs).
    exists (cleanup res), hs. repeat split; try assumption.
    destruct (@highlight_concat_bound _ hs Hhs) as (_ & Hvis & _).
    rewrite Hvis.
    rewrite visible_upper, visible_cleanup,
      (@assemble_visible input toks res Htok Hasm), <- visible_upper.
    now apply tokenize_visible.
Qed.

(** X20.  The code column of the page never shows more lines than the
    line-number column has rows: the texts of the [span]s hold at most the
    line feeds of the printed formula.  It can show fewer: for f(a,b) the
    printed formula has four lines, and the code is shown on three, the
    closing parenthesis behind the last argument. *)
Theorem page_lines_within_line_numbers :
  (forall formatted : jsstring,
      formatted <> [] ->
      exists toks,
        Page.highlightedTokens formatted = Ok toks
        /\ length (split_lines (concat_text toks))
           <= length (Page.formattedLines formatted))
  /\ exists formatted toks,
      Page.debounced_formatted (str "f(a,b)") = Ok formatted
      /\ Page.highlightedTokens formatted = Ok toks
      /\ length (Page.formattedLines formatted) = 4
      /\ length (split_lines (concat_text toks)) = 3.
Proof.
  split.
  - intros formatted Hne. unfold Page.highlightedTokens, Page.formattedLines.
    destruct formatted as [|c r]; [congruence|]. cbn [is_empty].
    destruct (highlight_total (c :: r)) as [toks Hrun]. exists toks.
    split; [assumption|]. rewrite !split_lines_length.
    apply le_n_S. now apply highlight_count_newlines.
  - eexists. eexists. split; [vm_compute; reflexivity|].
    split; [vm_compute; reflexivity|]. split; vm_compute; reflexivity.
Qed.

Lemma page_lines_within_line_numbers_witness :
  exists toks,
    Page.highlightedTokens (str "F(" ++ [ch_nl; ch_tab] ++ str "a)") = Ok toks
    /\ length (split_lines (concat_text toks))
       <= length (Page.formattedLines
                    (str "F(" ++ [ch_nl; ch_tab] ++ str "a)")).
Proof.
  apply (proj1 page_lines_within_line_numbers). discriminate.
Defined.

(** ** What the emission pass puts between the tokens *)

Lemma is_separator_indent (k : nat) :
  is_separator (ch_nl :: repeat ch_tab k) = true.
Proof.
  simpl. induction k as [|k IH]; [reflexivity|]. simpl in *. exact IH.
Qed.

(** From token [i] on, the emission loop appends the texts of the tokens
    with a separator in each gap; in front of token [i] it puts what the
    iteration for that token puts in front. *)
Lemma emit_loop_weave (toks : list Token) (fuel i : nat) (st st' : State) :
  Forall (fun t => type t <> ty_whitespace) toks ->
  (0 <= indentLevel st)%Z ->
  i < length toks ->
  emit_loop fuel toks i st = Ok st' ->
  exists pre gaps,
    result_ st'
    = result_ st ++ pre ++ weave (map value (skipn i toks)) gaps
    /\ length gaps = length toks - i - 1
    /\ forallb is_separator gaps = true
    /\ is_separator pre = true
    /\ (pre = []
        \/ (0 < i /\ blank_end (result_ st) = false)
        \/ ((exists t, nth_error toks i = Some t /\ type t = ty_paren_close)
            /\ isMultiLine st = true)).
Proof.
  intros Hty. revert i st.
  induction fuel as [|fuel IH]; intros i st Hlvl Hi; cbn [emit_loop];
    rewrite (proj2 (Nat.ltb_lt _ _) Hi); [discriminate|].
  destruct (@get_in_range toks i Hi) as (t & Hnth & _).
  assert (Ht : type t <> ty_whitespace).
  { rewrite Forall_forall in Hty. apply Hty. eapply nth_error_In; eauto. }
  destruct (@emit_step_pieces toks i st t Hnth Ht Hlvl)
    as (pre & post & lvl & ml & Hstep & Hlvl' & Hpre & Hpost).
  rewrite Hstep. cbn [bind]. intros Hrun.
  rewrite (@skipn_nth_error _ toks i t Hnth). cbn [map].
  assert (Hpre_sep : is_separator pre = true
                     /\ (pre = []
                         \/ (0 < i /\ blank_end (result_ st) = false)
                         \/ ((exists t, nth_error toks i = Some t
                                        /\ type t = ty_paren_close)
                             /\ isMultiLine st = true))).
  { destruct Hpre as [-> | [(-> & _ & Hpos & Hblank) | ((k & ->) & Hclose & Hml)]].
    - split; [reflexivity | now left].
    - split; [reflexivity | right; left; auto].
    - split; [apply is_separator_indent | right; right; eauto]. }
  destruct Hpre_sep as [Hsep Hcond].
  destruct (Nat.lt_ge_cases (i + 1) (length toks)) as [Hnext | Hlast].
  - (* a token follows *)
    apply IH in Hrun; [|exact Hlvl' | exact Hnext].
    destruct Hrun as (pre' & gaps & Hres & Hlen & Hgaps & Hsep' & Hcond').
    cbn [result_ isMultiLine] in Hres, Hcond'.
    replace (S i) with (i + 1) by lia.
    destruct (skipn (i + 1) toks) as [|t2 rest] eqn:Hskip.
    { apply (f_equal (@length _)) in Hskip. rewrite length_skipn in Hskip.
      simpl in Hskip. lia. }
    assert (Hgap : is_separator (post ++ pre') = true
                   /\ (post = [] \/ pre' = [])).
    { destruct Hpost as [-> | (Hform & _ & t' & Hn' & Hnc)].
      - split; [exact Hsep' | now left].
      - destruct Hcond' as [-> | [[_ Hblank] | [(t3 & Hn3 & Hc3) _]]].
        * rewrite app_nil_r. split; [|now right].
          destruct Hform as [-> | (k & ->)];
            [reflexivity | apply is_separator_indent].
        * exfalso. rewrite !app_assoc in Hblank.
          destruct Hform as [-> | (k & ->)].
          -- now rewrite blank_end_space in Hblank.
          -- now rewrite blank_end_indent in Hblank.
        * exfalso. congruence. }
    destruct Hgap as [Hgap _].
    exists pre, ((post ++ pre') :: gaps). cbn [map weave] in *.
    rewrite Hres. repeat split; auto.
    + now rewrite <- !app_assoc.
    + simpl. lia.
    + simpl. now rewrite Hgap, Hgaps.
  - (* the last token *)
    assert (Hpost' : post = []).
    { destruct Hpost as [-> | (_ & _ & t' & Hn' & _)]; [reflexivity|].
      assert (Hsome : nth_error toks (i + 1) <> None) by congruence.
      apply nth_error_Some in Hsome. lia. }
    subst post.
    destruct fuel as [|fuel']; cbn [emit_loop] in Hrun;
      rewrite (proj2 (Nat.ltb_ge _ _) Hlast) in Hrun;
      injection Hrun as <-; cbn [result_];
      rewrite skipn_all2 by lia; exists pre, []; cbn [map weave];
      rewrite app_nil_r; repeat split; auto; simpl; lia.
Qed.

(** X21.  The emission pass prints the texts of the tokens in order and
    puts in each gap between two tokens nothing, one space, or one line
    feed followed by tabs, and nothing in front of the first token or
    behind the last one.  The printed formula is the cleanup of that
    text. *)
Theorem assemble_separates_tokens (s : jsstring) :
  exists toks gaps,
    tokenize s = Ok toks
    /\ length gaps = length toks - 1
    /\ forallb is_separator gaps = true
    /\ assemble toks = Ok (weave (map value toks) gaps)
    /\ formatAirtableFormula s
       = Ok (cleanup (weave (map value toks) gaps)).
Proof.
  destruct (format_cases s)
    as [[Hs Hfmt] | (Hs & toks & res & Htok & Hne & Hasm & Hfmt)].
  - exists [], []. rewrite (@tokenize_blank s Hs), Hfmt.
    repeat split; reflexivity.
  - assert (Hlen : 0 < length toks)
      by (destruct toks; [congruence | simpl; lia]).
    pose proof (lexed_not_whitespace (@tokenize_lexed s toks Htok)) as Hty.
    unfold assemble in Hasm.
    destruct (emit_loop (length toks) toks 0 initial_state) as [st|] eqn:E;
      [|discriminate].
    cbn [bind] in Hasm. injection Hasm as <-.
    destruct (@emit_loop_weave toks (length toks) 0 initial_state st Hty)
      as (pre & gaps & Hres & Hgl & Hgaps & _ & Hpre);
      [simpl; lia | assumption | assumption |].
    assert (pre = []) as ->.
    { destruct Hpre as [-> | [[H0 _] | [_ Hml]]];
        [reflexivity | lia | discriminate]. }
    cbn [result_ initial_state app skipn] in Hres.
    exists toks, gaps. split; [assumption|]. split; [lia|].
    split; [assumption|]. rewrite <- Hres. split; [|assumption].
    unfold assemble. now rewrite E.
Qed.
